(** * LobsterPy: plotting helpers, the command-line plot action and the
      bonding analysis contract

    A shallow embedding of
    - [lobsterpy/plotting/__init__.py]: [get_style_list],
      [PlainCohpPlotter] ([get_plot], [_broaden]) and
      [InteractiveCohpPlotter];
    - [lobsterpy/cli.py]: the [plot] and input-creation actions of [run]
      and its helpers;
    - the automatic bonding analysis ([select], [classify], [build]) of
      [lobsterpy/cohp/analyze.py], after its specification.

    Numbers that are floats in the Python code are rationals ([Q]) here.
    Where the rounding of float arithmetic decides a result (the number of
    points of [np.arange]) or is what a statement is about (the quotients
    of the figure size), the float operation is a parameter of the
    definition; elsewhere arithmetic is exact. A quotient without a finite
    value is [None], and the places where NumPy raises are explicit error
    results. *)

From Stdlib Require Import QArith Qround Qabs Qminmax Lqa.
From stdpp Require Import gmap strings list fin_maps pretty sorting.

(** ** Python results: a value or a raised exception *)

Inductive py_exn : Type :=
  | ValueError (msg : string)
  | IndexError (msg : string)
  | KeyError (key : string)
  | TypeError
  | LibraryError.   (* raised inside NumPy/SciPy on a degenerate argument *)

Inductive result (A : Type) : Type :=
  | Ok (a : A)
  | Raise (e : py_exn).
Arguments Ok {A} a.
Arguments Raise {A} e.

Definition is_raise {A} (r : result A) : Prop :=
  match r with Ok _ => False | Raise _ => True end.

Definition result_bind {A B} (r : result A) (k : A → result B) : result B :=
  match r with Ok a => k a | Raise e => Raise e end.

(** ** Rational helpers *)

Definition Qsum (l : list Q) : Q := foldr Qplus 0%Q l.

(** * lobsterpy.plotting *)

Module Plotting.

(** ** [get_style_list]

    A style is a string (a path or a style name) or a dict of rcParams.
    Python lists are objects: the function receives a reference to the
    caller's [styles] list and returns a reference to a list it built. The
    store maps references to list contents, so that mutation of the caller's
    list would be visible. *)

Section Styles.
Context {V : Type}.            (* rcParam values *)
Variable base_style : string.  (* resource_filename(..., lobsterpy_base.mplstyle) *)

Inductive style : Type :=
  | StyleName (s : string)
  | StyleDict (d : gmap string V).

(** References are numbers; the store holds the list objects. *)
Local Abbreviation ref := nat (only parsing).
Local Abbreviation store := (gmap nat (list style)) (only parsing).

(** State monad over the store; [None] is an access through a reference
    that names no list. *)
Definition M (A : Type) := store → option (A * store).

Definition ret {A} (a : A) : M A := λ h, Some (a, h).
Definition bind {A B} (m : M A) (k : A → M B) : M B :=
  λ h, match m h with Some (a, h') => k a h' | None => None end.

Definition alloc (l : list style) : M ref :=
  λ h, let r := fresh (dom h) in Some (r, <[r := l]> h).
Definition read (r : ref) : M (list style) :=
  λ h, match h !! r with Some l => Some (l, h) | None => None end.

(** [a + b] on lists: a new list object. *)
Definition list_add (a b : ref) : M ref :=
  bind (read a) (λ x, bind (read b) (λ y, alloc (x ++ y))).

Definition get_style_list
    (no_base_style : bool) (styles : option ref) (kwargs : gmap string V)
  : M ref :=
  bind (if no_base_style then alloc [] else alloc [StyleName base_style])
    (λ base,
  bind (match styles with
        | None => alloc []
        | Some s => ret s
        end)
    (λ styles,
  bind (list_add base styles)
    (λ t,
  bind (alloc [StyleDict kwargs])
    (λ kw, list_add t kw)))).

(** What the caller passed, as a value. *)
Definition styles_value (h : store) (styles : option ref)
  : option (list style) :=
  match styles with
  | None => Some []
  | Some s => h !! s
  end.

Definition base_part (no_base_style : bool) : list style :=
  if no_base_style then [] else [StyleName base_style].
End Styles.

(** ** [PlainCohpPlotter._broaden]

    NumPy arrays are lists of rationals. [norm_pdf x sigma] stands for
    [scipy.stats.norm.pdf(x, scale=sigma)]; it is a parameter of the
    function. *)

(** [np.diff]: differences of adjacent entries. *)
Fixpoint diff (l : list Q) : list Q :=
  match l with
  | a :: (b :: _) as t => (b - a)%Q :: diff t
  | _ => []
  end.

(** [np.mean]: NaN (here [None]) on an empty array. *)
Definition mean (l : list Q) : option Q :=
  match l with
  | [] => None
  | _ => Some (Qsum l / inject_Z (Z.of_nat (length l)))%Q
  end.

(** [np.allclose(a, b, atol=atol)] with the default [rtol=1e-5]:
    every entry satisfies [|a_i - b| <= atol + rtol * |b|]. *)
Definition rtol_default : Q := 1 # 100000.
Definition allclose (a : list Q) (b atol : Q) : bool :=
  forallb (λ x, Qle_bool (Qabs (x - b)) (atol + rtol_default * Qabs b)) a.

(** The length of [np.arange] without rounding: the ceiling of the exact
    quotient. *)
Definition exact_ceil_div (a b : Q) : Z := Qceiling (a / b).

(** [np.arange(start, stop, step)]: the values [start + i * step] for [i]
    below the length. NumPy computes the length in floating point, as the
    ceiling of the rounded quotient of [stop - start] by [step]; this is the
    parameter [float_ceil_div], since the rounded quotient can be an integer
    where the exact one lies just above it. A zero step raises. *)
Definition arange (float_ceil_div : Q → Q → Z) (start stop step : Q)
  : option (list Q) :=
  if Qeq_bool step 0 then None
  else Some (map (λ i, start + inject_Z (Z.of_nat i) * step)%Q
               (seq 0 (Z.to_nat (float_ceil_div (stop - start)%Q step)))).

(** Entrywise sum of two lists, the shorter one padded with zeros. *)
Fixpoint add_lists (a b : list Q) : list Q :=
  match a, b with
  | [], _ => b
  | _, [] => a
  | x :: a', y :: b' => (x + y)%Q :: add_lists a' b'
  end.

(** The full discrete convolution, [length a + length k - 1] entries. *)
Fixpoint convolve_full (a k : list Q) : list Q :=
  match a with
  | [] => []
  | x :: a' => add_lists (map (Qmult x) k) (0%Q :: convolve_full a' k)
  end.

(** [scipy.signal.convolve(a, k, mode="same")]: the slice of the full
    convolution that has the size of [a] and is centred in it; for an empty
    [a] it is empty, and an empty kernel is refused. *)
Definition convolve_same (a k : list Q) : option (list Q) :=
  match k with
  | [] => None
  | _ => Some (take (length a) (drop ((length k - 1) / 2) (convolve_full a k)))
  end.

Definition grid_error_msg : string :=
  "Energy grid is not regular, cannot broaden with discrete convolution.".

(** [kernel_x[-1:1:-1]]: from the last entry down to index 2. *)
Definition slice_last_to_1_rev (l : list Q) : list Q := rev (drop 2 l).

Definition kernel_mesh (kernel_x : list Q) : list Q :=
  map Qopp (slice_last_to_1_rev kernel_x) ++ kernel_x.

Definition _broaden (norm_pdf : Q → Q → Q) (float_ceil_div : Q → Q → Z)
    (energies population : list Q) (sigma : option Q) (cutoff : Q)
  : result (list Q) :=
  match sigma with
  | None => Ok population
  | Some sigma =>
    match mean (diff energies) with
    | None =>
      (* spacing is NaN: allclose of the empty diff holds, arange raises *)
      Raise LibraryError
    | Some spacing =>
      if negb (allclose (diff energies) spacing (1 # 100000))
      then Raise (ValueError grid_error_msg)
      else
        match arange float_ceil_div 0 (cutoff * sigma + (1 # 2) * spacing)
                spacing with
        | None => Raise LibraryError
        | Some kernel_x =>
          let kernel_x := kernel_mesh kernel_x in
          let kernel := map (λ x, norm_pdf x sigma) kernel_x in
          match convolve_same population kernel with
          | None => Raise LibraryError
          | Some c => Ok (map (λ v, v / Qsum kernel)%Q c)
          end
        end
    end
  end.

(** The default of the [cutoff] argument. *)
Definition cutoff_default : Q := 4.


End Plotting.

(** * lobsterpy.cli: the [plot] action of [run] *)

Module Cli.

Definition nl : string := String (Ascii.ascii_of_nat 10) EmptyString.

(** [str] of an int and of a list of ints. *)
Definition py_str (n : Z) : string := pretty n.

Fixpoint py_join (sep : string) (l : list string) : string :=
  match l with
  | [] => ""
  | [x] => x
  | x :: l' => x +:+ sep +:+ py_join sep l'
  end.

Definition py_str_list (l : list Z) : string :=
  "[" +:+ py_join ", " (map py_str l) +:+ "]".

(** [[f(x) for x in l]] where [f] may raise: the first exception wins. *)
Fixpoint result_map {A B} (f : A → result B) (l : list A) : result (list B) :=
  match l with
  | [] => Ok []
  | x :: l' =>
    result_bind (f x) (λ y, result_bind (result_map f l') (λ ys, Ok (y :: ys)))
  end.

Section Run.
Context {Cohp Figure : Type}.

(** pymatgen's [CompleteCohp], as far as [run] uses it: the keys of the
    [bonds] dict in their order, the [orb_res_cohp] dict (label to the
    orbital names it holds, or [None]) and three methods. *)
Record CompleteCohp : Type := {
  bonds_keys : list string;
  orb_res_cohp : option (gmap string (list string));
  get_cohp_by_label : string → result Cohp;
  get_orbital_resolved_cohp : string → string → result Cohp;
  get_summed_cohp_by_label_list : list string → result Cohp;
}.

(** Python's [int] on a string. *)
Variable py_int : string → result Z.
(** [PlainCohpPlotter.get_plot] followed by showing or saving the figure. *)
Variable get_plot : list (string * Cohp) → result Figure.

Record plot_args : Type := {
  bond_numbers : list Z;
  summed : bool;
  orbitalwise : option (list string);
}.

(** The plotter [cp]: its dict [_cohps] from labels to curves, the labels
    in the order of their first insertion, each as its [str]. *)
Definition plotter := list (string * Cohp).

(** [self._cohps[label] = ...]: the curve of a label that is in the dict is
    replaced where it stands, a new label goes to the end. *)
Fixpoint assign (key : string) (c : Cohp) (cp : plotter) : plotter :=
  match cp with
  | [] => [(key, c)]
  | (key', c') :: cp' =>
    if decide (key = key') then (key, c) :: cp'
    else (key', c') :: assign key c cp'
  end.

(** The dict after the assignments of [curves], in their order. *)
Definition assign_all (curves : list (string * Cohp)) (cp : plotter)
  : plotter :=
  foldl (λ cp kc, assign kc.1 kc.2 cp) cp curves.

(** Statements of [run]: they may raise and they may add to [cp]. *)
Definition P (A : Type) := plotter → result A * plotter.

Definition pret {A} (a : A) : P A := λ cp, (Ok a, cp).
Definition pbind {A B} (m : P A) (k : A → P B) : P B :=
  λ cp, match m cp with
        | (Ok a, cp') => k a cp'
        | (Raise e, cp') => (Raise e, cp')
        end.
Definition lift {A} (r : result A) : P A := λ cp, (r, cp).
Definition raise {A} (e : py_exn) : P A := lift (Raise e).
Definition add_cohp (key : string) (c : Cohp) : P unit :=
  λ cp, (Ok (), assign key c cp).

Fixpoint for_each {A} (body : A → P unit) (l : list A) : P unit :=
  match l with
  | [] => pret ()
  | x :: l' => pbind (body x) (λ _, for_each body l')
  end.

Definition label_error_msg (label : Z) (allowed : list Z) : string :=
  "The provided bond label " +:+ py_str label
    +:+ " is not available in ICO**LIST.lobster." +:+ nl
    +:+ " Allowed options are in this list: " +:+ nl
    +:+ py_str_list allowed.

Definition length_error_msg : string :=
  "Please provide as mainy orbitals as bond labels,"
    +:+ " e.g., lobsterpy plot 1 1 --orbitalwise '2s-2s' '2s-2px'".

Definition orbital_error_msg (label : Z) (options : list string) : string :=
  "Orbital in not available for current bond. " +:+ nl
    +:+ "For bond " +:+ py_str label
    +:+ " only the following orbital options are available: " +:+ nl
    +:+ "[" +:+ py_join ", " (map (λ o, "'" +:+ o +:+ "'") options) +:+ "]".

(** [if str(label) not in completecohp.bonds.keys(): raise IndexError(...)] *)
Definition check_label (cc : CompleteCohp) (label : Z) : P unit :=
  if bool_decide (py_str label ∈ bonds_keys cc) then pret ()
  else pbind (lift (result_map py_int (bonds_keys cc)))
         (λ allowed, raise (IndexError (label_error_msg label allowed))).

(** [completecohp.orb_res_cohp[str(label)].keys()] *)
Definition available_orbitals (cc : CompleteCohp) (label : Z)
  : result (list string) :=
  match orb_res_cohp cc with
  | None => Raise TypeError
  | Some d =>
    match d !! py_str label with
    | None => Raise (KeyError (py_str label))
    | Some orbs => Ok orbs
    end
  end.

Definition add_orbital (cc : CompleteCohp) (label : Z) (orbitals : string)
  : P unit :=
  pbind (lift (get_orbital_resolved_cohp cc (py_str label) orbitals))
    (λ c, add_cohp (py_str label +:+ ": " +:+ orbitals) c).

Definition add_orbitalwise (cc : CompleteCohp) (lo : Z * string) : P unit :=
  let (label, orbitals) := lo in
  pbind (lift (available_orbitals cc label)) (λ availableorbitals,
    let orbitaloptions := availableorbitals ++ ["all"] in
    if bool_decide (orbitals ∈ orbitaloptions) then
      if bool_decide (orbitals ≠ "all") then add_orbital cc label orbitals
      else for_each (add_orbital cc label) availableorbitals
    else raise (IndexError (orbital_error_msg label orbitaloptions))).

(** A list is falsy when it is [None] or empty. *)
Definition truthy (o : option (list string)) : option (list string) :=
  match o with
  | Some (x :: l) => Some (x :: l)
  | _ => None
  end.

(** The body of [if args.action == "plot":] from the construction of the
    plotter on: lines 393 to 448 of [cli.py]. *)
Definition fill_plotter (cc : CompleteCohp) (args : plot_args) : P unit :=
  if negb (summed args) then
    pbind (for_each (check_label cc) (bond_numbers args)) (λ _,
      match truthy (orbitalwise args) with
      | None =>
        for_each (λ label,
            pbind (lift (get_cohp_by_label cc (py_str label)))
              (λ c, add_cohp (py_str label) c))
          (bond_numbers args)
      | Some orbs =>
        if bool_decide (length (bond_numbers args) ≠ length orbs)
        then raise (IndexError length_error_msg)
        else for_each (add_orbitalwise cc) (zip (bond_numbers args) orbs)
      end)
  else
    pbind (lift (get_summed_cohp_by_label_list cc
                   (map py_str (bond_numbers args))))
      (λ c, add_cohp (py_str_list (bond_numbers args)) c).

Definition run_plot (cc : CompleteCohp) (args : plot_args)
  : result Figure * plotter :=
  pbind (fill_plotter cc args) (λ _, λ cp, (get_plot cp, cp)) [].

(** A requested bond number that is no key of [completecohp.bonds]. *)
Definition absent_label (cc : CompleteCohp) (args : plot_args) : Prop :=
  ∃ label, label ∈ bond_numbers args ∧ py_str label ∉ bonds_keys cc.
End Run.

End Cli.

(** * The automatic bonding analysis

    The analysis engine ([lobsterpy/cohp/analyze.py]) is described by
    sections 3, 4 and 7 of the specification and exercised by the test
    suites; the definitions of this module follow the specification. The
    orbital decomposition, which by the specification does not alter a
    group's own statistics, is left out. *)

Module Analysis.

Inductive which_bonds : Type := CationAnion | AllBonds.

(** Modelled from the spec: the fatal errors of section 7. *)
Inductive missing_data : Type :=
  | MissingCurve (label : string)
  | MissingSite (index : nat)
  | MissingCharge (site : nat).

Inductive analysis_error : Type :=
  | MissingDataError (what : missing_data)
  | InvalidCutoffError.


Inductive outcome (A : Type) : Type :=
  | Done (a : A)
  | Failed (e : analysis_error).
Arguments Done {A} a.
Arguments Failed {A} e.

Definition and_then {A B} (o : outcome A) (k : A → outcome B) : outcome B :=
  match o with Done a => k a | Failed e => Failed e end.

Notation "x ←! m ; k" := (and_then m (λ x, k))
  (at level 20, m at level 100, k at level 200, only parsing).

Fixpoint outcome_map {A B} (f : A → outcome B) (l : list A) : outcome (list B) :=
  match l with
  | [] => Done []
  | x :: l' => y ←! f x; ys ←! outcome_map f l'; Done (y :: ys)
  end.

Fixpoint outcome_filter {A} (f : A → outcome bool) (l : list A) : outcome (list A) :=
  match l with
  | [] => Done []
  | x :: l' =>
    keep ←! f x; ys ←! outcome_filter f l';
    Done (if keep : bool then x :: ys else ys)
  end.

Definition Qlt_bool (a b : Q) : bool := negb (Qle_bool b a).

(** ** Data model (section 3) *)

(** Modelled from the spec: a Site as the Structure Adapter exposes it. Its
    index is its position in the structure; [representative] is the index of
    the site that stands for its symmetry class. *)
Record Site : Type := {
  species : string;
  coordination_environment : string;
  representative : nat;
}.

(** Modelled from the spec: a bond the structure refers to, from a central
    site to a partner, by the label of its curve. *)
Record BondRef : Type := {
  central : nat;
  partner : nat;
  bond_label : string;
}.

Record Structure : Type := {
  formula : string;
  sites : list Site;
  bond_refs : list BondRef;
}.

(** Modelled from the spec: a BondCurve of the Curve Store. *)
Record BondCurve : Type := {
  energies : list Q;
  population_up : list Q;
  population_down : option (list Q);
  integral_up : list Q;
  integral_down : option (list Q);
  efermi : Q;
  orbital_pair : option string;
}.

(** Modelled from the spec: the charge data, a signed charge per site and
    the two Madelung energies when the data include them. *)
Record ChargeData : Type := {
  site_charges : gmap nat Q;
  charge_madelung_mull : option Q;
  charge_madelung_loew : option Q;
}.

(** Modelled from the spec: a CandidateBond; [cb_icohp] is the integrated
    population at or below the Fermi level (negative is bonding). *)
Record CandidateBond : Type := {
  cb_central : nat;
  cb_partner : nat;
  cb_icohp : Q;
  cb_label : string;
}.

(** The interaction strength of a bond: the most negative integrated
    population is the strongest. *)
Definition strength (b : CandidateBond) : Q := (- cb_icohp b)%Q.

(** ** Bond Selector (section 4.1) *)

(** The entry of a cumulative-integral series at the last grid point that is
    not above the Fermi level. *)
Definition value_at_fermi (es vs : list Q) (ef : Q) : Q :=
  foldl (λ acc ev, if Qle_bool ev.1 ef then ev.2 else acc) 0%Q (zip es vs).

Definition integrated_strength (c : BondCurve) : Q :=
  (value_at_fermi (energies c) (integral_up c) (efermi c)
   + match integral_down c with
     | Some d => value_at_fermi (energies c) d (efermi c)
     | None => 0
     end)%Q.

Definition lookup_candidate (bond_curves : gmap string BondCurve) (r : BondRef)
  : outcome CandidateBond :=
  match bond_curves !! bond_label r with
  | None => Failed (MissingDataError (MissingCurve (bond_label r)))
  | Some c =>
    Done {| cb_central := central r; cb_partner := partner r;
            cb_icohp := integrated_strength c; cb_label := bond_label r |}
  end.

Definition opposite_signs (qa qb : Q) : bool :=
  (Qlt_bool 0 qa && Qlt_bool qb 0) || (Qlt_bool qa 0 && Qlt_bool 0 qb).

(** Modelled from the spec: eligibility of a pair. Without charges it is
    unconditional. *)
Definition eligible (charges : option (gmap nat Q)) (wb : which_bonds)
    (b : CandidateBond) : outcome bool :=
  match wb, charges with
  | AllBonds, _ => Done true
  | CationAnion, None => Done true
  | CationAnion, Some q =>
    match q !! cb_central b, q !! cb_partner b with
    | Some qa, Some qb => Done (opposite_signs qa qb)
    | None, _ => Failed (MissingDataError (MissingCharge (cb_central b)))
    | _, None => Failed (MissingDataError (MissingCharge (cb_partner b)))
    end
  end.

(** Modelled from the spec: deduplication keeps the bonds of the sites that
    represent their symmetry class. *)
Definition is_representative (structure : Structure) (b : CandidateBond)
  : outcome bool :=
  match sites structure !! cb_central b with
  | None => Failed (MissingDataError (MissingSite (cb_central b)))
  | Some s => Done (bool_decide (representative s = cb_central b))
  end.

(** The candidate bonds: one for every bond the structure refers to, with
    the integrated strength of its curve. *)
Definition candidates (structure : Structure)
    (bond_curves : gmap string BondCurve) : outcome (list CandidateBond) :=
  outcome_map (lookup_candidate bond_curves) (bond_refs structure).

(** The eligible candidates of the representative sites. *)
Definition eligible_pool (structure : Structure)
    (charges : option (gmap nat Q)) (wb : which_bonds)
    (cands : list CandidateBond) : outcome (list CandidateBond) :=
  elig ←! outcome_filter (eligible charges wb) cands;
  outcome_filter (is_representative structure) elig.

(** The strengths of the interactions found for the central site [s]. *)
Definition site_strengths (cands : list CandidateBond) (s : nat) : list Q :=
  map strength (filter (λ b, cb_central b = s) cands).

Definition strongest (l : list Q) : option Q :=
  match l with
  | [] => None
  | x :: l' => Some (foldl Qmax x l')
  end.

(** A bond weaker than [cutoff_icohp * strongest] is excluded, the strongest
    being that of the interactions found for its central site. *)
Definition passes_cutoff (cutoff_icohp : Q) (cands : list CandidateBond)
    (b : CandidateBond) : bool :=
  match strongest (site_strengths cands (cb_central b)) with
  | None => false
  | Some m => Qle_bool (cutoff_icohp * m) (strength b)
  end.

Record Selection : Type := {
  selected : list CandidateBond;
  charges_found : bool;
}.

Definition cutoff_icohp_default : Q := 1 # 10.

(** Modelled from the spec: [select] of section 4.1. *)
Definition select (structure : Structure) (charges : option (gmap nat Q))
    (bond_curves : gmap string BondCurve) (wb : which_bonds)
    (cutoff_icohp : Q) : outcome Selection :=
  if Qle_bool cutoff_icohp 0 then Failed InvalidCutoffError
  else
    cands ←! candidates structure bond_curves;
    pool ←! eligible_pool structure charges wb cands;
    Done {| selected := filter (λ b, passes_cutoff cutoff_icohp cands b) pool;
            charges_found := bool_decide (is_Some charges) |}.

(** ** Interaction Classifier (section 4.2) *)

(** Modelled from the spec: the bonding and antibonding character of one
    spin channel (or of the summed channels) of a group. A percentage is
    [None] when its quotient is not a finite number. *)
Record Character : Type := {
  bonding_integral : Q;
  antibonding_integral : Q;
  bonding_perc : option Q;
  antibonding_perc : option Q;
}.

(** Modelled from the spec: a RelevantBondGroup. The standard deviation of
    section 4.2 is the square root of [icohp_variance] (ddof=0). *)
Record RelevantBondGroup : Type := {
  central_site : nat;
  group_environment : string;
  bond_type : string;
  members : list CandidateBond;
  icohp_mean : Q;
  icohp_min : Q;
  icohp_max : Q;
  icohp_sum : Q;
  icohp_variance : Q;
  characters : list Character;
}.

Definition Qmean (l : list Q) : Q := (Qsum l / inject_Z (Z.of_nat (length l)))%Q.
Definition Qvariance (l : list Q) : Q :=
  Qmean (map (λ x, (x - Qmean l) * (x - Qmean l))%Q l).
Definition Qlist_min (l : list Q) : Q :=
  match l with [] => 0%Q | x :: l' => foldl Qmin x l' end.
Definition Qlist_max (l : list Q) : Q :=
  match l with [] => 0%Q | x :: l' => foldl Qmax x l' end.

(** The finite value of a quotient of two floats: over a zero denominator
    there is none. *)
Definition quotient (a b : Q) : option Q :=
  if Qeq_bool b 0 then None else Some (a / b)%Q.

(** Modelled from the spec: percentage = contribution magnitude /
    (bonding magnitude + antibonding magnitude). *)
Definition percentages (bonding antibonding : Q) : option Q * option Q :=
  let total := (Qabs bonding + Qabs antibonding)%Q in
  (quotient (Qabs bonding) total, quotient (Qabs antibonding) total).

Definition make_character (bonding antibonding : Q) : Character :=
  let p := percentages bonding antibonding in
  {| bonding_integral := bonding; antibonding_integral := antibonding;
     bonding_perc := p.1; antibonding_perc := p.2 |}.

(** The grid points from the lowest energy up to the Fermi level
    (inclusive), with their populations. *)
Definition below_fermi (es ps : list Q) (ef : Q) : list (Q * Q) :=
  filter (λ ep, Qle_bool ep.1 ef) (zip es ps).

(** Spin-up and spin-down populations summed point by point. *)
Fixpoint sum_channels (up down : list Q) : list Q :=
  match up, down with
  | u :: up', d :: down' => (u + d)%Q :: sum_channels up' down'
  | _, [] => up
  | [], _ => down
  end.

(** The population series that are integrated: one when the spins are
    summed, one per spin channel present otherwise. *)
Definition channels (summed_spins : bool) (c : BondCurve) : list (list Q) :=
  match population_down c with
  | None => [population_up c]
  | Some down =>
    if summed_spins then [sum_channels (population_up c) down]
    else [population_up c; down]
  end.

Section Classifier.
(** The quadrature rule over (energy, population) points; the
    specification does not fix it. *)
Variable integrate : list (Q * Q) → Q.

(** Negative population is bonding, positive population antibonding. *)
Definition bonding_contribution (pts : list (Q * Q)) : Q :=
  integrate (map (λ ep, (ep.1, Qmin ep.2 0)) pts).
Definition antibonding_contribution (pts : list (Q * Q)) : Q :=
  integrate (map (λ ep, (ep.1, Qmax ep.2 0)) pts).

(** The contributions of one bond, per channel. *)
Definition bond_contributions (summed_spins : bool) (c : BondCurve)
  : list (Q * Q) :=
  map (λ ps, let pts := below_fermi (energies c) ps (efermi c) in
             (bonding_contribution pts, antibonding_contribution pts))
    (channels summed_spins c).

(** Channel by channel sums of the contributions of the bonds of a group. *)
Fixpoint add_contributions (a b : list (Q * Q)) : list (Q * Q) :=
  match a, b with
  | (x1, y1) :: a', (x2, y2) :: b' => (x1 + x2, y1 + y2)%Q :: add_contributions a' b'
  | _, [] => a
  | [], _ => b
  end.

Definition member_contributions (bond_curves : gmap string BondCurve)
    (summed_spins : bool) (b : CandidateBond) : outcome (list (Q * Q)) :=
  match bond_curves !! cb_label b with
  | None => Failed (MissingDataError (MissingCurve (cb_label b)))
  | Some c => Done (bond_contributions summed_spins c)
  end.

Definition group_key : Type := nat * string.

Definition key_of (structure : Structure) (b : CandidateBond)
  : outcome group_key :=
  match sites structure !! cb_central b, sites structure !! cb_partner b with
  | Some a, Some p => Done (cb_central b, species a +:+ "-" +:+ species p)
  | None, _ => Failed (MissingDataError (MissingSite (cb_central b)))
  | _, None => Failed (MissingDataError (MissingSite (cb_partner b)))
  end.

(** Bonds with the same central site and species pair form one group, in
    the order of their first members. *)
Fixpoint insert_member (k : group_key) (b : CandidateBond)
    (gs : list (group_key * list CandidateBond))
  : list (group_key * list CandidateBond) :=
  match gs with
  | [] => [(k, [b])]
  | (k', bs) :: gs' =>
    if decide (k = k') then (k', bs ++ [b]) :: gs'
    else (k', bs) :: insert_member k b gs'
  end.

Fixpoint group_members (structure : Structure) (l : list CandidateBond)
    (gs : list (group_key * list CandidateBond))
  : outcome (list (group_key * list CandidateBond)) :=
  match l with
  | [] => Done gs
  | b :: l' =>
    k ←! key_of structure b;
    group_members structure l' (insert_member k b gs)
  end.

Definition make_group (structure : Structure)
    (bond_curves : gmap string BondCurve) (summed_spins : bool)
    (g : group_key * list CandidateBond) : outcome RelevantBondGroup :=
  let '((site, type), bs) := g in
  contribs ←! outcome_map (member_contributions bond_curves summed_spins) bs;
  let chars := map (λ ba, make_character ba.1 ba.2)
                 (foldr add_contributions [] contribs) in
  match sites structure !! site with
  | None => Failed (MissingDataError (MissingSite site))
  | Some s =>
    let icohps := map cb_icohp bs in
    Done {| central_site := site;
            group_environment := coordination_environment s;
            bond_type := type;
            members := bs;
            icohp_mean := Qmean icohps;
            icohp_min := Qlist_min icohps;
            icohp_max := Qlist_max icohps;
            icohp_sum := Qsum icohps;
            icohp_variance := Qvariance icohps;
            characters := chars |}
  end.

(** Modelled from the spec: [classify] of section 4.2 (it reads species
    and environments from the structure). *)
Definition classify (structure : Structure)
    (candidate_bonds : list CandidateBond)
    (bond_curves : gmap string BondCurve) (summed_spins : bool)
  : outcome (list RelevantBondGroup) :=
  gs ←! group_members structure candidate_bonds [];
  outcome_map (make_group structure bond_curves summed_spins) gs.
End Classifier.

(** The groups [gs] hold bonds of [cands] only, each under its own key. *)
Definition groups_from (structure : Structure) (cands : list CandidateBond)
    (gs : list (group_key * list CandidateBond)) : Prop :=
  ∀ k bs b, (k, bs) ∈ gs → b ∈ bs →
    b ∈ cands ∧ key_of structure b = Done k.

(** ** Condensed Analysis Builder (section 4.3) *)

(** Strongest first: descending magnitude of the interaction strength. *)
Definition stronger_or_equal (a b : CandidateBond) : Prop :=
  (Qabs (strength b) <= Qabs (strength a))%Q.

Global Instance stronger_or_equal_dec a b : Decision (stronger_or_equal a b).
Proof.
  unfold stronger_or_equal.
  destruct (Qlt_le_dec (Qabs (strength a)) (Qabs (strength b))) as [H|H].
  - right. intros H'. exact (Qlt_not_le _ _ H H').
  - left. exact H.
Defined.

Definition order_members (g : RelevantBondGroup) : RelevantBondGroup :=
  {| central_site := central_site g;
     group_environment := group_environment g;
     bond_type := bond_type g;
     members := merge_sort stronger_or_equal (members g);
     icohp_mean := icohp_mean g;
     icohp_min := icohp_min g;
     icohp_max := icohp_max g;
     icohp_sum := icohp_sum g;
     icohp_variance := icohp_variance g;
     characters := characters g |}.

(** Modelled from the spec: what the output holds under one site label. *)
Record SiteEntry : Type := {
  entry_index : nat;
  entry_label : string;
  entry_environment : string;
  entry_groups : list RelevantBondGroup;
}.

(** Modelled from the spec: the CondensedAnalysis. *)
Record CondensedAnalysis : Type := {
  compound : string;
  site_entries : list SiteEntry;
  madelung_mull : option Q;
  madelung_loew : option Q;
  which_bonds_flag : which_bonds;
  charges_available : bool;
  summed_spins_flag : bool;
}.

(** [<Species><1-based-index>] *)
Definition site_label (s : Site) (i : nat) : string := species s +:+ pretty (S i).

Definition site_entry (groups : list RelevantBondGroup) (i : nat) (s : Site)
  : option SiteEntry :=
  match filter (λ g, central_site g = i) groups with
  | [] => None
  | gs =>
    Some {| entry_index := i; entry_label := site_label s i;
            entry_environment := coordination_environment s;
            entry_groups := map order_members gs |}
  end.

(** The first group whose central site is not a site of the structure. *)
Definition stray_group (structure : Structure)
    (groups : list RelevantBondGroup) : option nat :=
  head (filter (λ i, length (sites structure) ≤ i) (map central_site groups)).

(** Modelled from the spec: [build] of section 4.3. The two last arguments
    are the flags the result records next to [which_bonds]. *)
Definition build (structure : Structure)
    (relevant_bond_groups : list RelevantBondGroup) (wb : which_bonds)
    (madelung_mull madelung_loew : option Q)
    (charges_available summed_spins : bool) : outcome CondensedAnalysis :=
  match stray_group structure relevant_bond_groups with
  | Some i => Failed (MissingDataError (MissingSite i))
  | None =>
    Done {| compound := formula structure;
            site_entries :=
              omap (λ ix, site_entry relevant_bond_groups ix.1 ix.2)
                (imap (λ i s, (i, s)) (sites structure));
            madelung_mull := madelung_mull;
            madelung_loew := madelung_loew;
            which_bonds_flag := wb;
            charges_available := charges_available;
            summed_spins_flag := summed_spins |}
  end.



(** ** The pipeline of section 2 *)

Record AnalysisInput : Type := {
  in_structure : Structure;
  in_charges : option ChargeData;
  in_bond_curves : gmap string BondCurve;
  in_which_bonds : which_bonds;
  in_cutoff_icohp : option Q;   (* [None]: the default applies *)
  in_summed_spins : bool;
}.


Definition run_analysis (integrate : list (Q * Q) → Q) (inp : AnalysisInput)
  : outcome CondensedAnalysis :=
  sel ←! select (in_structure inp) (site_charges <$> in_charges inp)
           (in_bond_curves inp) (in_which_bonds inp)
           (default cutoff_icohp_default (in_cutoff_icohp inp));
  groups ←! classify integrate (in_structure inp) (selected sel)
              (in_bond_curves inp) (in_summed_spins inp);
  build (in_structure inp) groups (in_which_bonds inp)
    (in_charges inp ≫= charge_madelung_mull)
    (in_charges inp ≫= charge_madelung_loew)
    (charges_found sel) (in_summed_spins inp).

End Analysis.

(** * A small rock-salt-like input

    Two sites, three strong Na-Cl bonds and a weak one, on a grid of four
    energies with the Fermi level at 0. It is an illustration, not the
    NaCl data of the test suite. *)

Module Sample.
Import Analysis.

Definition strong_curve : BondCurve :=
  {| energies := [-(2); -(1); 0; 1]%Q;
     population_up := [-(1 # 2); -(1 # 4); 1 # 10; 1 # 5]%Q;
     population_down := None;
     integral_up := [-(30 # 100); -(50 # 100); -(57 # 100); -(40 # 100)]%Q;
     integral_down := None;
     efermi := 0%Q;
     orbital_pair := None |}.

Definition weak_curve : BondCurve :=
  {| energies := [-(2); -(1); 0; 1]%Q;
     population_up := [-(1 # 100); 0; 0; 0]%Q;
     population_down := None;
     integral_up := [0; -(1 # 100); -(1 # 100); 0]%Q;
     integral_down := None;
     efermi := 0%Q;
     orbital_pair := None |}.

Definition bond_curves : gmap string BondCurve :=
  list_to_map [("1", strong_curve); ("2", strong_curve);
               ("3", strong_curve); ("4", weak_curve)].

Definition structure : Structure :=
  {| formula := "NaCl";
     sites := [ {| species := "Na"; coordination_environment := "O:6";
                   representative := 0 |};
                {| species := "Cl"; coordination_environment := "O:6";
                   representative := 1 |} ];
     bond_refs := [ {| central := 0; partner := 1; bond_label := "1" |};
                    {| central := 0; partner := 1; bond_label := "2" |};
                    {| central := 0; partner := 1; bond_label := "3" |};
                    {| central := 0; partner := 1; bond_label := "4" |} ] |}.

Definition charges : ChargeData :=
  {| site_charges := list_to_map [(0, 1%Q); (1, (-(1))%Q)];
     charge_madelung_mull := Some (-(52))%Q;
     charge_madelung_loew := Some (-(51))%Q |}.

(** A quadrature on a grid of unit spacing: the sum of the populations. *)
Definition integrate (pts : list (Q * Q)) : Q := Qsum (map snd pts).

Definition input (charges : option ChargeData) : AnalysisInput :=
  {| in_structure := structure;
     in_charges := charges;
     in_bond_curves := bond_curves;
     in_which_bonds := CationAnion;
     in_cutoff_icohp := None;
     in_summed_spins := true |}.

(** A cell with a second cation: the bond "5" joins the two cations and is
    as strong as the cation-anion bond "1". *)
Definition cation_pair_input : AnalysisInput :=
  {| in_structure :=
       {| formula := "Na2Cl";
          sites := [ {| species := "Na"; coordination_environment := "O:6";
                        representative := 0 |};
                     {| species := "Cl"; coordination_environment := "O:6";
                        representative := 1 |};
                     {| species := "Na"; coordination_environment := "O:6";
                        representative := 2 |} ];
          bond_refs := [ {| central := 0; partner := 1; bond_label := "1" |};
                         {| central := 0; partner := 2; bond_label := "5" |} ] |};
     in_charges :=
       Some {| site_charges := list_to_map [(0, 1%Q); (1, (-(1))%Q); (2, 1%Q)];
               charge_madelung_mull := None;
               charge_madelung_loew := None |};
     in_bond_curves := list_to_map [("1", strong_curve); ("5", strong_curve)];
     in_which_bonds := CationAnion;
     in_cutoff_icohp := None;
     in_summed_spins := true |}.




End Sample.

(** * lobsterpy.cli: the helpers of [run] and the [create-inputs] action *)

Module CliTools.

(** [str.split(sep)] for a separator of one character: the pieces between
    the occurrences of [c], at least one piece. *)
Fixpoint split_char (c : Ascii.ascii) (s : string) : list string :=
  match s with
  | EmptyString => [EmptyString]
  | String a s' =>
    if Ascii.eqb a c then EmptyString :: split_char c s'
    else match split_char c s' with
         | h :: t => String a h :: t
         | [] => [String a EmptyString]
         end
  end.

Fixpoint has_char (c : Ascii.ascii) (s : string) : bool :=
  match s with
  | EmptyString => false
  | String a s' => Ascii.eqb a c || has_char c s'
  end.

(** The character [.] *)
Definition dot : Ascii.ascii := Ascii.ascii_of_nat 46.

(** [_element_basis]: [cut_list[0]] and [" ".join(cut_list[1:])]. *)
Definition _element_basis (s : string) : string * string :=
  let cut_list := split_char dot s in
  (hd EmptyString cut_list, Cli.py_join " " (tl cut_list)).

(** Values of the rcParams that [run] sets. *)
Inductive rc_value : Type :=
  | RcFigsize (w h : Q)
  | RcNumber (x : Q).

(** A float computation that may divide by zero. *)
Inductive arith (A : Type) : Type :=
  | Value (a : A)
  | ZeroDivisionError.
Arguments Value {A} a.
Arguments ZeroDivisionError {A}.

Section Figsize.
(** The product and the quotient of two floats as Python computes them,
    that is, rounded: [float_mul x y] is the value of [x * y] and
    [float_div x y] the value of [x / y] for a divisor other than zero. *)
Variables float_mul float_div : Q → Q → Q.

(** [_user_figsize]. [golden] stands for [(sqrt(5) + 1) / 2]. A float
    division by [0.0] raises. *)
Definition _user_figsize (golden : Q) (width height aspect : option Q)
  : arith (gmap string rc_value) :=
  match width, height with
  | None, None => Value ∅
  | Some w, Some h => Value {[ "figure.figsize" := RcFigsize w h ]}
  | None, Some h =>
    let aspect := default golden aspect in
    Value {[ "figure.figsize" := RcFigsize (float_mul h aspect) h ]}
  | Some w, None =>
    let aspect := default golden aspect in
    if Qeq_bool aspect 0 then ZeroDivisionError
    else Value {[ "figure.figsize" := RcFigsize w (float_div w aspect) ]}
  end.

(** The truth value of an optional float: [None] and [0.0] are false. *)
Definition float_if_true (x : option Q) : option Q :=
  match x with
  | Some v => if Qeq_bool v 0 then None else Some v
  | None => None
  end.

(** [run], lines 353 to 356: the keyword arguments for [get_style_list]. *)
Definition style_kwargs (golden : Q) (width height fontsize : option Q)
  : arith (gmap string rc_value) :=
  match _user_figsize golden width height None with
  | ZeroDivisionError => ZeroDivisionError
  | Value figsize =>
    let style_kwargs := figsize ∪ ∅ in
    Value match float_if_true fontsize with
          | Some f => <[ "font.size" := RcNumber f ]> style_kwargs
          | None => style_kwargs
          end
  end.
End Figsize.

(** The two operations rounded with a relative error of at most [u]: the
    standard model of floating-point arithmetic (for doubles [u = 2^-53],
    outside overflow and underflow). *)
Definition rounds_within (u : Q) (float_mul float_div : Q → Q → Q) : Prop :=
  (∀ x y, Qabs (float_mul x y - x * y) <= u * Qabs (x * y))%Q
  ∧ (∀ x y, ¬ (y == 0)%Q →
       Qabs (float_div x y - x / y) <= u * Qabs (x / y))%Q.

(** [run], lines 361 to 366: the standard deviation of the broadening.
    [fwhm_factor] stands for [2 * sqrt(2 * log(2))]. *)
Definition select_sigma (fwhm_factor : Q) (sigma fwhm : option Q) : option Q :=
  match float_if_true sigma with
  | Some s => Some s
  | None =>
    match float_if_true fwhm with
    | Some f => Some (f / fwhm_factor)%Q
    | None => None
    end
  end.

(** ** The [create-inputs] action

    The file system maps the names of the files to their contents. The
    calls into pymatgen are parameters: [all_basis] (the basis dicts read
    from POTCAR and POSCAR), [make_lobsterin]
    ([standard_calculations_from_vasp_files]) and the two writes,
    [write_lobsterin] and [write_INCAR]: for the object, the path and the
    file system each gives the text that the file at the path holds
    afterwards, or the exception it raises, and then no file has changed. *)

Section CreateInputs.
Context {Lobsterin Content : Type}.
Local Abbreviation files := (gmap string Content) (only parsing).

Variable all_basis : files → result (list (gmap string string)).
Variable make_lobsterin : files → gmap string string → result Lobsterin.
Variable write_lobsterin : Lobsterin → string → files → result Content.
Variable write_INCAR : Lobsterin → string → files → result Content.

Record create_args : Type := {
  lobsterinout : string;
  incarout : string;
  overwrite : bool;
  userbasis : option (list (string * string));
}.

Definition dq : string := String (Ascii.ascii_of_nat 34) EmptyString.

Definition overwrite_msg : string :=
  "please use " +:+ dq +:+ "--overwrite" +:+ dq
    +:+ " if you would like to overwrite existing lobster inputs".

(** The body shared by the two branches: the two paths of basis number
    [ibasis], the test for existing files, the two writes. The result comes
    with the file system as the statement left it. *)
Definition write_inputs (args : create_args) (ibasis : nat)
    (lobsterinput : Lobsterin) (fs : files) : result unit * files :=
  let lobsterin_path := lobsterinout args +:+ "-" +:+ pretty ibasis in
  let incar_path := incarout args +:+ "-" +:+ pretty ibasis in
  if (negb (bool_decide (is_Some (fs !! lobsterin_path)))
      && negb (bool_decide (is_Some (fs !! incar_path))))
     || overwrite args
  then
    match write_lobsterin lobsterinput lobsterin_path fs with
    | Raise e => (Raise e, fs)
    | Ok lobsterin =>
      let fs1 := <[ lobsterin_path := lobsterin ]> fs in
      match write_INCAR lobsterinput incar_path fs1 with
      | Ok incar => (Ok (), <[ incar_path := incar ]> fs1)
      | Raise e => (Raise e, fs1)
      end
    end
  else (Raise (ValueError overwrite_msg), fs).

(** [for ibasis, basis_dict in enumerate(list_basis_dict)], from [ibasis]. *)
Fixpoint write_all (args : create_args) (ibasis : nat)
    (list_basis_dict : list (gmap string string)) (fs : files)
  : result unit * files :=
  match list_basis_dict with
  | [] => (Ok (), fs)
  | basis_dict :: rest =>
    match make_lobsterin fs basis_dict with
    | Raise e => (Raise e, fs)
    | Ok lobsterinput =>
      match write_inputs args ibasis lobsterinput fs with
      | (Ok _, fs') => write_all args (S ibasis) rest fs'
      | (Raise e, fs') => (Raise e, fs')
      end
    end
  end.

(** [userbasis[userbasis_single[0]] = userbasis_single[1]] in turn. *)
Definition userbasis_dict (l : list (string * string)) : gmap string string :=
  foldl (λ d eb, <[ eb.1 := eb.2 ]> d) ∅ l.

Definition create_inputs (args : create_args) (fs : files)
  : result unit * files :=
  match userbasis args with
  | None =>
    match all_basis fs with
    | Raise e => (Raise e, fs)
    | Ok list_basis_dict => write_all args 0 list_basis_dict fs
    end
  | Some l =>
    match make_lobsterin fs (userbasis_dict l) with
    | Raise e => (Raise e, fs)
    | Ok lobsterinput => write_inputs args 0 lobsterinput fs
    end
  end.
End CreateInputs.

(** [fs] still has the files of [fs0], with their contents. *)
Definition keeps_files {Content : Type} (fs0 fs : gmap string Content) : Prop :=
  ∀ p, is_Some (fs0 !! p) → fs !! p = fs0 !! p.

End CliTools.

(** * lobsterpy.plotting: [PlainCohpPlotter.get_plot]

    The matplotlib calls are recorded: the lines given to [ax.plot], the
    limits that are set, the two grid-like lines and the axis labels. What
    matplotlib does with them is not modelled; [auto_xlim] stands for the
    limits [ax.get_xlim()] reports when none were set. *)

Module PlainPlot.

(** The populations of a curve: a dict from [Spin.up] and [Spin.down] to
    arrays, either of which may be missing. *)
Record populations : Type := {
  spin_up : option (list Q);
  spin_down : option (list Q);
}.

(** An entry of [self._cohps]. [ICOHP] is what [cohp.get_icohp()] gave:
    [None] for a curve that has no integrated populations. *)
Record cohp_entry : Type := {
  energies : list Q;
  COHP : populations;
  ICOHP : option populations;
  efermi : Q;
}.

Inductive plot_exn : Type :=
  | Broaden (e : py_exn)       (* raised by [_broaden] *)
  | NoneNotIterable            (* the [TypeError] of [spin in None] *)
  | ZeroDivisionError          (* [i % ncolors] with no colors *)
  | UnboundLocalError.         (* [key] after a loop over no keys *)

(** [self._cohps[key]["COHP"]] or [self._cohps[key]["ICOHP"]]. *)
Definition stored_populations (integrated : bool) (entry : cohp_entry)
  : option populations :=
  if negb integrated then Some (COHP entry) else ICOHP entry.

Inductive presult (A : Type) : Type :=
  | Fine (a : A)
  | Throw (e : plot_exn).
Arguments Fine {A} a.
Arguments Throw {A} e.

Definition pthen {A B} (r : presult A) (k : A → presult B) : presult B :=
  match r with Fine a => k a | Throw e => Throw e end.

Definition of_result {A} (r : result A) : presult A :=
  match r with Ok a => Fine a | Raise e => Throw (Broaden e) end.

(** One call of [ax.plot]. *)
Record line : Type := {
  line_x : list Q;
  line_y : list Q;
  line_color : string;
  line_style : string;
  line_label : option string;
}.

(** What [get_plot] has set on the axes when it returns. *)
Record plot : Type := {
  lines : list line;
  xlim : Q * Q;
  ylim : option (Q * Q);   (* [None]: left to matplotlib *)
  axvline : Q;
  axhline : Q;
  xlabel : string;
  ylabel : string;
}.

Definition list_min (x : Q) (l : list Q) : Q := foldl Qmin x l.
Definition list_max (x : Q) (l : list Q) : Q := foldl Qmax x l.

Definition Qlt_bool (a b : Q) : bool := negb (Qle_bool b a).

Section GetPlot.
Variable norm_pdf : Q → Q → Q.
Variable float_ceil_div : Q → Q → Z.
Variable colors : list string.          (* the colors of the property cycle *)
Variable auto_xlim : list line → Q * Q.
(** The attributes of the plotter. *)
Variables are_coops are_cobis zero_at_efermi : bool.
Variable _cohps : list (string * cohp_entry).

Definition base_label : string :=
  if are_coops then "COOP" else if are_cobis then "COBI" else "COHP".

Definition effective_negative (plot_negative : option bool) : bool :=
  match plot_negative with
  | None => negb are_coops && negb are_cobis
  | Some b => b
  end.

Definition cohp_label (plot_negative integrated : bool) : string :=
  let l := base_label in
  let l := if integrated then "I" +:+ l +:+ " (eV)" else l in
  if plot_negative then "$-$" +:+ l else l.

Definition energy_label : string :=
  if zero_at_efermi then "$E - E_f$ (eV)" else "$E$ (eV)".

(** [colors[i % ncolors]] *)
Definition color_of (i : nat) : presult string :=
  match colors with
  | [] => Throw ZeroDivisionError
  | c :: _ => Fine (nth (i mod length colors) colors c)
  end.

Definition negate_if (plot_negative : bool) (population : list Q) : list Q :=
  if plot_negative then map Qopp population else population.

(** The body of [if spin in populations:] up to [ax.plot]. *)
Definition spin_line (plot_negative invert_axes : bool) (sigma : option Q)
    (i : nat) (key : string) (energies : list Q) (up : bool)
    (population : list Q) : presult line :=
  pthen
    (if invert_axes then
       let x := negate_if plot_negative population in
       let y := energies in
       pthen (of_result (Plotting._broaden norm_pdf float_ceil_div y x sigma
                           Plotting.cutoff_default))
         (λ x, Fine (x, y))
     else
       let x := energies in
       let y := negate_if plot_negative population in
       pthen (of_result (Plotting._broaden norm_pdf float_ceil_div x y sigma
                           Plotting.cutoff_default))
         (λ y, Fine (x, y)))
    (λ xy,
  pthen (color_of i)
    (λ color,
  Fine {| line_x := xy.1; line_y := xy.2; line_color := color;
          line_style := if up then "-" else "--";
          line_label := if up then Some key else None |})).

(** [for spin in [Spin.up, Spin.down]] for one key; the test
    [spin in populations] raises when the stored value is [None]. *)
Definition key_lines (plot_negative integrated invert_axes : bool)
    (sigma : option Q) (i : nat) (key : string) (entry : cohp_entry)
  : presult (list line) :=
  pthen (match stored_populations integrated entry with
         | Some populations => Fine populations
         | None => Throw NoneNotIterable
         end)
    (λ populations,
  pthen (match spin_up populations with
         | Some p =>
           pthen (spin_line plot_negative invert_axes sigma i key
                    (energies entry) true p) (λ l, Fine [l])
         | None => Fine []
         end)
    (λ ups,
  pthen (match spin_down populations with
         | Some p =>
           pthen (spin_line plot_negative invert_axes sigma i key
                    (energies entry) false p) (λ l, Fine [l])
         | None => Fine []
         end)
    (λ downs, Fine (ups ++ downs)))).

(** [for i, key in enumerate(keys)], from index [i]. *)
Fixpoint all_lines (plot_negative integrated invert_axes : bool)
    (sigma : option Q) (i : nat) (cohps : list (string * cohp_entry))
  : presult (list line) :=
  match cohps with
  | [] => Fine []
  | (key, entry) :: rest =>
    pthen (key_lines plot_negative integrated invert_axes sigma i key entry)
      (λ ls,
    pthen (all_lines plot_negative integrated invert_axes sigma (S i) rest)
      (λ more, Fine (ls ++ more)))
  end.

(** [allpts]: the points of all lines. *)
Definition all_points (ls : list line) : list (Q * Q) :=
  concat (map (λ l, zip (line_x l) (line_y l)) ls).

(** [[p[1] for p in allpts if xlim[0] < p[0] < xlim[1]]] *)
Definition relevant_y (xlim : Q * Q) (pts : list (Q * Q)) : list Q :=
  map snd (filter (λ p, Qlt_bool xlim.1 p.1 && Qlt_bool p.1 xlim.2) pts).

(** [self._cohps[key]["efermi"]] with the [key] the loop left behind. *)
Definition last_efermi : presult Q :=
  match last _cohps with
  | Some (_, entry) => Fine (efermi entry)
  | None => Throw UnboundLocalError
  end.

Definition get_plot (xlim ylim : option (Q * Q)) (plot_negative : option bool)
    (integrated invert_axes : bool) (sigma : option Q) : presult plot :=
  let plot_negative := effective_negative plot_negative in
  pthen (all_lines plot_negative integrated invert_axes sigma 0 _cohps)
    (λ ls,
  let xlim := match xlim with Some l => l | None => auto_xlim ls end in
  let ylim :=
    match ylim with
    | Some l => Some l
    | None =>
      match relevant_y xlim (all_points ls) with
      | [] => None
      | y :: ys => Some (list_min y ys, list_max y ys)
      end
    end in
  pthen (if zero_at_efermi then Fine 0%Q else last_efermi)
    (λ fermi,
  Fine {| lines := ls; xlim := xlim; ylim := ylim;
          axvline := if negb invert_axes then fermi else 0%Q;
          axhline := if negb invert_axes then 0%Q else fermi;
          xlabel := if invert_axes then cohp_label plot_negative integrated
                    else energy_label;
          ylabel := if invert_axes then energy_label
                    else cohp_label plot_negative integrated |})).
End GetPlot.

(** A line with its two axes exchanged. *)
Definition swap_line (l : line) : line :=
  {| line_x := line_y l; line_y := line_x l; line_color := line_color l;
     line_style := line_style l; line_label := line_label l |}.

(** A line that shows one spin channel of an entry of [cohps] as it is
    stored (negated for [plot_negative]), against the energies. *)
Definition shows_channel (cohps : list (string * cohp_entry))
    (pn integrated invert_axes : bool) (l : line) : Prop :=
  ∃ key entry populations pop (up : bool),
    (key, entry) ∈ cohps
    ∧ stored_populations integrated entry = Some populations
    ∧ (if up then spin_up else spin_down) populations = Some pop
    ∧ (if invert_axes then line_y l else line_x l) = energies entry
    ∧ (if invert_axes then line_x l else line_y l)
      = (if pn then map Qopp pop else pop).

End PlainPlot.

Module PlainPlotSample.
Import PlainPlot.

Definition entry : cohp_entry :=
  {| energies := [0; 1; 2]%Q;
     COHP := {| spin_up := Some [1; 2; 3]%Q; spin_down := None |};
     ICOHP := Some {| spin_up := Some [1; 3; 6]%Q; spin_down := None |};
     efermi := 1%Q |}.

Definition run (xlim : option (Q * Q)) : presult plot :=
  get_plot (λ _ _, 1%Q) Plotting.exact_ceil_div ["#e41a1c"] (λ _, (0, 1)%Q)
    false false true
    [("1", entry)] xlim None None false true None.

End PlainPlotSample.

(** * lobsterpy.plotting: [InteractiveCohpPlotter]

    [self._cohps] is a dict of dicts: the groups of the dropdown menu, each
    a dict from a legend label to the data of one curve. Python dicts keep
    the order of first insertion; they are lists of pairs with distinct
    keys here. *)

Module Interactive.

(** [d[k] = v]: the value of an existing key is replaced where it stands, a
    new key goes to the end. *)
Fixpoint od_set {V : Type} (k : string) (v : V) (d : list (string * V))
  : list (string * V) :=
  match d with
  | [] => [(k, v)]
  | (k', v') :: d' =>
    if decide (k = k') then (k, v) :: d' else (k', v') :: od_set k v d'
  end.

Fixpoint od_get {V : Type} (k : string) (d : list (string * V)) : option V :=
  match d with
  | [] => None
  | (k', v') :: d' => if decide (k = k') then Some v' else od_get k d'
  end.

Definition od_keys {V : Type} (d : list (string * V)) : list string := map fst d.

(** ** String helpers *)

(** The rest of [s] after the prefix [p], when [p] is a prefix of [s]. *)
Fixpoint strip_prefix (p s : string) : option string :=
  match p, s with
  | EmptyString, _ => Some s
  | String a p', String b s' =>
    if Ascii.eqb a b then strip_prefix p' s' else None
  | String _ _, EmptyString => None
  end.

(** [s.replace(old, new, 1)]: the leftmost occurrence of [old] replaced. *)
Fixpoint replace_first (old new s : string) : string :=
  match strip_prefix old s with
  | Some rest => new +:+ rest
  | None =>
    match s with
    | EmptyString => EmptyString
    | String a s' => String a (replace_first old new s')
    end
  end.

(** [sub in s] *)
Fixpoint contains (sub s : string) : bool :=
  match strip_prefix sub s with
  | Some _ => true
  | None =>
    match s with
    | EmptyString => false
    | String _ s' => contains sub s'
    end
  end.

Definition _insert_number_of_bonds_in_label
    (label character number_of_bonds : string) : string :=
  replace_first character (character +:+ " " +:+ number_of_bonds) label.

Fixpoint lstrip (P : Ascii.ascii → bool) (s : string) : string :=
  match s with
  | EmptyString => EmptyString
  | String a s' => if P a then lstrip P s' else s
  end.

Definition string_rev (s : string) : string :=
  String.string_of_list_ascii (rev (String.list_ascii_of_string s)).

(** [s.strip(chars)]: the characters of the set removed at both ends. *)
Definition strip (P : Ascii.ascii → bool) (s : string) : string :=
  string_rev (lstrip P (string_rev (lstrip P s))).

Fixpoint all_chars (P : Ascii.ascii → bool) (s : string) : bool :=
  match s with
  | EmptyString => true
  | String a s' => P a && all_chars P s'
  end.

Definition code_between (lo hi : nat) (a : Ascii.ascii) : bool :=
  (lo <=? Ascii.nat_of_ascii a) && (Ascii.nat_of_ascii a <=? hi).

(** The set ["123456789"]. *)
Definition digit_1_9 (a : Ascii.ascii) : bool := code_between 49 57 a.

(** The set of the ASCII letters. *)
Definition letter (a : Ascii.ascii) : bool :=
  code_between 97 122 a || code_between 65 90 a.

(** The ASCII white space that [s.strip()] removes. *)
Definition whitespace (a : Ascii.ascii) : bool :=
  code_between 9 13 a || code_between 28 32 a.

Definition colon : Ascii.ascii := Ascii.ascii_of_nat 58.

(** ** The data *)

(** pymatgen's [Cohp]: [energies], [efermi], [get_cohp()], [get_icohp()]. *)
Record Cohp : Type := {
  cohp_energies : list Q;
  cohp_efermi : Q;
  cohp_populations : PlainPlot.populations;
  cohp_int_populations : option PlainPlot.populations;
}.

(** pymatgen's [CompleteCohp]: for each bond label the species of its two
    sites, and the two lookups. *)
Record CompleteCohp : Type := {
  bond_species : gmap string (string * string);
  get_cohp_by_label : string → result Cohp;
  get_summed_cohp_by_label_list : list string → result Cohp;
}.

(** An entry of [analyse.set_infos_bonds]: [i[3]] (the bond labels),
    [i[4]] (the pairs of atom names) and [i[5][0]] (the index of the
    site). *)
Record bond_info : Type := {
  info_labels : list string;
  info_atoms : list (string * string);
  info_site : nat;
}.

Abbreviation cohps := (list (string * list (string * PlainPlot.cohp_entry))).

(** Statements of the plotter: they may raise and they change [_cohps]. *)
Definition S (A : Type) : Type := cohps → result A * cohps.

Definition sret {A} (a : A) : S A := λ st, (Ok a, st).
Definition sbind {A B} (m : S A) (k : A → S B) : S B :=
  λ st, match m st with
        | (Ok a, st') => k a st'
        | (Raise e, st') => (Raise e, st')
        end.
Definition slift {A} (r : result A) : S A := λ st, (r, st).

Fixpoint sfor {A} (body : A → S unit) (l : list A) : S unit :=
  match l with
  | [] => sret ()
  | x :: l' => sbind (body x) (λ _, sfor body l')
  end.

(** [self._cohps[k] = {}] *)
Definition new_group (k : string) : S unit := λ st, (Ok (), od_set k [] st).

Definition please : string := "Please select COHP label here".

Section Plotter.
Variable zero_at_efermi : bool.

(** The dict that [_update_cohps_data] stores for a curve. *)
Definition entry_of (cohp : Cohp) : PlainPlot.cohp_entry :=
  {| PlainPlot.energies :=
       if zero_at_efermi
       then map (λ e, e - cohp_efermi cohp)%Q (cohp_energies cohp)
       else cohp_energies cohp;
     PlainPlot.COHP := cohp_populations cohp;
     PlainPlot.ICOHP := cohp_int_populations cohp;
     PlainPlot.efermi := cohp_efermi cohp |}.

(** [self._cohps[label].update({key: {...}})] *)
Definition _update_cohps_data (label key : string)
    (entry : PlainPlot.cohp_entry) : S unit :=
  λ st, match od_get label st with
        | None => (Raise (KeyError label), st)
        | Some group => (Ok (), od_set label (od_set key entry group) st)
        end.

(** ** [add_cohps_by_lobster_label] *)

Definition lobster_key (atoms : string * string) (label label_addition : string)
  : string :=
  atoms.1 +:+ "-" +:+ atoms.2 +:+ ": " +:+ label +:+ label_addition.

Definition add_one_label (cc : CompleteCohp) (label_addition label : string)
  : S unit :=
  match bond_species cc !! label with
  | None => slift (Raise (KeyError label))
  | Some atoms =>
    sbind (new_group (lobster_key atoms label label_addition)) (λ _,
    sbind (slift (get_cohp_by_label cc label)) (λ cohp,
      _update_cohps_data (lobster_key atoms label label_addition) label
        (entry_of cohp)))
  end.

Definition add_cohps_by_lobster_label (cc : CompleteCohp)
    (label_list : list string) (label_addition : string) : S unit :=
  sbind (new_group please) (λ _,
    sfor (add_one_label cc label_addition) label_list).

(** A label with its two species and its curve. *)
Definition known (cc : CompleteCohp) (label : string) : Prop :=
  ∃ atoms cohp, bond_species cc !! label = Some atoms
                ∧ get_cohp_by_label cc label = Ok cohp.

(** The groups after the labels [l], all of them known: each label has set
    the group of its key to its one curve. *)
Definition after_labels (cc : CompleteCohp) (label_addition : string)
    (l : list string) (st : cohps) : cohps :=
  foldl (λ s label,
           match bond_species cc !! label, get_cohp_by_label cc label with
           | Some atoms, Ok cohp =>
             od_set (lobster_key atoms label label_addition)
               [(label, entry_of cohp)] s
           | _, _ => s
           end) st l.

(** ** [add_cohps_from_plot_data] *)

(** A value of the plot data dict: a [Cohp] or its dict form. *)
Inductive plot_datum (D : Type) : Type :=
  | IsCohp (c : Cohp)
  | IsDict (d : D).
Arguments IsCohp {D} c.
Arguments IsDict {D} d.

Definition convert_msg : string :=
  "The data provided could not be converted to cohp object.Please recheck the input data".

(** The conversion loop; [from_dict] is [Cohp.from_dict], whose
    [TypeError] becomes a [ValueError]. *)
Definition to_cohp {D : Type} (from_dict : D → result Cohp)
    (x : plot_datum D) : result Cohp :=
  match x with
  | IsCohp c => Ok c
  | IsDict d =>
    match from_dict d with
    | Raise TypeError => Raise (ValueError convert_msg)
    | r => r
    end
  end.

(** The body of the loop over [self._cohps.items()] for one bond. *)
Definition plot_data_step (label_addition bond_key : string)
    (entry : PlainPlot.cohp_entry) (dropdown_label : string) : S unit :=
  if decide (dropdown_label = bond_key +:+ label_addition) then
    _update_cohps_data (bond_key +:+ label_addition) bond_key entry
  else if decide (dropdown_label ≠ "All" +:+ label_addition) then
    _update_cohps_data ("All" +:+ label_addition) bond_key entry
  else sret ().

Definition plot_data_bond (label_addition : string)
    (kc : string * Cohp) : S unit :=
  λ st, sfor (plot_data_step label_addition kc.1 (entry_of kc.2))
          (od_keys st) st.

Definition add_cohps_from_plot_data {D : Type} (from_dict : D → result Cohp)
    (plot_data_dict : list (string * plot_datum D)) (label_addition : string)
  : S unit :=
  sbind (slift (Cli.result_map
                  (λ kx, result_bind (to_cohp from_dict kx.2)
                           (λ c, Ok (kx.1, c)))
                  plot_data_dict)) (λ plot_data,
  sbind (new_group please) (λ _,
  sbind (new_group ("All" +:+ label_addition)) (λ _,
  sbind (sfor (λ kc, new_group (kc.1 +:+ label_addition)) plot_data) (λ _,
    sfor (plot_data_bond label_addition) plot_data)))).
(** The curves of the plot data as [_update_cohps_data] stores them. *)
Definition entries_of (plot_data : list (string * Cohp))
  : list (string * PlainPlot.cohp_entry) :=
  map (λ kc, (kc.1, entry_of kc.2)) plot_data.
End Plotter.
Arguments IsCohp {D} c.
Arguments IsDict {D} d.

(** ** [add_all_relevant_cohps] *)

Definition index_error : py_exn := IndexError "list index out of range".

(** [enumerate(l)] *)
Definition enumerate {A : Type} (l : list A) : list (nat * A) :=
  zip (seq 0 (length l)) l.

(** The name of a bond of site [site]: the species of the site, its number,
    and the two atom names without the digits 1 to 9 at their ends. *)
Definition bond_name (species : string) (site : nat) (val : string * string)
  : string :=
  species +:+ Cli.py_str (Z.of_nat site + 1) +:+ ": "
  +:+ strip digit_1_9 val.1 +:+ "-" +:+ strip digit_1_9 val.2.

(** [bonds[inx]] and [labels[inx]] for one entry of
    [analyse.set_infos_bonds], as a list of pairs (bond name, label);
    [sites] are the species strings of [analyse.structure.sites]. *)
Definition named_bonds (sites : list string) (i : bond_info)
  : result (list (string * string)) :=
  Cli.result_map
    (λ iv : nat * (string * string),
       match sites !! info_site i with
       | None => Raise index_error
       | Some species =>
         match info_labels i !! iv.1 with
         | None => Raise index_error
         | Some label => Ok (bond_name species (info_site i) iv.2, label)
         end
       end)
    (enumerate (info_atoms i)).

(** [str(len(labels)) + " x"] *)
Definition count_of (labels : list string) : string :=
  Cli.py_str (Z.of_nat (length labels)) +:+ " x".

(** [label_with_count + label_addition] *)
Definition group_label (label_addition : string) (bl : string * list string)
  : string :=
  _insert_number_of_bonds_in_label bl.1 ":" (count_of bl.2) +:+ label_addition.

(** The key of a curve in the group [All] of the label resolved plot:
    [bond_key.split(":")[0].strip(alpha) + "_" +
     bond_key.split(":")[1].strip() + ": " + label] *)
Definition new_label (bond_key label : string) : result string :=
  match CliTools.split_char colon bond_key with
  | a :: b :: _ =>
    Ok (strip letter a +:+ "_" +:+ strip whitespace b +:+ ": " +:+ label)
  | _ => Raise index_error
  end.

Section Relevant.
Variable zero_at_efermi : bool.

(** The order in which Python iterates over [set(atom_pairs)]; it follows
    the hashes of the strings. *)
Variable set_order : list string → list string.

(** The dict [plot_data]: for every bond name of every entry the labels of
    the bonds of the entry with this name. *)
Definition plot_data_of (named : list (list (string * string)))
  : list (string * list string) :=
  foldl (λ plot_data pairs,
           foldl (λ plot_data item,
                    od_set item
                      (map snd (filter (λ p : string * string, p.1 = item) pairs))
                      plot_data)
             plot_data (set_order (map fst pairs)))
    [] named.

Variable complete_cohp : CompleteCohp.
Variable label_addition : string.

(** [for label in labels: cohp = ...; key = ...; self._update_cohps_data(...)] *)
Definition add_labels (outer_key : string) (key_of : string → result string)
    (labels : list string) : S unit :=
  sfor (λ label,
          sbind (slift (get_cohp_by_label complete_cohp label)) (λ cohp,
          sbind (slift (key_of label)) (λ key,
            _update_cohps_data outer_key key (entry_of zero_at_efermi cohp))))
    labels.

(** The body of the loop over [self._cohps.items()], [label_resolved] on. *)
Definition resolved_step (bl : string * list string) (dropdown_label : string)
  : S unit :=
  if decide (dropdown_label = group_label label_addition bl) then
    add_labels (group_label label_addition bl) Ok bl.2
  else if decide (dropdown_label ≠ "All" +:+ label_addition) then
    add_labels ("All" +:+ label_addition) (new_label bl.1) bl.2
  else sret ().

(** The body of the loop over [self._cohps.items()], [label_resolved] off. *)
Definition summed_step (bl : string * list string) (dropdown_label : string)
  : S unit :=
  if decide (dropdown_label = group_label label_addition bl) then
    sbind (slift (get_summed_cohp_by_label_list complete_cohp bl.2)) (λ cohp,
      _update_cohps_data (group_label label_addition bl) dropdown_label
        (entry_of zero_at_efermi cohp))
  else if bool_decide (dropdown_label ≠ "All" +:+ label_addition)
          && negb (contains "Please" dropdown_label) then
    sbind (slift (get_summed_cohp_by_label_list complete_cohp bl.2)) (λ cohp,
      _update_cohps_data ("All" +:+ label_addition) dropdown_label
        (entry_of zero_at_efermi cohp))
  else sret ().

(** The groups and the curves for a given [plot_data]. *)
Definition add_plot_data (label_resolved : bool)
    (plot_data : list (string * list string)) : S unit :=
  sbind (new_group please) (λ _,
  sbind (new_group ("All" +:+ label_addition)) (λ _,
  sbind (sfor (λ bl, new_group (group_label label_addition bl)) plot_data) (λ _,
    sfor (λ bl st,
            sfor ((if label_resolved then resolved_step else summed_step) bl)
              (od_keys st) st)
      plot_data))).

Definition add_all_relevant_cohps (sites : list string)
    (set_infos_bonds : list bond_info) (label_resolved : bool) : S unit :=
  sbind (slift (Cli.result_map (named_bonds sites) set_infos_bonds)) (λ named,
    add_plot_data label_resolved (plot_data_of named)).

(** The assignments that [add_labels] makes, for the labels whose curve
    and key exist. *)
Definition label_writes (key_of : string → result string)
    (labels : list string) : list (string * PlainPlot.cohp_entry) :=
  omap (λ label,
          match key_of label, get_cohp_by_label complete_cohp label with
          | Ok key, Ok cohp => Some (key, entry_of zero_at_efermi cohp)
          | _, _ => None
          end) labels.

(** The assignments of the label resolved plot in the group [All], in the
    order of the plot data. *)
Definition resolved_writes (plot_data : list (string * list string))
  : list (string * PlainPlot.cohp_entry) :=
  flat_map (λ bl : string * list string, label_writes (new_label bl.1) bl.2)
    plot_data.
End Relevant.

(** [d] after the assignments [d[k] = v] for the pairs of [writes]. *)
Definition od_write {V : Type} (writes : list (string * V))
    (d : list (string * V)) : list (string * V) :=
  foldl (λ d w, od_set w.1 w.2 d) d writes.

(** The value of the last of [writes] with the key [k]. *)
Definition last_write {V : Type} (k : string) (writes : list (string * V))
  : option V :=
  snd <$> last (filter (λ w : string * V, w.1 = k) writes).

(** The dropdown labels under which the plot without label resolution
    writes into the group [All]. *)
Definition shown (label_addition dropdown_label : string) : bool :=
  bool_decide (dropdown_label ≠ "All" +:+ label_addition)
  && negb (contains "Please" dropdown_label).

(** ** The states between two rounds of the loops over the bonds *)

Section Between.
Variable zero_at_efermi : bool.
Variable label_addition : string.

(** [add_cohps_from_plot_data]: the bonds of [done_] are in [All] and in
    their own groups, the groups of the bonds of [todo] are empty. *)
Definition plot_data_between (done_ todo : list (string * Cohp))
    (st : cohps) : Prop :=
  od_get please st = Some []
  ∧ od_get ("All" +:+ label_addition) st
    = Some (entries_of zero_at_efermi done_)
  ∧ (∀ k c, (k, c) ∈ done_ →
       od_get (k +:+ label_addition) st
       = Some [(k, entry_of zero_at_efermi c)])
  ∧ (∀ k c, (k, c) ∈ todo → od_get (k +:+ label_addition) st = Some []).

(** [add_all_relevant_cohps] without label resolution, [summed] giving the
    summed curve of a list of labels: the group [All] holds under a
    dropdown label the curve of the last bond of [done_] with another
    group label. *)
Definition summed_between (summed : list string → Cohp) (keys : list string)
    (done_ todo : list (string * list string)) (st : cohps) : Prop :=
  od_keys st = keys
  ∧ (∃ gall, od_get ("All" +:+ label_addition) st = Some gall
       ∧ ∀ x, od_get x gall
              = if bool_decide (x ∈ keys) && shown label_addition x
                then (λ bl : string * list string,
                        entry_of zero_at_efermi (summed bl.2))
                       <$> last (filter (λ bl, group_label label_addition bl ≠ x)
                                   done_)
                else None)
  ∧ (∀ bl, bl ∈ done_ →
       od_get (group_label label_addition bl) st
       = Some [(group_label label_addition bl,
                entry_of zero_at_efermi (summed bl.2))])
  ∧ (∀ bl, bl ∈ todo → od_get (group_label label_addition bl) st = Some []).

(** [add_all_relevant_cohps] with label resolution: the group [All] holds
    under a key the curve of its last assignment. *)
Definition resolved_between (complete_cohp : CompleteCohp)
    (keys : list string) (done_ todo : list (string * list string))
    (st : cohps) : Prop :=
  od_keys st = keys
  ∧ (∃ gall, od_get ("All" +:+ label_addition) st = Some gall
       ∧ ∀ x, od_get x gall
              = last_write x
                  (resolved_writes zero_at_efermi complete_cohp done_))
  ∧ (∀ bl, bl ∈ done_ →
       od_get (group_label label_addition bl) st
       = Some (od_write (label_writes zero_at_efermi complete_cohp Ok bl.2) []))
  ∧ (∀ bl, bl ∈ todo → od_get (group_label label_addition bl) st = Some []).
End Between.

(** ** [InteractiveCohpPlotter.get_plot] *)

Definition palette : list string :=
  ["#e41a1c"; "#377eb8"; "#4daf4a"; "#984ea3"; "#ff7f00"; "#ffff33";
   "#a65628"; "#f781bf"; "#999999"].

(** [next(pal_iter)] after [n] earlier calls, [pal_iter = cycle(palette)]. *)
Definition next_color (n : nat) : string :=
  nth (n mod length palette) palette "".

(** A [go.Scatter]: its data, its name, which of the two style dicts of the
    layout module it has got, and the color of its line. *)
Record trace : Type := {
  trace_x : list Q;
  trace_y : list Q;
  trace_name : string;
  trace_spin_up : bool;
  trace_color : string;
}.

(** An axis of the layout: its title, the visibility of the range slider (an
    x axis only) and the range set at the end. *)
Record axis : Type := {
  axis_title : string;
  axis_rangeslider : option bool;
  axis_range : option (Q * Q);
}.

(** The figure: [fig.data], the buttons of the dropdown menu with their
    label and their list [visible], and the two axes. *)
Record figure : Type := {
  fig_data : list trace;
  fig_buttons : list (string * list bool);
  fig_xaxis : axis;
  fig_yaxis : axis;
}.

Section GetPlot.
Variable norm_pdf : Q → Q → Q.
Variable float_ceil_div : Q → Q → Z.
Variables are_coops are_cobis zero_at_efermi : bool.

Definition base_label : string :=
  if are_coops then "COOP" else if are_cobis then "COBI" else "COHP".

Definition effective_negative (plot_negative : option bool) : bool :=
  match plot_negative with
  | None => negb are_coops && negb are_cobis
  | Some b => b
  end.

Definition cohp_label (plot_negative integrated : bool) : string :=
  let l := base_label in
  let l := if integrated then "I" +:+ l +:+ " (eV)" else l in
  if plot_negative then "−" +:+ l else l.

Definition energy_label : string :=
  if zero_at_efermi then "$E - E_f$ (eV)" else "$E$ (eV)".

Section Traces.
Variables plot_negative integrated invert_axes : bool.
Variable sigma : option Q.

(** The body of the loop over the two spins, for a spin that may be
    missing in the populations. *)
Definition spin_trace (label band_color : string) (energies : list Q)
    (up : bool) (population : option (list Q)) : result (list trace) :=
  match population with
  | None => Ok []
  | Some p =>
    let population := if plot_negative then map Qopp p else p in
    result_bind
      (Plotting._broaden norm_pdf float_ceil_div energies population sigma
         Plotting.cutoff_default)
      (λ b, Ok [ {| trace_x := if invert_axes then b else energies;
                    trace_y := if invert_axes then energies else b;
                    trace_name := if up then label else "";
                    trace_spin_up := up;
                    trace_color := band_color |} ])
  end.

(** The traces of one curve; [n] calls of [next(pal_iter)] were made
    before. The test [spin in population_key] raises [TypeError] when the
    stored value is [None]. *)
Definition curve_traces (n : nat) (lv : string * PlainPlot.cohp_entry)
  : result (list trace) :=
  let band_color := next_color n in
  match PlainPlot.stored_populations integrated lv.2 with
  | None => Raise TypeError
  | Some population_key =>
    result_bind
      (spin_trace lv.1 band_color (PlainPlot.energies lv.2) true
         (PlainPlot.spin_up population_key)) (λ up,
    result_bind
      (spin_trace lv.1 band_color (PlainPlot.energies lv.2) false
         (PlainPlot.spin_down population_key)) (λ down,
      Ok (up ++ down)))
  end.

(** The loop over the curves of a group: the traces and the number of calls
    of [next(pal_iter)] after it. *)
Fixpoint group_traces (n : nat) (v : list (string * PlainPlot.cohp_entry))
  : result (list trace * nat) :=
  match v with
  | [] => Ok ([], n)
  | lv :: v' =>
    result_bind (curve_traces n lv) (λ ts,
    result_bind (group_traces (n + 1) v') (λ r, Ok (ts ++ r.1, r.2)))
  end.

(** The dict [traces]. *)
Fixpoint all_traces (n : nat) (_cohps : cohps)
  : result (list (string * list trace)) :=
  match _cohps with
  | [] => Ok []
  | kv :: rest =>
    result_bind (group_traces n kv.2) (λ r,
    result_bind (all_traces r.2 rest) (λ ts, Ok ((kv.1, r.1) :: ts)))
  end.
End Traces.

(** The list [visible] of the button of [selected_group]. *)
Definition visible (traces : list (string * list trace))
    (selected_group : string) : list bool :=
  flat_map (λ gv : string * list trace,
              map (λ _, bool_decide (selected_group = gv.1)) gv.2) traces.

Definition buttons (traces : list (string * list trace))
  : list (string * list bool) :=
  map (λ selected_group, (selected_group, visible traces selected_group))
    (map fst traces).

Definition get_plot (_cohps : cohps) (xlim : option (Q * Q))
    (rangeslider : bool) (ylim : option (Q * Q))
    (plot_negative : option bool) (integrated invert_axes : bool)
    (sigma : option Q) : result figure :=
  let plot_negative := effective_negative plot_negative in
  let cohp_label := cohp_label plot_negative integrated in
  result_bind (all_traces plot_negative integrated invert_axes sigma 0 _cohps)
    (λ traces,
  let energy_axis :=
    {| axis_title := energy_label;
       axis_rangeslider := if invert_axes then None else Some rangeslider;
       axis_range := if invert_axes then ylim else xlim |} in
  let cohp_axis :=
    {| axis_title := cohp_label;
       axis_rangeslider := if invert_axes then Some rangeslider else None;
       axis_range := if invert_axes then xlim else ylim |} in
  Ok {| fig_data := flat_map snd traces;
        fig_buttons := buttons traces;
        fig_xaxis := if invert_axes then cohp_axis else energy_axis;
        fig_yaxis := if invert_axes then energy_axis else cohp_axis |}).

(** The curves of all groups in the order of the loops, each with the
    number of the curves before it. *)
Definition numbered_curves (_cohps : cohps)
  : list (nat * (string * PlainPlot.cohp_entry)) :=
  enumerate (flat_map snd _cohps).

(** The number of the spins of a curve that are plotted. *)
Definition channels (integrated : bool) (e : PlainPlot.cohp_entry) : nat :=
  match PlainPlot.stored_populations integrated e with
  | None => 0
  | Some population_key =>
    (match PlainPlot.spin_up population_key with Some _ => 1 | None => 0 end)
    + (match PlainPlot.spin_down population_key with Some _ => 1 | None => 0 end)
  end.
End GetPlot.

(** The trace [t] is one spin of the curve [lv], unchanged except for the
    sign, against the energies of the curve. *)
Definition shows_channel (pn integrated invert_axes : bool)
    (lv : string * PlainPlot.cohp_entry) (t : trace) : Prop :=
  ∃ population_key pop (up : bool),
    PlainPlot.stored_populations integrated lv.2 = Some population_key
    ∧ (if up then PlainPlot.spin_up else PlainPlot.spin_down) population_key
      = Some pop
    ∧ (if invert_axes then trace_y t else trace_x t) = PlainPlot.energies lv.2
    ∧ (if invert_axes then trace_x t else trace_y t)
      = (if pn then map Qopp pop else pop)
    ∧ trace_name t = (if up then lv.1 else "")
    ∧ trace_spin_up t = up.

End Interactive.

Module InteractiveSample.
Import Interactive.

Definition entry (fermi : Q) (both : bool) : PlainPlot.cohp_entry :=
  {| PlainPlot.energies := [0; 1; 2]%Q;
     PlainPlot.COHP :=
       {| PlainPlot.spin_up := Some [1; 2; 3]%Q;
          PlainPlot.spin_down := if both then Some [3; 2; 1]%Q else None |};
     PlainPlot.ICOHP :=
       Some {| PlainPlot.spin_up := Some [1; 3; 6]%Q;
               PlainPlot.spin_down := None |};
     PlainPlot.efermi := fermi |}.

Definition groups : cohps :=
  [(please, []);
   ("All", [("1", entry 1 true); ("2", entry 2 false)]);
   ("Na1: 1 x Na-Cl", [("1", entry 1 true)])].

Definition run (sigma : option Q) : result figure :=
  get_plot (λ _ _, 1%Q) Plotting.exact_ceil_div false false true groups None false None None false
    true sigma.

End InteractiveSample.

(** * Facts *)

(** ** Rational sums *)

Lemma Qsum_app (l k : list Q) : (Qsum (l ++ k) == Qsum l + Qsum k)%Q.
Proof.
  induction l as [|x l IH]; simpl.
  - lra.
  - rewrite IH. lra.
Qed.



(** ** [get_style_list] *)

Section StyleFacts.
Import Plotting.
Context {V : Type}.
Variable base_style : string.
Implicit Types (h : gmap nat (list (@style V))) (l : list (@style V)).

Lemma alloc_spec h l :
  ∃ r, alloc l h = Some (r, <[r := l]> h) ∧ r ∉ dom h.
Proof.
  exists (fresh (dom h)). split; [done|]. apply is_fresh.
Qed.

Lemma list_add_spec h a b x y :
  h !! a = Some x → h !! b = Some y →
  ∃ r, list_add a b h = Some (r, <[r := x ++ y]> h) ∧ r ∉ dom h.
Proof.
  intros Ha Hb. unfold list_add, bind, read.
  rewrite Ha. simpl. rewrite Hb. apply alloc_spec.
Qed.

Lemma lookup_insert_fresh h r l r' :
  r ∉ dom h → r' ∈ dom h → <[r := l]> h !! r' = h !! r'.
Proof.
  intros Hr Hr'.
  rewrite lookup_insert_ne; [done|]. intros ->. done.
Qed.

Lemma get_style_list_run h no_base_style styles kwargs ss :
  styles_value h styles = Some ss →
  ∃ r h', get_style_list base_style no_base_style styles kwargs h = Some (r, h')
    ∧ h' !! r = Some (base_part base_style no_base_style ++ ss ++ [StyleDict kwargs])
    ∧ (r ∉ dom h)
    ∧ (∀ r', r' ∈ dom h → h' !! r' = h !! r').
Proof.
  intros Hss. unfold get_style_list.
  set (base := base_part base_style no_base_style).
  destruct (alloc_spec h base) as (r1 & E1 & F1).
  assert (Hbase : (if no_base_style then alloc [] else alloc [StyleName base_style]) h
                  = Some (r1, <[r1 := base]> h)).
  { subst base. unfold base_part in E1. by destruct no_base_style. }
  unfold bind at 1. rewrite Hbase. clear Hbase E1.
  set (h1 := <[r1 := base]> h).
  assert (H1 : h1 !! r1 = Some base) by (subst h1; by rewrite lookup_insert_eq).
  assert (K1 : ∀ r', r' ∈ dom h → h1 !! r' = h !! r').
  { intros r' Hr'. subst h1. by apply lookup_insert_fresh. }
  (* the styles argument *)
  assert (∃ r2 h2, (match styles with None => alloc [] | Some s => ret s end) h1
                   = Some (r2, h2)
            ∧ h2 !! r1 = Some base ∧ h2 !! r2 = Some ss
            ∧ (∀ r', r' ∈ dom h → h2 !! r' = h !! r')
            ∧ dom h ⊆ dom h2) as (r2 & h2 & E2 & H2a & H2b & K2 & D2).
  { destruct styles as [s|]; simpl in Hss.
    - exists s, h1. split; [done|]. split; [done|].
      assert (s ∈ dom h) as Hs by (eapply elem_of_dom_2; eauto).
      split; [by rewrite K1|]. split; [done|].
      subst h1. rewrite dom_insert_L. set_solver.
    - injection Hss as <-.
      destruct (alloc_spec h1 []) as (r2 & E2 & F2).
      exists r2, (<[r2 := []]> h1). split; [done|].
      assert (r1 ∈ dom h1) as Hr1 by (eapply elem_of_dom_2; eauto).
      split; [by rewrite lookup_insert_fresh|].
      split; [by rewrite lookup_insert_eq|].
      assert (dom h ⊆ dom h1) as D1.
      { subst h1. rewrite dom_insert_L. apply union_subseteq_r. }
      split.
      + intros r' Hr'. rewrite lookup_insert_fresh; [by apply K1|done|by apply D1].
      + rewrite dom_insert_L. etrans; [exact D1|apply union_subseteq_r]. }
  unfold bind at 1. rewrite E2. clear E2.
  (* base + styles *)
  destruct (list_add_spec h2 r1 r2 base ss H2a H2b) as (r3 & E3 & F3).
  unfold bind at 1. rewrite E3. clear E3.
  set (h3 := <[r3 := base ++ ss]> h2).
  assert (H3 : h3 !! r3 = Some (base ++ ss)) by (subst h3; by rewrite lookup_insert_eq).
  (* [kwargs] *)
  destruct (alloc_spec h3 [StyleDict kwargs]) as (r4 & E4 & F4).
  unfold bind at 1. rewrite E4. clear E4.
  set (h4 := <[r4 := [StyleDict kwargs]]> h3).
  assert (H4 : h4 !! r4 = Some [StyleDict kwargs]) by (subst h4; by rewrite lookup_insert_eq).
  assert (H4' : h4 !! r3 = Some (base ++ ss)).
  { subst h4. rewrite lookup_insert_fresh; [done|done|]. eapply elem_of_dom_2; eauto. }
  destruct (list_add_spec h4 r3 r4 _ _ H4' H4) as (r5 & E5 & F5).
  exists r5, (<[r5 := (base ++ ss) ++ [StyleDict kwargs]]> h4).
  split; [done|].
  assert (D3 : dom h ⊆ dom h3).
  { subst h3. rewrite dom_insert_L. set_solver. }
  assert (D4 : dom h ⊆ dom h4).
  { subst h4. rewrite dom_insert_L. set_solver. }
  split; [|split].
  - rewrite lookup_insert_eq. by rewrite <- app_assoc.
  - set_solver.
  - intros r' Hr'.
    rewrite lookup_insert_fresh; [|done|set_solver].
    subst h4. rewrite lookup_insert_fresh; [|done|set_solver].
    subst h3. rewrite lookup_insert_fresh; [|done|set_solver].
    by apply K2.
Qed.
End StyleFacts.

(** C10: [get_style_list] returns a new list holding [base_style] (left out
    exactly when [no_base_style] is true), then the caller's styles (none when
    [styles] is [None]), then the dict of the collected keyword arguments as
    its last element; every list that existed before the call, the caller's
    [styles] list among them, still has its contents. *)
Theorem get_style_list_concat {V : Type} (base_style : string)
    (h : gmap nat (list (@Plotting.style V))) (no_base_style : bool)
    (styles : option nat) (kwargs : gmap string V)
    (ss : list (@Plotting.style V)) :
  Plotting.styles_value h styles = Some ss →
  let out := (if no_base_style then [] else [Plotting.StyleName base_style])
               ++ ss ++ [Plotting.StyleDict kwargs] in
  ∃ r h',
    Plotting.get_style_list base_style no_base_style styles kwargs h = Some (r, h')
    ∧ h' !! r = Some out
    ∧ last out = Some (Plotting.StyleDict kwargs)
    ∧ (∀ r', r' ∈ dom h → h' !! r' = h !! r')
    ∧ (∀ s, styles = Some s → h' !! s = Some ss).
Proof.
  intros Hss out.
  destruct (get_style_list_run base_style h no_base_style styles kwargs ss Hss)
    as (r & h' & E & Hr & Hfresh & Hkeep).
  exists r, h'. split; [exact E|]. split; [exact Hr|].
  split.
  - subst out. rewrite app_assoc. apply last_snoc.
  - split; [exact Hkeep|].
    intros s ->. simpl in Hss. rewrite Hkeep; [exact Hss|].
    eapply elem_of_dom_2; eauto.
Qed.

Lemma get_style_list_concat_witness :
  let h : gmap nat (list (@Plotting.style nat)) :=
    {[ 0 := [Plotting.StyleName "ggplot"] ]} in
  Plotting.styles_value h (Some 0) = Some [Plotting.StyleName "ggplot"]
  ∧ ∃ r h',
      Plotting.get_style_list "lobsterpy_base.mplstyle" false (Some 0)
        {[ "font.size" := 12 ]} h = Some (r, h')
      ∧ h' !! r = Some [Plotting.StyleName "lobsterpy_base.mplstyle";
                        Plotting.StyleName "ggplot";
                        Plotting.StyleDict {[ "font.size" := 12 ]}]
      ∧ h' !! 0 = Some [Plotting.StyleName "ggplot"].
Proof.
  intros h.
  assert (Hss : Plotting.styles_value h (Some 0)
                = Some [Plotting.StyleName "ggplot"]) by reflexivity.
  split; [exact Hss|].
  destruct (get_style_list_concat "lobsterpy_base.mplstyle" h false (Some 0)
              {[ "font.size" := 12 ]} _ Hss) as (r & h' & E & Hr & _ & _ & Hs).
  exists r, h'. split; [exact E|]. split; [exact Hr|].
  apply Hs. reflexivity.
Defined.

(** ** [_broaden] *)

(** C9: with [sigma=None] the broadening returns the population it was
    given, whatever the energy grid: the grid is not looked at, so a grid
    that the regularity test would refuse is accepted. *)
Theorem broaden_sigma_none (norm_pdf : Q → Q → Q) (float_ceil_div : Q → Q → Z)
    (energies population : list Q) (cutoff : Q) :
  Plotting._broaden norm_pdf float_ceil_div energies population None cutoff
  = Ok population
  ∧ ∀ norm_pdf' float_ceil_div' energies' cutoff',
      Plotting._broaden norm_pdf' float_ceil_div' energies' population None
        cutoff'
      = Plotting._broaden norm_pdf float_ceil_div energies population None
          cutoff.
Proof. split; reflexivity. Qed.

Section BroadenFacts.
Import Plotting.
Local Open Scope Q_scope.







Lemma mean_defined (l : list Q) (m : Q) : mean l = Some m → l ≠ [].
Proof. by destruct l. Qed.

End BroadenFacts.




(** The mesh of the kernel is the positive half and the mirror image of its
    entries from index 2 on: the mirror of the entry at index 1 is not in
    it. *)
Lemma kernel_mesh_four :
  Plotting.kernel_mesh [0; 1; 2; 3]%Q = [- (3); - (2); 0; 1; 2; 3]%Q.
Proof. reflexivity. Qed.

(** ** The [plot] action *)

Section RunFacts.
Import Cli.
Context {Cohp Figure : Type}.
Variable py_int : string → result Z.
Variable get_plot : list (string * Cohp) → result Figure.
Implicit Types (cc : @CompleteCohp Cohp) (cp : list (string * Cohp)).

(** The membership test of the labels never touches the plotter. *)
Lemma check_label_plotter cc label cp :
  (check_label py_int cc label cp).2 = cp.
Proof.
  unfold check_label. case_bool_decide; [done|].
  unfold pbind, lift, raise, lift.
  by destruct (result_map py_int (bonds_keys cc)).
Qed.

Lemma check_label_absent cc label cp :
  py_str label ∉ bonds_keys cc →
  check_label py_int cc label cp
  = (match result_map py_int (bonds_keys cc) with
     | Ok allowed => Raise (IndexError (label_error_msg label allowed))
     | Raise e => Raise e
     end, cp).
Proof.
  intros Habs. unfold check_label. rewrite bool_decide_eq_false_2 by done.
  unfold pbind, lift, raise, lift.
  by destruct (result_map py_int (bonds_keys cc)).
Qed.

Lemma check_label_present cc label cp :
  py_str label ∈ bonds_keys cc →
  check_label py_int cc label cp = (Ok (), cp).
Proof.
  intros Hin. unfold check_label. by rewrite bool_decide_eq_true_2.
Qed.

(** The loop over the requested labels stops at the first one that is no
    key, with the plotter as it was. *)
Lemma check_labels_absent cc (l : list Z) cp :
  (∃ label, label ∈ l ∧ py_str label ∉ bonds_keys cc) →
  ∃ label, label ∈ l ∧ (py_str label ∉ bonds_keys cc)
    ∧ for_each (check_label py_int cc) l cp
      = (match result_map py_int (bonds_keys cc) with
         | Ok allowed => Raise (IndexError (label_error_msg label allowed))
         | Raise e => Raise e
         end, cp).
Proof.
  induction l as [|x l IH]; intros (label & Hin & Habs).
  - by apply elem_of_nil in Hin.
  - destruct (decide (py_str x ∈ bonds_keys cc)) as [Hx|Hx].
    + assert (label ∈ l) as Hl.
      { apply elem_of_cons in Hin as [->|]; [done|done]. }
      destruct IH as (label' & Hin' & Habs' & E); [eauto|].
      exists label'. split; [apply elem_of_cons; by right|]. split; [done|].
      simpl. unfold pbind at 1. rewrite check_label_present by done.
      exact E.
    + exists x. split; [apply elem_of_cons; by left|]. split; [done|].
      simpl. unfold pbind at 1. rewrite check_label_absent by done.
      by destruct (result_map py_int (bonds_keys cc)).
Qed.
End RunFacts.

(** C5: when a requested bond number is no key of the curve store, the
    [plot] action raises before the plotter has received any curve and
    before a figure is made. Without [--summed] the action itself raises, an
    [IndexError] naming the first such label as soon as the keys of the store
    read as integers; with [--summed] the action hands the labels to
    [get_summed_cohp_by_label_list], whose exception (assumed here: the
    lookup of a missing label raises) ends the run in the same way. *)
Theorem run_plot_absent_label {Cohp Figure : Type}
    (py_int : string → result Z)
    (get_plot : list (string * Cohp) → result Figure)
    (cc : @Cli.CompleteCohp Cohp) (args : Cli.plot_args) :
  Cli.absent_label cc args →
  (Cli.summed args = true →
   is_raise (Cli.get_summed_cohp_by_label_list cc
               (map Cli.py_str (Cli.bond_numbers args)))) →
  ∃ e, Cli.run_plot py_int get_plot cc args = (Raise e, [])
    ∧ (Cli.summed args = false →
       ∀ allowed, Cli.result_map py_int (Cli.bonds_keys cc) = Ok allowed →
       ∃ label, label ∈ Cli.bond_numbers args
         ∧ (Cli.py_str label ∉ Cli.bonds_keys cc)
         ∧ e = IndexError (Cli.label_error_msg label allowed)).
Proof.
  intros Habs Hsummed. unfold Cli.run_plot, Cli.fill_plotter.
  destruct (Cli.summed args) eqn:Es; cbn [negb].
  - specialize (Hsummed eq_refl).
    destruct (Cli.get_summed_cohp_by_label_list cc _) as [c|e] eqn:E; [done|].
    exists e. split; [|done].
    reflexivity.
  - destruct (check_labels_absent py_int cc (Cli.bond_numbers args) [] Habs)
      as (label & Hin & Hno & E).
    destruct (Cli.result_map py_int (Cli.bonds_keys cc)) as [allowed|e] eqn:Ek.
    + exists (IndexError (Cli.label_error_msg label allowed)). split.
      * unfold Cli.pbind. by rewrite E.
      * intros _ allowed' [= <-]. eauto.
    + exists e. split.
      * unfold Cli.pbind. by rewrite E.
      * intros _ allowed' [=].
Qed.

(** ** The bond selector *)

Import Analysis.

Section SelectFacts.
Local Open Scope Q_scope.

Lemma Qmax_cases (x y : Q) : Qmax x y = x ∨ Qmax x y = y.
Proof.
  unfold Qmax, GenericMinMax.gmax. destruct (x ?= y); auto.
Qed.

Lemma foldl_Qmax_ge (l : list Q) (x : Q) :
  x <= foldl Qmax x l ∧ ∀ y, y ∈ l → y <= foldl Qmax x l.
Proof.
  revert x. induction l as [|z l IH]; intros x; simpl.
  - split; [lra|]. intros y Hy. by apply elem_of_nil in Hy.
  - destruct (IH (Qmax x z)) as [H1 H2].
    pose proof (Q.le_max_l x z). pose proof (Q.le_max_r x z).
    split; [lra|].
    intros y Hy. apply elem_of_cons in Hy as [->|Hy]; [lra|by apply H2].
Qed.

Lemma foldl_Qmax_in (l : list Q) (x : Q) : foldl Qmax x l ∈ x :: l.
Proof.
  revert x. induction l as [|z l IH]; intros x; simpl.
  - apply elem_of_cons; by left.
  - specialize (IH (Qmax x z)). apply elem_of_cons in IH as [E|IH].
    + rewrite E. destruct (Qmax_cases x z) as [->| ->].
      * apply elem_of_cons; by left.
      * apply elem_of_cons; right. apply elem_of_cons; by left.
    + apply elem_of_cons; right. apply elem_of_cons; by right.
Qed.

(** [strongest] is the maximum: it bounds every entry and is one of them. *)
Lemma strongest_is_max (l : list Q) (m : Q) :
  strongest l = Some m → m ∈ l ∧ ∀ y, y ∈ l → y <= m.
Proof.
  destruct l as [|x l]; [done|]. intros [= <-].
  split; [apply foldl_Qmax_in|].
  destruct (foldl_Qmax_ge l x) as [H1 H2].
  intros y Hy. apply elem_of_cons in Hy as [->|Hy]; [done|by apply H2].
Qed.

Lemma strongest_defined (l : list Q) (x : Q) :
  x ∈ l → ∃ m, strongest l = Some m.
Proof.
  destruct l; [by intros ?%elem_of_nil|]. simpl. eauto.
Qed.

Lemma elem_of_site_strengths (cands : list CandidateBond) (s : nat) (x : Q) :
  x ∈ site_strengths cands s
  ↔ ∃ b, b ∈ cands ∧ cb_central b = s ∧ strength b = x.
Proof.
  unfold site_strengths. rewrite list_elem_of_fmap. split.
  - intros (b & -> & Hb). apply list_elem_of_filter in Hb as [Hs Hb]. eauto.
  - intros (b & Hb & Hs & <-). exists b. split; [done|].
    apply list_elem_of_filter. eauto.
Qed.

(** For a candidate the strongest interaction of its central site exists,
    and the candidate passes the cutoff exactly at or above the bound. *)
Lemma passes_cutoff_spec (cutoff_icohp : Q) (cands : list CandidateBond)
    (b : CandidateBond) :
  b ∈ cands →
  ∃ m, strongest (site_strengths cands (cb_central b)) = Some m
    ∧ (passes_cutoff cutoff_icohp cands b = true
       ↔ cutoff_icohp * m <= strength b).
Proof.
  intros Hb.
  destruct (strongest_defined (site_strengths cands (cb_central b))
              (strength b)) as (m & Em).
  { apply elem_of_site_strengths. eauto. }
  exists m. split; [done|].
  unfold passes_cutoff. rewrite Em. apply Qle_bool_iff.
Qed.
End SelectFacts.

(** ** Outcomes over lists *)

Section OutcomeFacts.
Context {A B : Type}.

Lemma outcome_map_Forall2 (f : A → outcome B) (l : list A) (l' : list B) :
  outcome_map f l = Done l' → Forall2 (λ x y, f x = Done y) l l'.
Proof.
  revert l'. induction l as [|x l IH]; intros l'; simpl.
  - intros [= <-]. constructor.
  - destruct (f x) as [y|] eqn:E; [|done]. simpl.
    destruct (outcome_map f l) as [ys|]; [|done]. simpl.
    intros [= <-]. constructor; auto.
Qed.

Lemma outcome_map_elem (f : A → outcome B) (l : list A) (l' : list B) (y : B) :
  outcome_map f l = Done l' → y ∈ l' → ∃ x, x ∈ l ∧ f x = Done y.
Proof.
  intros H%outcome_map_Forall2 Hy.
  induction H as [|x y' l l' Hf H IH].
  - by apply elem_of_nil in Hy.
  - apply elem_of_cons in Hy as [->|Hy].
    + exists x. split; [apply elem_of_cons; by left|done].
    + destruct (IH Hy) as (x' & Hx' & E). exists x'.
      split; [apply elem_of_cons; by right|done].
Qed.

Lemma outcome_map_elem_l (f : A → outcome B) (l : list A) (l' : list B) (x : A) :
  outcome_map f l = Done l' → x ∈ l → ∃ y, y ∈ l' ∧ f x = Done y.
Proof.
  intros H%outcome_map_Forall2 Hx.
  induction H as [|x' y l l' Hf H IH].
  - by apply elem_of_nil in Hx.
  - apply elem_of_cons in Hx as [->|Hx].
    + exists y. split; [apply elem_of_cons; by left|done].
    + destruct (IH Hx) as (y' & Hy' & E). exists y'.
      split; [apply elem_of_cons; by right|done].
Qed.

Lemma outcome_filter_elem (f : A → outcome bool) (l l' : list A) (x : A) :
  outcome_filter f l = Done l' → (x ∈ l' ↔ x ∈ l ∧ f x = Done true).
Proof.
  revert l'. induction l as [|z l IH]; intros l'; simpl.
  - intros [= <-]. split; [by intros ?%elem_of_nil|by intros [?%elem_of_nil _]].
  - destruct (f z) as [keep|] eqn:E; [|done]. simpl.
    destruct (outcome_filter f l) as [ys|]; [|done]. simpl.
    intros [= <-]. specialize (IH ys eq_refl).
    destruct keep.
    + rewrite !elem_of_cons, IH. split.
      * intros [->|[? ?]]; auto.
      * intros [[->|?] ?]; auto.
    + rewrite elem_of_cons, IH. split.
      * intros [? ?]; auto.
      * intros [[->|?] ?]; [congruence|auto].
Qed.

Lemma outcome_map_failed (f : A → outcome B) (l : list A) (e : analysis_error) :
  outcome_map f l = Failed e → ∃ x, x ∈ l ∧ f x = Failed e.
Proof.
  induction l as [|x l IH]; simpl; [done|].
  destruct (f x) as [y|e'] eqn:E; simpl.
  - destruct (outcome_map f l) as [ys|e']; simpl; [done|].
    intros [= ->]. destruct IH as (x' & Hx' & E'); [done|].
    exists x'. split; [apply elem_of_cons; by right|done].
  - intros [= ->]. exists x. split; [apply elem_of_cons; by left|done].
Qed.



End OutcomeFacts.

(** ** What the selector keeps *)

Section PoolFacts.
Variable structure : Structure.

(** Every bond the structure refers to has its candidate, which carries
    the integrated strength of the curve of its label. *)
Lemma candidates_spec bond_curves cands :
  candidates structure bond_curves = Done cands →
  Forall2 (λ r b, ∃ c, bond_curves !! bond_label r = Some c
             ∧ b = {| cb_central := central r; cb_partner := partner r;
                      cb_icohp := integrated_strength c;
                      cb_label := bond_label r |})
    (bond_refs structure) cands.
Proof.
  intros H%outcome_map_Forall2. eapply Forall2_impl; [exact H|].
  intros r b Hl. unfold lookup_candidate in Hl.
  destruct (bond_curves !! bond_label r) as [c|]; [|done].
  injection Hl as <-. eauto.
Qed.

Lemma eligible_pool_elem charges wb cands pool b :
  eligible_pool structure charges wb cands = Done pool →
  b ∈ pool
  ↔ b ∈ cands ∧ eligible charges wb b = Done true
    ∧ is_representative structure b = Done true.
Proof.
  unfold eligible_pool.
  destruct (outcome_filter (eligible charges wb) cands) as [elig|] eqn:E;
    [|done].
  cbn [and_then]. intros Hp.
  rewrite (outcome_filter_elem _ _ _ _ Hp), (outcome_filter_elem _ _ _ _ E).
  tauto.
Qed.

Lemma select_done charges bond_curves wb cutoff_icohp sel :
  select structure charges bond_curves wb cutoff_icohp = Done sel →
  (0 < cutoff_icohp)%Q
  ∧ ∃ cands pool,
      candidates structure bond_curves = Done cands
      ∧ eligible_pool structure charges wb cands = Done pool
      ∧ selected sel = filter (λ b, passes_cutoff cutoff_icohp cands b) pool
      ∧ charges_found sel = bool_decide (is_Some charges).
Proof.
  unfold select.
  destruct (Qle_bool cutoff_icohp 0) eqn:Ecut; [done|].
  destruct (candidates structure bond_curves) as [cands|] eqn:Ec; [|done].
  cbn [and_then].
  destruct (eligible_pool structure charges wb cands) as [pool|] eqn:Ep;
    [|done].
  cbn [and_then]. intros [= <-]. split.
  - apply Qnot_le_lt. intros H%Qle_bool_iff. congruence.
  - exists cands, pool. done.
Qed.
End PoolFacts.

(** ** Groups hold the bonds they were given *)

Section GroupFacts.
Variable integrate : list (Q * Q) → Q.
Variable structure : Structure.

Lemma insert_member_from cands k b gs :
  b ∈ cands → key_of structure b = Done k →
  groups_from structure cands gs → groups_from structure cands (insert_member k b gs).
Proof.
  intros Hb Hk. induction gs as [|[k' bs] gs IH]; intros Hgs; simpl.
  - intros k0 bs0 b0 Hin Hb0.
    apply list_elem_of_singleton in Hin as [= -> ->].
    apply list_elem_of_singleton in Hb0 as ->. done.
  - assert (groups_from structure cands gs) as Hgs'.
    { intros k0 bs0 b0 Hin. apply (Hgs k0 bs0 b0). apply elem_of_cons; by right. }
    destruct (decide (k = k')) as [<-|Hne].
    + intros k0 bs0 b0 Hin Hb0. apply elem_of_cons in Hin as [[= -> ->]|Hin].
      * apply elem_of_app in Hb0 as [Hb0|Hb0].
        -- apply (Hgs k bs b0); [apply elem_of_cons; by left|done].
        -- apply list_elem_of_singleton in Hb0 as ->. done.
      * by apply (Hgs' k0 bs0 b0).
    + intros k0 bs0 b0 Hin Hb0. apply elem_of_cons in Hin as [[= -> ->]|Hin].
      * apply (Hgs k' bs b0); [apply elem_of_cons; by left|done].
      * by apply (IH Hgs' k0 bs0 b0).
Qed.

Lemma group_members_from cands l gs gs' :
  (∀ b, b ∈ l → b ∈ cands) → groups_from structure cands gs →
  group_members structure l gs = Done gs' → groups_from structure cands gs'.
Proof.
  revert gs. induction l as [|b l IH]; intros gs Hl Hgs; simpl.
  - by intros [= <-].
  - destruct (key_of structure b) as [k|] eqn:Ek; [|done]. simpl.
    apply IH.
    + intros b' Hb'. apply Hl. apply elem_of_cons; by right.
    + apply insert_member_from; [|done|done].
      apply Hl. apply elem_of_cons; by left.
Qed.

(** A bond that is inserted is in the group of its key, and the bonds that
    were in a group stay in it. *)
Lemma insert_member_has k b gs :
  ∃ bs, (k, bs) ∈ insert_member k b gs ∧ b ∈ bs.
Proof.
  induction gs as [|[k' bs'] gs IH]; simpl.
  - exists [b]. split; by apply list_elem_of_singleton.
  - destruct (decide (k = k')) as [<-|Hne].
    + exists (bs' ++ [b]). split; [apply elem_of_cons; by left|].
      apply elem_of_app; right. by apply list_elem_of_singleton.
    + destruct IH as (bs & Hin & Hb). exists bs.
      split; [apply elem_of_cons; by right|done].
Qed.

Lemma insert_member_keeps k b gs k0 bs0 b0 :
  (k0, bs0) ∈ gs → b0 ∈ bs0 →
  ∃ bs1, (k0, bs1) ∈ insert_member k b gs ∧ b0 ∈ bs1.
Proof.
  induction gs as [|[k' bs'] gs IH]; simpl; intros Hin Hb0.
  - by apply elem_of_nil in Hin.
  - destruct (decide (k = k')) as [<-|Hne].
    + apply elem_of_cons in Hin as [[= -> ->]|Hin].
      * exists (bs' ++ [b]). split; [apply elem_of_cons; by left|].
        apply elem_of_app; by left.
      * exists bs0. split; [apply elem_of_cons; by right|done].
    + apply elem_of_cons in Hin as [[= -> ->]|Hin].
      * exists bs'. split; [apply elem_of_cons; by left|done].
      * destruct (IH Hin Hb0) as (bs1 & H1 & H2). exists bs1.
        split; [apply elem_of_cons; by right|done].
Qed.

Lemma insert_member_nonempty k b (gs : list (group_key * list CandidateBond)) :
  Forall (λ g, g.2 ≠ []) gs → Forall (λ g, g.2 ≠ []) (insert_member k b gs).
Proof.
  induction 1 as [|[k' bs'] gs Hne Htl IH]; simpl.
  - constructor; [done|constructor].
  - destruct (decide (k = k')) as [<-|Hk].
    + constructor; [|done]. simpl. intros [? _]%app_eq_nil. by subst.
    + constructor; done.
Qed.

(** Grouping loses no bond and makes no empty group. *)
Lemma group_members_complete l gs gs' :
  group_members structure l gs = Done gs' →
  Forall (λ g, g.2 ≠ []) gs →
  Forall (λ g, g.2 ≠ []) gs'
  ∧ (∀ b, b ∈ l → ∃ k bs, (k, bs) ∈ gs' ∧ b ∈ bs)
  ∧ (∀ k bs b, (k, bs) ∈ gs → b ∈ bs → ∃ bs', (k, bs') ∈ gs' ∧ b ∈ bs').
Proof.
  revert gs. induction l as [|b l IH]; intros gs; simpl.
  - intros [= <-] Hne. split; [done|]. split.
    + intros b Hb. by apply elem_of_nil in Hb.
    + intros k bs b Hin Hb. eauto.
  - destruct (key_of structure b) as [k|] eqn:Ek; [|done]. simpl.
    intros Hg Hne.
    destruct (IH _ Hg (insert_member_nonempty k b gs Hne)) as (H1 & H2 & H3).
    split; [done|]. split.
    + intros b0 Hb0. apply elem_of_cons in Hb0 as [->|Hb0]; [|by apply H2].
      destruct (insert_member_has k b gs) as (bs & Hin & Hb).
      destruct (H3 k bs b Hin Hb) as (bs' & Hin' & Hb'). eauto.
    + intros k0 bs0 b0 Hin Hb0.
      destruct (insert_member_keeps k b gs k0 bs0 b0 Hin Hb0) as (bs1 & Hin1 & Hb1).
      by apply (H3 k0 bs1 b0).
Qed.

Lemma key_of_central b k : key_of structure b = Done k → k.1 = cb_central b.
Proof.
  unfold key_of.
  destruct (sites structure !! cb_central b); [|done].
  destruct (sites structure !! cb_partner b); [|done].
  by intros [= <-].
Qed.

Lemma make_group_fields bond_curves summed_spins g grp :
  make_group integrate structure bond_curves summed_spins g = Done grp →
  central_site grp = g.1.1 ∧ members grp = g.2
  ∧ ∃ contribs,
      outcome_map (member_contributions integrate bond_curves summed_spins) g.2
      = Done contribs
      ∧ characters grp
        = map (λ ba, make_character ba.1 ba.2)
            (foldr add_contributions [] contribs).
Proof.
  destruct g as [[site type] bs]. unfold make_group.
  destruct (outcome_map (member_contributions _ _ _) bs) as [contribs|] eqn:E1;
    [|done]. simpl.
  destruct (sites structure !! site); [|done].
  intros [= <-]. simpl. eauto.
Qed.

(** Every member of a group the classifier returns is one of the candidate
    bonds, and the central site of the group is its central site. *)
Lemma classify_members cands bond_curves summed_spins groups grp b :
  classify integrate structure cands bond_curves summed_spins = Done groups →
  grp ∈ groups → b ∈ members grp →
  b ∈ cands ∧ cb_central b = central_site grp.
Proof.
  unfold classify.
  destruct (group_members structure cands []) as [gs|] eqn:Eg; [|done]. simpl.
  intros Hmap Hgrp Hb.
  destruct (outcome_map_elem _ _ _ _ Hmap Hgrp) as (g & Hg & Emk).
  apply make_group_fields in Emk as (Hc & Hm & _).
  assert (groups_from structure cands gs) as Hfrom.
  { eapply group_members_from; [| |exact Eg]; [done|].
    intros k bs b0 Hin. by apply elem_of_nil in Hin. }
  destruct g as [k bs]. simpl in *. rewrite Hm in Hb.
  destruct (Hfrom k bs b Hg Hb) as [Hin Hk].
  split; [done|]. rewrite Hc. symmetry. by apply key_of_central.
Qed.

(** Every candidate bond given to the classifier is a member of one of the
    groups it returns. *)
Lemma classify_complete cands bond_curves summed_spins groups b :
  classify integrate structure cands bond_curves summed_spins = Done groups →
  b ∈ cands → ∃ grp, grp ∈ groups ∧ b ∈ members grp.
Proof.
  unfold classify.
  destruct (group_members structure cands []) as [gs|] eqn:Eg; [|done]. simpl.
  intros Hmap Hb.
  destruct (group_members_complete _ _ _ Eg (Forall_nil_2 _)) as (_ & Hall & _).
  destruct (Hall b Hb) as (k & bs & Hin & Hbs).
  destruct (outcome_map_elem_l _ _ _ _ Hmap Hin) as (grp & Hgrp & Emk).
  apply make_group_fields in Emk as (_ & Hm & _).
  exists grp. split; [done|]. by rewrite Hm.
Qed.

(** ** The interaction classifier *)



End GroupFacts.

Section PercentageFacts.
Local Open Scope Q_scope.



End PercentageFacts.

(** ** Runs without charge data *)

Section ChargeFacts.
Variable integrate : list (Q * Q) → Q.










End ChargeFacts.

(** A referenced label without a curve makes the selector fail with
    [MissingDataError]. *)
Lemma select_missing_curve (structure : Structure)
    (charges : option (gmap nat Q)) (bond_curves : gmap string BondCurve)
    (wb : which_bonds) (cutoff_icohp : Q) (r : BondRef) :
  (0 < cutoff_icohp)%Q →
  r ∈ bond_refs structure → bond_curves !! bond_label r = None →
  ∃ label, select structure charges bond_curves wb cutoff_icohp
           = Failed (MissingDataError (MissingCurve label))
    ∧ bond_curves !! label = None.
Proof.
  intros Hcut Hr Hnone. unfold select.
  destruct (Qle_bool cutoff_icohp 0) eqn:E.
  { apply Qle_bool_iff in E. exfalso. exact (Qlt_not_le _ _ Hcut E). }
  unfold candidates.
  destruct (outcome_map (lookup_candidate bond_curves) (bond_refs structure))
    as [cands|e] eqn:Ec.
  - exfalso. apply outcome_map_Forall2 in Ec.
    apply list_elem_of_lookup in Hr as [i Hi].
    destruct (Forall2_lookup_l _ _ _ _ _ Ec Hi) as (c & _ & Hc).
    unfold lookup_candidate in Hc. by rewrite Hnone in Hc.
  - apply outcome_map_failed in Ec as (r' & _ & Hr').
    unfold lookup_candidate in Hr'.
    destruct (bond_curves !! bond_label r') eqn:El; [done|].
    injection Hr' as <-. exists (bond_label r'). split; [done|exact El].
Qed.


(** ** The condensed analysis builder *)

Section BuildFacts.
Lemma build_done structure groups wb mm ml ca ss out :
  build structure groups wb mm ml ca ss = Done out →
  stray_group structure groups = None
  ∧ out = {| compound := formula structure;
             site_entries :=
               omap (λ ix, site_entry groups ix.1 ix.2)
                 (imap (λ i s, (i, s)) (sites structure));
             madelung_mull := mm;
             madelung_loew := ml;
             which_bonds_flag := wb;
             charges_available := ca;
             summed_spins_flag := ss |}.
Proof.
  unfold build. destruct (stray_group structure groups); [done|].
  by intros [= <-].
Qed.

Lemma site_entry_index groups i s e :
  site_entry groups i s = Some e →
  entry_index e = i
  ∧ entry_groups e = map order_members (filter (λ g, central_site g = i) groups).
Proof.
  unfold site_entry.
  destruct (filter (λ g, central_site g = i) groups); [done|].
  by intros [= <-].
Qed.

Lemma site_entry_defined groups i s g :
  g ∈ groups → central_site g = i → is_Some (site_entry groups i s).
Proof.
  intros Hg Hc. unfold site_entry.
  destruct (filter (λ g, central_site g = i) groups) eqn:E; [|done].
  assert (g ∈ filter (λ g, central_site g = i) groups) as Hin
    by (by apply list_elem_of_filter).
  rewrite E in Hin. by apply elem_of_nil in Hin.
Qed.

Lemma elem_of_site_entries groups (l : list Site) e :
  e ∈ omap (λ ix, site_entry groups ix.1 ix.2) (imap (λ i s, (i, s)) l) →
  entry_groups e
  = map order_members (filter (λ g, central_site g = entry_index e) groups).
Proof.
  intros (ix & _ & He)%list_elem_of_omap.
  apply site_entry_index in He as [<- ->]. done.
Qed.

Lemma stray_group_none structure groups g :
  stray_group structure groups = None → g ∈ groups →
  central_site g < length (sites structure).
Proof.
  unfold stray_group. intros Hh Hg.
  destruct (decide (central_site g < length (sites structure))) as [|Hn];
    [done|].
  assert (central_site g
          ∈ filter (λ i, length (sites structure) ≤ i) (map central_site groups))
    as Hin.
  { apply list_elem_of_filter. split; [lia|]. by apply list_elem_of_fmap_2. }
  destruct (filter _ _); [by apply elem_of_nil in Hin|done].
Qed.

(** The groups of the output are the groups [build] was given, each under
    the entry of its central site with its members in order. *)
Lemma build_entries structure groups wb mm ml ca ss out :
  build structure groups wb mm ml ca ss = Done out →
  (∀ e g, e ∈ site_entries out → g ∈ entry_groups e →
     ∃ g0, g0 ∈ groups ∧ central_site g0 = entry_index e
       ∧ g = order_members g0)
  ∧ (∀ g0, g0 ∈ groups →
       ∃ e, e ∈ site_entries out ∧ entry_index e = central_site g0
         ∧ order_members g0 ∈ entry_groups e).
Proof.
  intros [Hstray ->]%build_done. cbn [site_entries]. split.
  - intros e g He Hg. rewrite (elem_of_site_entries _ _ _ He) in Hg.
    apply list_elem_of_fmap in Hg as (g0 & -> & Hg0).
    apply list_elem_of_filter in Hg0 as [Hc Hin]. eauto.
  - intros g0 Hg0.
    pose proof (stray_group_none _ _ _ Hstray Hg0) as Hlt.
    destruct (lookup_lt_is_Some_2 _ _ Hlt) as [s Hs].
    destruct (site_entry_defined groups (central_site g0) s g0 Hg0 eq_refl)
      as [e He].
    exists e. destruct (site_entry_index _ _ _ _ He) as [Hi Hgs].
    split; [|split; [done|]].
    + apply list_elem_of_omap. exists (central_site g0, s). split; [|done].
      apply list_elem_of_lookup. exists (central_site g0).
      rewrite list_lookup_imap, Hs. done.
    + rewrite Hgs. apply list_elem_of_fmap_2.
      by apply list_elem_of_filter.
Qed.

Lemma members_order_members g b : b ∈ members (order_members g) ↔ b ∈ members g.
Proof. simpl. by rewrite merge_sort_Permutation. Qed.
End BuildFacts.

(** ** The cutoff of the bond selector *)

(** C1: in a run that completes, with the cutoff given or else 0.1, the
    cutoff is positive and every bond the structure refers to has a
    candidate with the integrated strength of its curve. Every bond in a
    group of the output is a candidate of the central site of its entry, and
    its strength is at least the cutoff times the strongest strength [m]
    among the candidates of that site. A candidate is in a group of the
    output exactly when it is eligible under the which-bonds policy, its
    central site represents its symmetry class and its strength is at least
    that bound; so an eligible candidate of a representative site that is in
    no group falls below the bound. *)
Theorem select_cutoff_bound (integrate : list (Q * Q) → Q)
    (inp : AnalysisInput) (out : CondensedAnalysis) :
  run_analysis integrate inp = Done out →
  let cutoff_icohp := default (1 # 10)%Q (in_cutoff_icohp inp) in
  let kept b := ∃ e g, e ∈ site_entries out ∧ g ∈ entry_groups e
                  ∧ b ∈ members g in
  (0 < cutoff_icohp)%Q
  ∧ ∃ cands,
      Forall2 (λ r b, ∃ c, in_bond_curves inp !! bond_label r = Some c
                 ∧ b = {| cb_central := central r; cb_partner := partner r;
                          cb_icohp := integrated_strength c;
                          cb_label := bond_label r |})
        (bond_refs (in_structure inp)) cands
      ∧ (∀ e g b, e ∈ site_entries out → g ∈ entry_groups e → b ∈ members g →
           central_site g = entry_index e ∧ cb_central b = entry_index e
           ∧ b ∈ cands
           ∧ ∃ m, strongest (site_strengths cands (entry_index e)) = Some m
               ∧ (∀ b', b' ∈ cands → cb_central b' = entry_index e →
                    (strength b' <= m)%Q)
               ∧ (∃ b', b' ∈ cands ∧ cb_central b' = entry_index e
                    ∧ strength b' = m)
               ∧ (cutoff_icohp * m <= strength b)%Q)
      ∧ (∀ b, b ∈ cands →
           ∃ m, strongest (site_strengths cands (cb_central b)) = Some m
             ∧ (kept b
                ↔ eligible (site_charges <$> in_charges inp)
                    (in_which_bonds inp) b = Done true
                  ∧ is_representative (in_structure inp) b = Done true
                  ∧ (cutoff_icohp * m <= strength b)%Q)
             ∧ (¬ kept b →
                eligible (site_charges <$> in_charges inp)
                  (in_which_bonds inp) b = Done true →
                is_representative (in_structure inp) b = Done true →
                (strength b < cutoff_icohp * m)%Q)).
Proof.
  intros Hrun cutoff_icohp kept. revert Hrun. unfold run_analysis.
  change (default cutoff_icohp_default (in_cutoff_icohp inp)) with cutoff_icohp.
  destruct (select _ _ _ _ _) as [sel|] eqn:Es; [|done]. cbn [and_then].
  destruct (classify _ _ _ _ _) as [groups|] eqn:Ec; [|done]. cbn [and_then].
  intros Hb.
  apply select_done in Es as (Hcut & cands & pool & Ecands & Epool & Esel & _).
  destruct (build_entries _ _ _ _ _ _ _ _ Hb) as [Hent1 Hent2].
  assert (Hkept : ∀ b, kept b ↔ b ∈ selected sel).
  { intros b. split.
    - intros (e & g & He & Hg & Hbm).
      destruct (Hent1 e g He Hg) as (g0 & Hg0 & _ & ->).
      apply (proj1 (members_order_members g0 b)) in Hbm.
      by destruct (classify_members _ _ _ _ _ _ _ _ Ec Hg0 Hbm).
    - intros Hs.
      destruct (classify_complete _ _ _ _ _ _ _ Ec Hs) as (g0 & Hg0 & Hbm).
      destruct (Hent2 g0 Hg0) as (e & He & _ & Hg).
      exists e, (order_members g0). split; [done|]. split; [done|].
      by apply (proj2 (members_order_members g0 b)). }
  assert (Hsel : ∀ b, b ∈ selected sel
            ↔ b ∈ cands
              ∧ eligible (site_charges <$> in_charges inp)
                  (in_which_bonds inp) b = Done true
              ∧ is_representative (in_structure inp) b = Done true
              ∧ passes_cutoff cutoff_icohp cands b = true).
  { intros b.
    rewrite Esel, list_elem_of_filter, (eligible_pool_elem _ _ _ _ _ _ Epool),
      Is_true_true.
    tauto. }
  split; [done|]. exists cands. split; [by apply candidates_spec|]. split.
  - intros e g b He Hg Hbm.
    destruct (Hent1 e g He Hg) as (g0 & Hg0 & Hc0 & ->).
    apply (proj1 (members_order_members g0 b)) in Hbm.
    destruct (classify_members _ _ _ _ _ _ _ _ Ec Hg0 Hbm) as [Hs Hcb].
    apply Hsel in Hs as (Hin & _ & _ & Hp).
    split; [exact Hc0|]. split; [by rewrite Hcb|]. split; [done|].
    destruct (passes_cutoff_spec cutoff_icohp cands b Hin) as (m & Em & Hiff).
    exists m. rewrite <- Hc0, <- Hcb. split; [done|].
    destruct (strongest_is_max _ _ Em) as [Hmin Hmax].
    split; [|split].
    + intros b' Hb' Hc'. apply Hmax, elem_of_site_strengths. eauto.
    + by apply elem_of_site_strengths in Hmin.
    + by apply Hiff.
  - intros b Hin.
    destruct (passes_cutoff_spec cutoff_icohp cands b Hin) as (m & Em & Hiff).
    exists m. split; [done|]. split.
    + rewrite Hkept, Hsel, Hiff. tauto.
    + intros Hnot He Hr. apply Qnot_le_lt. intros Hle.
      apply Hnot, Hkept, Hsel. rewrite Hiff. tauto.
Qed.

(** ** The percentages of the interaction classifier *)


(** ** Requests for cation-anion bonds without charge data *)


(** * The statements at the sample input *)

Lemma select_cutoff_bound_witness :
  ∃ out,
    run_analysis Sample.integrate (Sample.input (Some Sample.charges)) = Done out
    ∧ (0 < 1 # 10)%Q
    ∧ map (λ e, map (λ g, map cb_label (members g)) (entry_groups e))
        (site_entries out) = [[["3"; "1"; "2"]]].
Proof.
  assert (H : ∃ out,
             run_analysis Sample.integrate (Sample.input (Some Sample.charges))
             = Done out
             ∧ map (λ e, map (λ g, map cb_label (members g)) (entry_groups e))
                 (site_entries out) = [[["3"; "1"; "2"]]]).
  { eexists. split; vm_compute; reflexivity. }
  destruct H as (out & H & Hl). exists out. split; [exact H|].
  split; [|exact Hl].
  exact (proj1 (select_cutoff_bound Sample.integrate _ out H)).
Defined.

(** The bond "5" between the two cations is as strong as the strongest bond
    of its central site, and the selector excludes it from the request for
    cation-anion bonds: an excluded bond that is not below the bound. *)
Lemma select_excluded_bond_counterexample :
  let b := {| cb_central := 0; cb_partner := 2;
              cb_icohp := integrated_strength Sample.strong_curve;
              cb_label := "5" |} in
  ∃ out cands m,
    run_analysis Sample.integrate Sample.cation_pair_input = Done out
    ∧ candidates (in_structure Sample.cation_pair_input)
        (in_bond_curves Sample.cation_pair_input) = Done cands
    ∧ b ∈ cands
    ∧ map (λ e, map (λ g, map cb_label (members g)) (entry_groups e))
        (site_entries out) = [[["1"]]]
    ∧ strongest (site_strengths cands (cb_central b)) = Some m
    ∧ ((1 # 10) * m <= strength b)%Q
    ∧ ¬ (strength b < (1 # 10) * m)%Q.
Proof.
  intros b. eexists _, _, _.
  split; [vm_compute; reflexivity|].
  split; [vm_compute; reflexivity|].
  split; [apply elem_of_cons; right; apply elem_of_cons; by left|].
  split; [vm_compute; reflexivity|].
  split; [vm_compute; reflexivity|].
  split; [by vm_compute|]. by vm_compute.
Qed.




Lemma run_plot_absent_label_witness :
  let cc : @Cli.CompleteCohp nat :=
    {| Cli.bonds_keys := ["1"; "2"];
       Cli.orb_res_cohp := None;
       Cli.get_cohp_by_label := λ _, Ok 0;
       Cli.get_orbital_resolved_cohp := λ _ _, Ok 0;
       Cli.get_summed_cohp_by_label_list := λ _, Raise (KeyError "7") |} in
  let args := {| Cli.bond_numbers := [1; 7]%Z; Cli.summed := false;
                 Cli.orbitalwise := None |} in
  let py_int : string → result Z :=
    λ s, if decide (s = "1") then Ok 1%Z
         else if decide (s = "2") then Ok 2%Z else Raise (ValueError s) in
  Cli.absent_label cc args
  ∧ ∃ e, Cli.run_plot py_int (λ cp, Ok (length cp)) cc args = (Raise e, []).
Proof.
  intros cc args py_int.
  assert (Habs : Cli.absent_label cc args).
  { exists 7%Z. split.
    - apply elem_of_cons; right. apply elem_of_cons; by left.
    - intros H. apply list_elem_of_In in H. vm_compute in H.
      destruct H as [H|[H|[]]]; discriminate H. }
  split; [exact Habs|].
  destruct (run_plot_absent_label py_int (λ cp, Ok (length cp)) cc args Habs)
    as (e & E & _).
  - intros H. discriminate H.
  - exists e. exact E.
Defined.

(** * More of cli.py *)

Section SplitFacts.
Import CliTools.

Lemma split_char_nonempty (c : Ascii.ascii) (s : string) : split_char c s ≠ [].
Proof.
  destruct s as [|a s]; simpl; [done|].
  destruct (Ascii.eqb a c); [done|]. by destruct (split_char c s).
Qed.

Lemma py_join_cons (sep x y : string) (l : list string) :
  Cli.py_join sep (x :: y :: l) = x +:+ sep +:+ Cli.py_join sep (y :: l).
Proof. reflexivity. Qed.

(** Joining the pieces with the separator gives the string back. *)
Lemma join_split_char (c : Ascii.ascii) (s : string) :
  Cli.py_join (String c EmptyString) (split_char c s) = s.
Proof.
  induction s as [|a s IH]; simpl; [done|].
  destruct (Ascii.eqb_spec a c) as [->|Hne].
  - pose proof (split_char_nonempty c s) as Hn.
    destruct (split_char c s) as [|h t] eqn:E; [done|].
    rewrite py_join_cons, IH. reflexivity.
  - pose proof (split_char_nonempty c s) as Hn.
    destruct (split_char c s) as [|h t] eqn:E; [done|].
    destruct t as [|h' t].
    + simpl in *. by rewrite IH.
    + rewrite py_join_cons in *. rewrite <- IH. reflexivity.
Qed.

Lemma split_char_pieces (c : Ascii.ascii) (s : string) :
  Forall (λ p, has_char c p = false) (split_char c s).
Proof.
  induction s as [|a s IH]; simpl.
  - by constructor.
  - destruct (Ascii.eqb a c) eqn:E.
    + by constructor.
    + destruct (split_char c s) as [|h t]; [by repeat constructor; simpl; rewrite E|].
      inversion IH as [|? ? Hh Ht]; subst.
      constructor; [|done]. simpl. by rewrite E, Hh.
Qed.

Lemma split_char_absent (c : Ascii.ascii) (s : string) :
  has_char c s = false → split_char c s = [s].
Proof.
  induction s as [|a s IH]; simpl; [done|].
  intros [Ha Hs]%orb_false_iff. rewrite Ha, IH by done. done.
Qed.

Lemma has_char_app (c : Ascii.ascii) (s t : string) :
  has_char c (s +:+ t) = has_char c s || has_char c t.
Proof.
  induction s as [|a s IH]; simpl; [done|]. by rewrite IH, orb_assoc.
Qed.

Lemma has_char_join (c : Ascii.ascii) (sep : string) (l : list string) :
  has_char c sep = false → Forall (λ p, has_char c p = false) l →
  has_char c (Cli.py_join sep l) = false.
Proof.
  intros Hsep Hl. induction Hl as [|x l Hx Hl IH]; [done|].
  destruct l as [|y l]; [done|].
  rewrite py_join_cons, !has_char_app, Hx, Hsep, IH. done.
Qed.
End SplitFacts.

(** X1: [_element_basis] returns the text before the first dot and the
    other dot-separated pieces joined by spaces: neither part holds a dot,
    the string is the parts joined back with dots, and a string without a
    dot is its own element with an empty basis. *)
Theorem element_basis_parts (s : string) :
  let (element, basis) := CliTools._element_basis s in
  CliTools.has_char CliTools.dot element = false
  ∧ CliTools.has_char CliTools.dot basis = false
  ∧ (∃ rest, s = Cli.py_join "." (element :: rest)
       ∧ basis = Cli.py_join " " rest
       ∧ Forall (λ p, CliTools.has_char CliTools.dot p = false) rest)
  ∧ (CliTools.has_char CliTools.dot s = false → element = s ∧ basis = "").
Proof.
  unfold CliTools._element_basis.
  pose proof (split_char_nonempty CliTools.dot s) as Hne.
  pose proof (split_char_pieces CliTools.dot s) as Hp.
  pose proof (join_split_char CliTools.dot s) as Hj.
  pose proof (split_char_absent CliTools.dot s) as Ha.
  destruct (CliTools.split_char CliTools.dot s) as [|e rest]; [done|].
  cbn [hd tl]. apply Forall_cons in Hp as [He Hrest].
  split; [exact He|]. split.
  - apply has_char_join; [reflexivity|exact Hrest].
  - split.
    + exists rest. split; [symmetry; exact Hj|]. split; [reflexivity|exact Hrest].
    + intros Hs. specialize (Ha Hs). injection Ha as -> ->. done.
Qed.

(** X2: [_user_figsize] raises only for a width without a height and a
    zero aspect. Otherwise, with exactly one of width and height given, the
    figure size keeps the given one as it is, and the other one is the
    rounded product or quotient with the aspect (the golden ratio when none
    is passed): when the float operations round with a relative error of at
    most [u], the height times the aspect differs from the width by at most
    [u] times the exact one of the two; it need not equal it. With both
    given the size is the two as they are, whatever the aspect. *)
Theorem user_figsize_ratio (float_mul float_div : Q → Q → Q) (u golden : Q)
    (width height aspect : option Q) :
  CliTools.rounds_within u float_mul float_div →
  let a := default golden aspect in
  let run := CliTools._user_figsize float_mul float_div golden width height
               aspect in
  (run = CliTools.ZeroDivisionError
   ↔ is_Some width ∧ height = None ∧ (a == 0)%Q)
  ∧ (∀ w, width = Some w → height = None → ¬ (a == 0)%Q →
     ∃ h, run = CliTools.Value {[ "figure.figsize" := CliTools.RcFigsize w h ]}
          ∧ h = float_div w a
          ∧ (Qabs (a * h - w) <= u * Qabs w)%Q)
  ∧ (∀ h, width = None → height = Some h →
     ∃ w, run = CliTools.Value {[ "figure.figsize" := CliTools.RcFigsize w h ]}
          ∧ w = float_mul h a
          ∧ (Qabs (w - a * h) <= u * Qabs (a * h))%Q)
  ∧ (∀ w h, width = Some w → height = Some h →
     run = CliTools.Value {[ "figure.figsize" := CliTools.RcFigsize w h ]}).
Proof.
  intros [Hmul Hdiv] a run. subst run. unfold CliTools._user_figsize. fold a.
  split; [|split; [|split]].
  - destruct width as [w|], height as [h|]; simpl.
    + split; [done|]. by intros (_ & ? & _).
    + destruct (Qeq_bool a 0) eqn:E.
      * apply Qeq_bool_eq in E. split; [eauto|done].
      * apply Qeq_bool_neq in E. split; [done|]. by intros (_ & _ & ?).
    + split; [done|]. by intros ([? ?] & _).
    + split; [done|]. by intros ([? ?] & _).
  - intros w -> -> Hnz.
    destruct (Qeq_bool a 0) eqn:E; [by apply Qeq_bool_eq in E|].
    exists (float_div w a). split; [done|]. split; [done|].
    pose proof (Hdiv w a Hnz) as Hd.
    assert (Ha : (0 < Qabs a)%Q).
    { destruct (Qlt_le_dec 0 (Qabs a)) as [?|Hle]; [done|].
      exfalso. apply Hnz. revert Hle. apply Qabs_case; intros; lra. }
    assert (E1 : (a * float_div w a - w == a * (float_div w a - w / a))%Q)
      by (field; exact Hnz).
    assert (E2 : (Qabs w == Qabs a * Qabs (w / a))%Q).
    { rewrite <- Qabs_Qmult. apply Qabs_wd. field. exact Hnz. }
    rewrite E1, Qabs_Qmult, E2.
    pose proof (Qabs_nonneg (float_div w a - w / a)) as Hn1.
    nra.
  - intros h -> ->. exists (float_mul h a). split; [done|]. split; [done|].
    pose proof (Hmul h a) as Hm.
    assert (E1 : (a * h == h * a)%Q) by ring.
    rewrite E1. exact Hm.
  - by intros w h -> ->.
Qed.

Lemma user_figsize_ratio_witness :
  let float_div : Q → Q → Q := λ x y, (x / y * (1001 # 1000))%Q in
  ∃ h,
    CliTools._user_figsize Qmult float_div (1618 # 1000) (Some 8%Q) None None
    = CliTools.Value {[ "figure.figsize" := CliTools.RcFigsize 8 h ]}
    ∧ ¬ ((1618 # 1000) * h == 8)%Q
    ∧ (Qabs ((1618 # 1000) * h - 8) <= (1 # 1000) * Qabs 8)%Q.
Proof.
  intros float_div.
  assert (Hr : CliTools.rounds_within (1 # 1000) Qmult float_div).
  { split.
    - intros x y. assert (E : (x * y - x * y == 0)%Q) by ring.
      rewrite (Qabs_wd _ _ E). change (Qabs 0) with 0%Q.
      pose proof (Qabs_nonneg (x * y)). lra.
    - intros x y Hy. unfold float_div.
      assert (E : (x / y * (1001 # 1000) - x / y == x / y * (1 # 1000))%Q)
        by (field; exact Hy).
      rewrite (Qabs_wd _ _ E), Qabs_Qmult.
      change (Qabs (1 # 1000)) with (1 # 1000)%Q. lra. }
  destruct (user_figsize_ratio Qmult float_div (1 # 1000) (1618 # 1000)
              (Some 8%Q) None None Hr) as (_ & Hw & _).
  destruct (Hw 8%Q eq_refl eq_refl) as (h & E & -> & Hb).
  - simpl. intros H. discriminate H.
  - exists (float_div 8%Q (1618 # 1000)%Q). split; [exact E|].
    split; [|exact Hb]. intros H. vm_compute in H. discriminate H.
Defined.

(** X3: the keyword arguments that [run] hands to [get_style_list] hold
    [figure.figsize] exactly when a width or a height was given,
    [font.size] exactly when a font size other than zero was given (a font
    size of 0 counts as not given), and no other key. *)
Theorem style_kwargs_keys (float_mul float_div : Q → Q → Q) (golden : Q)
    (width height fontsize : option Q) :
  ¬ (golden == 0)%Q →
  ∃ d, CliTools.style_kwargs float_mul float_div golden width height fontsize
       = CliTools.Value d
    ∧ (is_Some (d !! "figure.figsize") ↔ is_Some width ∨ is_Some height)
    ∧ (∀ x, d !! "font.size" = Some x
         ↔ ∃ f, fontsize = Some f ∧ ¬ (f == 0)%Q ∧ x = CliTools.RcNumber f)
    ∧ (∀ k, is_Some (d !! k) → k = "figure.figsize" ∨ k = "font.size").
Proof.
  intros Hg. unfold CliTools.style_kwargs.
  assert (∃ fig, CliTools._user_figsize float_mul float_div golden width
                   height None = CliTools.Value fig
            ∧ (is_Some (fig !! "figure.figsize") ↔ is_Some width ∨ is_Some height)
            ∧ (∀ k, is_Some (fig !! k) → k = "figure.figsize"))
    as (fig & -> & Hfig & Hdom).
  { unfold CliTools._user_figsize. simpl.
    destruct width as [w|], height as [h|].
    - eexists. split; [done|]. split.
      + rewrite lookup_singleton_eq. split; eauto.
      + intros k [v Hk]. by apply lookup_singleton_Some in Hk as [<- _].
    - destruct (Qeq_bool golden 0) eqn:E; [by apply Qeq_bool_eq in E|].
      eexists. split; [done|]. split.
      + rewrite lookup_singleton_eq. split; eauto.
      + intros k [v Hk]. by apply lookup_singleton_Some in Hk as [<- _].
    - eexists. split; [done|]. split.
      + rewrite lookup_singleton_eq. split; eauto.
      + intros k [v Hk]. by apply lookup_singleton_Some in Hk as [<- _].
    - exists ∅. split; [done|]. split.
      + rewrite lookup_empty. split; [by intros [? ?]|by intros [[? ?]|[? ?]]].
      + intros k [v Hk]. by rewrite lookup_empty in Hk. }
  rewrite (right_id_L ∅ (∪) fig).
  assert (Hnf : fig !! "font.size" = None).
  { destruct (fig !! "font.size") eqn:E; [|done].
    assert ("font.size" = "figure.figsize") as Habs by (apply Hdom; eauto).
    discriminate Habs. }
  unfold CliTools.float_if_true.
  destruct fontsize as [f|].
  - destruct (Qeq_bool f 0) eqn:E.
    + apply Qeq_bool_eq in E. exists fig. split; [done|]. split; [done|]. split.
      * intros x. rewrite Hnf. split; [done|].
        intros (f' & [= <-] & Hf & _). done.
      * intros k Hk. left. by apply Hdom.
    + apply Qeq_bool_neq in E. eexists. split; [done|]. split; [|split].
      * rewrite lookup_insert_ne by done. exact Hfig.
      * intros x. rewrite lookup_insert_eq. split.
        -- intros [= <-]. eauto.
        -- intros (f' & [= <-] & _ & ->). done.
      * intros k Hk. destruct (decide (k = "font.size")) as [->|Hne]; [by right|].
        rewrite lookup_insert_ne in Hk by done. left. by apply Hdom.
  - exists fig. split; [done|]. split; [done|]. split.
    + intros x. rewrite Hnf. split; [done|]. by intros (f' & [=] & _).
    + intros k Hk. left. by apply Hdom.
Qed.

Lemma style_kwargs_keys_witness :
  ∃ d, CliTools.style_kwargs Qmult Qdiv (1618 # 1000) (Some 8%Q) None
         (Some 0%Q)
       = CliTools.Value d
    ∧ is_Some (d !! "figure.figsize") ∧ d !! "font.size" = None.
Proof.
  destruct (style_kwargs_keys Qmult Qdiv (1618 # 1000) (Some 8%Q) None
              (Some 0%Q))
    as (d & E & Hfig & Hfont & _).
  - intros H. discriminate H.
  - exists d. split; [exact E|]. split.
    + apply Hfig. left. eauto.
    + destruct (d !! "font.size") as [x|] eqn:Ex; [|reflexivity].
      destruct (proj1 (Hfont x) eq_refl) as (f & [= <-] & Hf & _).
      exfalso. apply Hf. reflexivity.
Defined.

(** X4: in [run] a [--sigma] other than zero is the standard deviation,
    whatever [--fwhm] is; a [--sigma] of 0 counts as not given, so the value
    derived from [--fwhm] is used; with neither (or both zero) there is no
    standard deviation and the broadening hands every population back
    unchanged. *)
Theorem select_sigma_cases (fwhm_factor : Q) (sigma fwhm : option Q) :
  (∀ s, sigma = Some s → ¬ (s == 0)%Q →
     CliTools.select_sigma fwhm_factor sigma fwhm = Some s)
  ∧ (∀ s, sigma = Some s → (s == 0)%Q →
     CliTools.select_sigma fwhm_factor sigma fwhm
     = CliTools.select_sigma fwhm_factor None fwhm)
  ∧ (∀ f, CliTools.select_sigma fwhm_factor None (Some f)
          = if Qeq_bool f 0 then None else Some (f / fwhm_factor)%Q)
  ∧ ((sigma = None ∨ ∃ s, sigma = Some s ∧ (s == 0)%Q) →
     (fwhm = None ∨ ∃ f, fwhm = Some f ∧ (f == 0)%Q) →
     CliTools.select_sigma fwhm_factor sigma fwhm = None
     ∧ ∀ norm_pdf float_ceil_div energies population cutoff,
         Plotting._broaden norm_pdf float_ceil_div energies population
           (CliTools.select_sigma fwhm_factor sigma fwhm) cutoff
         = Ok population).
Proof.
  unfold CliTools.select_sigma, CliTools.float_if_true.
  split; [|split; [|split]].
  - intros s -> Hs. destruct (Qeq_bool s 0) eqn:E; [|done].
    by apply Qeq_bool_eq in E.
  - intros s -> Hs. destruct (Qeq_bool s 0) eqn:E; [done|].
    by apply Qeq_bool_neq in E.
  - intros f. by destruct (Qeq_bool f 0).
  - intros Hs Hf.
    assert (match sigma with
            | Some v => if Qeq_bool v 0 then None else Some v
            | None => None
            end = None) as ->.
    { destruct Hs as [->|(s & -> & Hs)]; [done|].
      destruct (Qeq_bool s 0) eqn:E; [done|]. by apply Qeq_bool_neq in E. }
    assert (match fwhm with
            | Some v => if Qeq_bool v 0 then None else Some v
            | None => None
            end = None) as ->.
    { destruct Hf as [->|(f & -> & Hf)]; [done|].
      destruct (Qeq_bool f 0) eqn:E; [done|]. by apply Qeq_bool_neq in E. }
    split; reflexivity.
Qed.

Lemma select_sigma_cases_witness :
  CliTools.select_sigma (23548 # 10000) (Some 0%Q) (Some 1%Q)
  = CliTools.select_sigma (23548 # 10000) None (Some 1%Q)
  ∧ CliTools.select_sigma (23548 # 10000) (Some 0%Q) None = None.
Proof.
  destruct (select_sigma_cases (23548 # 10000) (Some 0%Q) (Some 1%Q))
    as (_ & H0 & _).
  split.
  - apply (H0 0%Q); reflexivity.
  - destruct (select_sigma_cases (23548 # 10000) (Some 0%Q) None)
      as (_ & _ & _ & Hn).
    apply Hn; [right; exists 0%Q; split; reflexivity|by left].
Defined.

(** ** The [create-inputs] action *)

Section CreateFacts.
Import CliTools.
Context {Lobsterin Content : Type}.
Variable all_basis : gmap string Content → result (list (gmap string string)).
Variable make_lobsterin :
  gmap string Content → gmap string string → result Lobsterin.
Variable write_lobsterin :
  Lobsterin → string → gmap string Content → result Content.
Variable write_INCAR :
  Lobsterin → string → gmap string Content → result Content.
Implicit Types (fs : gmap string Content) (args : create_args).

Lemma write_inputs_keeps args ibasis lobsterinput fs0 fs :
  overwrite args = false → keeps_files fs0 fs →
  keeps_files fs0
    (write_inputs write_lobsterin write_INCAR args ibasis lobsterinput fs).2.
Proof.
  intros Hov Hk. unfold write_inputs. rewrite Hov, orb_false_r.
  set (lp := lobsterinout args +:+ "-" +:+ pretty ibasis).
  set (ip := incarout args +:+ "-" +:+ pretty ibasis).
  destruct (bool_decide (is_Some (fs !! lp))) eqn:El; [done|].
  destruct (bool_decide (is_Some (fs !! ip))) eqn:Ei; [done|].
  apply bool_decide_eq_false in El. apply bool_decide_eq_false in Ei.
  cbn [negb andb].
  assert (Hfresh : ∀ p, is_Some (fs0 !! p) → p ≠ lp ∧ p ≠ ip).
  { intros p Hp. specialize (Hk p Hp). rewrite <- Hk in Hp.
    split; intros ->; done. }
  destruct (write_lobsterin lobsterinput lp fs) as [text|e]; [|done].
  destruct (write_INCAR lobsterinput ip _); cbn [snd]; intros p Hp;
    destruct (Hfresh p Hp) as [H1 H2].
  - rewrite !lookup_insert_ne by done. by apply Hk.
  - rewrite lookup_insert_ne by done. by apply Hk.
Qed.

Lemma write_all_keeps args ibasis l fs0 fs :
  overwrite args = false → keeps_files fs0 fs →
  keeps_files fs0
    (write_all make_lobsterin write_lobsterin write_INCAR args ibasis l fs).2.
Proof.
  intros Hov. revert ibasis fs. induction l as [|b l IH]; intros ibasis fs Hk.
  - done.
  - simpl. destruct (make_lobsterin fs b) as [li|e]; [|done].
    pose proof (write_inputs_keeps args ibasis li fs0 fs Hov Hk) as Hw.
    destruct (write_inputs _ _ args ibasis li fs) as [[u|e] fs']; simpl in Hw.
    + by apply IH.
    + done.
Qed.

End CreateFacts.

(** X5: without [--overwrite] the [create-inputs] action leaves every file
    that exists when it starts as it is, whether the action ends normally or
    raises: it only ever writes to names that hold no file. *)
Theorem create_inputs_keeps_files {Lobsterin Content : Type}
    (all_basis : gmap string Content → result (list (gmap string string)))
    (make_lobsterin : gmap string Content → gmap string string → result Lobsterin)
    (write_lobsterin : Lobsterin → string → gmap string Content → result Content)
    (write_INCAR : Lobsterin → string → gmap string Content → result Content)
    (args : CliTools.create_args) (fs : gmap string Content) (p : string) :
  CliTools.overwrite args = false →
  is_Some (fs !! p) →
  (CliTools.create_inputs all_basis make_lobsterin write_lobsterin write_INCAR
     args fs).2 !! p = fs !! p.
Proof.
  intros Hov Hp.
  assert (Hk : CliTools.keeps_files fs fs) by (by intros q _).
  unfold CliTools.create_inputs.
  destruct (CliTools.userbasis args) as [l|].
  - destruct (make_lobsterin fs _) as [li|e]; [|done].
    by apply (write_inputs_keeps write_lobsterin write_INCAR args 0 li fs fs
                Hov Hk).
  - destruct (all_basis fs) as [bs|e]; [|done].
    by apply (write_all_keeps make_lobsterin write_lobsterin write_INCAR
                args 0 bs fs fs Hov Hk).
Qed.

(** X6: with a user basis, [create-inputs] ends in one of five ways, and
    which one is decided in this order. When building the lobsterin object
    raises, that error is raised and nothing is written: the object is built
    before the files are looked at. When one of the two targets
    ([<lobsterin-out>-0], [<incar-out>-0]) is a file and [--overwrite] is not
    set, it raises the [ValueError] and writes nothing. When writing the
    lobsterin raises, that error is raised and nothing is written. When
    writing the INCAR raises, the new lobsterin stays behind: the lobsterin
    is written first. When both writes succeed the INCAR target holds the
    INCAR, the lobsterin target holds the lobsterin unless the two names are
    equal, and no other file changes. *)
Theorem create_inputs_user_basis {Lobsterin Content : Type}
    (all_basis : gmap string Content → result (list (gmap string string)))
    (make_lobsterin : gmap string Content → gmap string string → result Lobsterin)
    (write_lobsterin : Lobsterin → string → gmap string Content → result Content)
    (write_INCAR : Lobsterin → string → gmap string Content → result Content)
    (args : CliTools.create_args) (fs : gmap string Content)
    (l : list (string * string)) :
  CliTools.userbasis args = Some l →
  let lobsterin_path := CliTools.lobsterinout args +:+ "-0" in
  let incar_path := CliTools.incarout args +:+ "-0" in
  let run := CliTools.create_inputs all_basis make_lobsterin write_lobsterin
               write_INCAR args fs in
  let refused :=
    CliTools.overwrite args = false
    ∧ (is_Some (fs !! lobsterin_path) ∨ is_Some (fs !! incar_path)) in
  match make_lobsterin fs (CliTools.userbasis_dict l) with
  | Raise e => run = (Raise e, fs)
  | Ok lobsterinput =>
    (refused → run = (Raise (ValueError CliTools.overwrite_msg), fs))
    ∧ (¬ refused →
       match write_lobsterin lobsterinput lobsterin_path fs with
       | Raise e => run = (Raise e, fs)
       | Ok lobsterin =>
         let fs1 := <[ lobsterin_path := lobsterin ]> fs in
         match write_INCAR lobsterinput incar_path fs1 with
         | Raise e => run = (Raise e, fs1)
         | Ok incar =>
           run.1 = Ok ()
           ∧ run.2 !! incar_path = Some incar
           ∧ (lobsterin_path ≠ incar_path →
              run.2 !! lobsterin_path = Some lobsterin)
           ∧ (∀ q, q ≠ lobsterin_path → q ≠ incar_path →
                run.2 !! q = fs !! q)
         end
       end)
  end.
Proof.
  intros Hub lp ip run refused. subst run refused.
  unfold CliTools.create_inputs. rewrite Hub.
  destruct (make_lobsterin fs (CliTools.userbasis_dict l)) as [li|e]; [|done].
  unfold CliTools.write_inputs.
  change (CliTools.lobsterinout args +:+ "-" +:+ pretty 0) with lp.
  change (CliTools.incarout args +:+ "-" +:+ pretty 0) with ip.
  split.
  - intros [Hov Hex]. rewrite Hov, orb_false_r.
    destruct Hex as [Hex|Hex].
    + by rewrite (bool_decide_eq_true_2 _ Hex).
    + rewrite (bool_decide_eq_true_2 _ Hex). by rewrite andb_false_r.
  - intros Hgo.
    assert ((negb (bool_decide (is_Some (fs !! lp)))
             && negb (bool_decide (is_Some (fs !! ip))))
            || CliTools.overwrite args = true) as ->.
    { destruct (CliTools.overwrite args) eqn:Hov; [by rewrite orb_true_r|].
      rewrite orb_false_r.
      rewrite !bool_decide_eq_false_2; [done| |];
        intros H; apply Hgo; split; auto. }
    destruct (write_lobsterin li lp fs) as [text|e]; [|done].
    cbv zeta. destruct (write_INCAR li ip _) as [incar|e]; [|done].
    cbn [fst snd]. split; [done|]. split; [|split].
    + by rewrite lookup_insert_eq.
    + intros Hne. rewrite lookup_insert_ne by done.
      by rewrite lookup_insert_eq.
    + intros q H1 H2. rewrite lookup_insert_ne by done.
      by rewrite lookup_insert_ne.
Qed.

Lemma create_inputs_user_basis_witness :
  let args := {| CliTools.lobsterinout := "lobsterin.lobsterpy";
                 CliTools.incarout := "INCAR.lobsterpy";
                 CliTools.overwrite := false;
                 CliTools.userbasis := Some [("Cr", "3d 4s")] |} in
  let fs : gmap string string := {[ "INCAR.lobsterpy-0" := "old" ]} in
  CliTools.create_inputs (λ _, Ok []) (λ _ b, Ok b)
    (λ _ _ _, Ok "lobsterin") (λ _ _ _, Ok "incar") args fs
  = (Raise (ValueError CliTools.overwrite_msg), fs)
  ∧ CliTools.create_inputs (λ _, Ok []) (λ _ b, Ok b)
      (λ _ _ _, Raise LibraryError) (λ _ _ _, Ok "incar") args ∅
    = (Raise LibraryError, ∅).
Proof.
  intros args fs. split.
  - apply (create_inputs_user_basis (λ _, Ok []) (λ _ b, Ok b)
             (λ _ _ _, Ok "lobsterin") (λ _ _ _, Ok "incar") args fs
             [("Cr", "3d 4s")] eq_refl).
    split; [reflexivity|]. right. vm_compute. eauto.
  - apply (create_inputs_user_basis (λ _, Ok []) (λ _ b, Ok b)
             (λ _ _ _, Raise LibraryError) (λ _ _ _, Ok "incar") args ∅
             [("Cr", "3d 4s")] eq_refl).
    intros [_ [[? H]|[? H]]]; by rewrite lookup_empty in H.
Defined.

Lemma create_inputs_keeps_files_witness :
  let args := {| CliTools.lobsterinout := "lobsterin.lobsterpy";
                 CliTools.incarout := "INCAR.lobsterpy";
                 CliTools.overwrite := false;
                 CliTools.userbasis := None |} in
  let fs : gmap string string := {[ "POSCAR" := "Na Cl" ]} in
  (CliTools.create_inputs (λ _, Ok [∅; ∅]) (λ _ b, Ok b)
     (λ _ _ _, Ok "lobsterin") (λ _ _ _, Ok "incar") args fs).2 !! "POSCAR"
  = Some "Na Cl".
Proof.
  intros args fs.
  rewrite (create_inputs_keeps_files (λ _, Ok [∅; ∅]) (λ _ b, Ok b)
             (λ _ _ _, Ok "lobsterin") (λ _ _ _, Ok "incar") args fs "POSCAR").
  - reflexivity.
  - reflexivity.
  - vm_compute. eauto.
Defined.

(** ** The [plot] action: the curves it adds *)

Section AssignFacts.
Import Cli.
Context {Cohp : Type}.
Implicit Types (cp : list (string * Cohp)).

Lemma assign_fresh (key : string) (c : Cohp) cp :
  key ∉ map fst cp → assign key c cp = cp ++ [(key, c)].
Proof.
  induction cp as [|[k' c'] cp IH]; intros Hk; [done|].
  cbn [map fst] in Hk. rewrite not_elem_of_cons in Hk. destruct Hk as [Hne Hk].
  cbn [assign]. rewrite decide_False by done. by rewrite IH.
Qed.

Lemma assign_keys (key : string) (c : Cohp) cp (k : string) :
  k ∈ map fst (assign key c cp) ↔ k = key ∨ k ∈ map fst cp.
Proof.
  induction cp as [|[k' c'] cp IH]; cbn [assign map fst].
  - rewrite list_elem_of_singleton. split; [by left|]. intros [?|H]; [done|].
    by apply elem_of_nil in H.
  - destruct (decide (key = k')) as [->|Hne]; cbn [map fst];
      rewrite !elem_of_cons; [tauto|]. rewrite IH. tauto.
Qed.

Lemma assign_NoDup (key : string) (c : Cohp) cp :
  NoDup (map fst cp) → NoDup (map fst (assign key c cp)).
Proof.
  induction cp as [|[k' c'] cp IH]; intros Hnd; cbn [assign map fst].
  - apply NoDup_singleton.
  - cbn [map fst] in Hnd. apply NoDup_cons in Hnd as [Hk' Hnd].
    destruct (decide (key = k')) as [->|Hne]; cbn [map fst].
    + by apply NoDup_cons.
    + apply NoDup_cons. split; [|by apply IH].
      rewrite assign_keys. intros [?|?]; [congruence|done].
Qed.

(** What the dict holds comes from the assignments or was there before. *)
Lemma assign_elem (key : string) (c : Cohp) cp (kc : string * Cohp) :
  kc ∈ assign key c cp → kc = (key, c) ∨ kc ∈ cp.
Proof.
  induction cp as [|[k' c'] cp IH]; cbn [assign].
  - intros H%list_elem_of_singleton. by left.
  - destruct (decide (key = k')) as [->|Hne]; rewrite !elem_of_cons.
    + tauto.
    + intros [?|H]; [tauto|]. destruct (IH H); tauto.
Qed.

Lemma assign_all_keys (curves : list (string * Cohp)) cp (k : string) :
  k ∈ map fst (assign_all curves cp) ↔ k ∈ map fst curves ∨ k ∈ map fst cp.
Proof.
  revert cp. induction curves as [|[key c] curves IH]; intros cp.
  - cbn. split; [by right|]. intros [H|?]; [|done]. by apply elem_of_nil in H.
  - unfold assign_all. cbn [foldl map fst snd].
    fold (assign_all curves (assign key c cp)).
    rewrite IH, assign_keys, elem_of_cons. tauto.
Qed.

Lemma assign_all_NoDup (curves : list (string * Cohp)) cp :
  NoDup (map fst cp) → NoDup (map fst (assign_all curves cp)).
Proof.
  revert cp. induction curves as [|[key c] curves IH]; intros cp Hnd; [done|].
  unfold assign_all. cbn [foldl fst snd]. apply IH. by apply assign_NoDup.
Qed.

Lemma assign_all_elem (curves : list (string * Cohp)) cp (kc : string * Cohp) :
  kc ∈ assign_all curves cp → kc ∈ curves ∨ kc ∈ cp.
Proof.
  revert cp. induction curves as [|[key c] curves IH]; intros cp.
  - cbn. by right.
  - unfold assign_all. cbn [foldl fst snd]. intros H.
    destruct (IH _ H) as [?|H']; [left; apply elem_of_cons; by right|].
    destruct (assign_elem _ _ _ _ H') as [->|?]; [|by right].
    left. apply elem_of_cons. by left.
Qed.

(** New labels, all different, are added at the end in their order. *)
Lemma assign_all_fresh (curves : list (string * Cohp)) cp :
  NoDup (map fst curves) →
  (∀ k, k ∈ map fst curves → k ∉ map fst cp) →
  assign_all curves cp = cp ++ curves.
Proof.
  revert cp. induction curves as [|[key c] curves IH]; intros cp Hnd Hfresh.
  - cbn. by rewrite app_nil_r.
  - cbn [map fst] in Hnd. apply NoDup_cons in Hnd as [Hkey Hnd].
    unfold assign_all. cbn [foldl fst snd].
    fold (assign_all curves (assign key c cp)).
    rewrite assign_fresh by (apply Hfresh, elem_of_cons; by left).
    rewrite IH, <- app_assoc; [done|done|].
    intros k Hk. rewrite map_app, elem_of_app. cbn [map fst].
    rewrite list_elem_of_singleton. intros [H|E]; [|by subst].
    revert H. apply Hfresh. apply elem_of_cons. by right.
Qed.

Lemma Forall2_keys {A : Type} (f : A → string)
    (R : A → string * Cohp → Prop)
    (l : list A) (curves : list (string * Cohp)) :
  (∀ a kc, R a kc → kc.1 = f a) →
  Forall2 R l curves → map fst curves = map f l.
Proof.
  intros HR. induction 1 as [|a kc l curves H _ IH]; [done|].
  cbn [map]. by rewrite (HR _ _ H), IH.
Qed.
End AssignFacts.

Section PlotFacts.
Import Cli.
Context {Cohp Figure : Type}.
Variable py_int : string → result Z.
Implicit Types (cc : @CompleteCohp Cohp) (cp : list (string * Cohp)).

Lemma check_labels_present cc (l : list Z) cp :
  (∀ label, label ∈ l → py_str label ∈ bonds_keys cc) →
  for_each (check_label py_int cc) l cp = (Ok (), cp).
Proof.
  induction l as [|x l IH]; intros Hl; [done|].
  simpl. unfold pbind at 1.
  rewrite check_label_present by (apply Hl, elem_of_cons; by left).
  apply IH. intros label Hin. apply Hl, elem_of_cons. by right.
Qed.

(** The loop of line 407: one [add_cohp] for each label, in order. *)
Lemma add_plain_curves cc (l : list Z) cp :
  (∀ label, label ∈ l → ∃ c, get_cohp_by_label cc (py_str label) = Ok c) →
  ∃ curves,
    Forall2 (λ label kc, kc.1 = py_str label
                         ∧ get_cohp_by_label cc (py_str label) = Ok kc.2)
      l curves
    ∧ for_each (λ label,
          pbind (lift (get_cohp_by_label cc (py_str label)))
            (λ c, add_cohp (py_str label) c)) l cp
      = (Ok (), assign_all curves cp).
Proof.
  revert cp. induction l as [|x l IH]; intros cp Hl.
  - exists []. split; [constructor|]. done.
  - destruct (Hl x) as [c Hc]; [apply elem_of_cons; by left|].
    destruct (IH (assign (py_str x) c cp)) as (curves & HF & E).
    { intros label Hin. apply Hl, elem_of_cons. by right. }
    exists ((py_str x, c) :: curves). split; [by constructor|].
    simpl. unfold pbind at 1. unfold pbind at 1. unfold lift at 1.
    rewrite Hc. unfold add_cohp at 1. by rewrite E.
Qed.

(** The inner loop of line 437: one curve for each available orbital. *)
Lemma add_all_orbitals cc (label : Z) (orbs : list string) cp :
  (∀ o, o ∈ orbs → ∃ c, get_orbital_resolved_cohp cc (py_str label) o = Ok c) →
  ∃ curves,
    Forall2 (λ o kc, kc.1 = py_str label +:+ ": " +:+ o
                     ∧ get_orbital_resolved_cohp cc (py_str label) o = Ok kc.2)
      orbs curves
    ∧ for_each (add_orbital cc label) orbs cp = (Ok (), assign_all curves cp).
Proof.
  revert cp. induction orbs as [|o orbs IH]; intros cp Ho.
  - exists []. split; [constructor|]. done.
  - destruct (Ho o) as [c Hc]; [apply elem_of_cons; by left|].
    destruct (IH (assign (py_str label +:+ ": " +:+ o) c cp))
      as (curves & HF & E).
    { intros o' Hin. apply Ho, elem_of_cons. by right. }
    exists ((py_str label +:+ ": " +:+ o, c) :: curves). split; [by constructor|].
    simpl. unfold pbind at 1. unfold add_orbital at 1.
    unfold pbind at 1. unfold lift at 1.
    rewrite Hc. unfold add_cohp at 1. by rewrite E.
Qed.

End PlotFacts.

(** X7: without [--summed] and [--orbitalwise], when every requested bond
    number is a key of the store and every curve is found, the [plot] action
    assigns the curve of each requested number, in the order of the request,
    to the plotter's dict under the number, and then makes the figure from
    this dict. The dict has one curve for each different number of the
    request, the curve of that number, so a number given twice gives one
    curve; when the numbers are all different the dict holds the curves in
    the order of the request. *)
Theorem run_plot_adds_requested {Cohp Figure : Type}
    (py_int : string → result Z)
    (get_plot : list (string * Cohp) → result Figure)
    (cc : @Cli.CompleteCohp Cohp) (args : Cli.plot_args) :
  Cli.summed args = false →
  Cli.truthy (Cli.orbitalwise args) = None →
  (∀ label, label ∈ Cli.bond_numbers args →
     Cli.py_str label ∈ Cli.bonds_keys cc
     ∧ ∃ c, Cli.get_cohp_by_label cc (Cli.py_str label) = Ok c) →
  ∃ curves cp,
    Forall2 (λ label kc,
               kc.1 = Cli.py_str label
               ∧ Cli.get_cohp_by_label cc (Cli.py_str label) = Ok kc.2)
      (Cli.bond_numbers args) curves
    ∧ cp = Cli.assign_all curves []
    ∧ Cli.run_plot py_int get_plot cc args = (get_plot cp, cp)
    ∧ NoDup (map fst cp)
    ∧ (∀ key, key ∈ map fst cp
              ↔ key ∈ map Cli.py_str (Cli.bond_numbers args))
    ∧ (∀ key c, (key, c) ∈ cp → Cli.get_cohp_by_label cc key = Ok c)
    ∧ (NoDup (Cli.bond_numbers args) → cp = curves).
Proof.
  intros Hs Ho Hl.
  destruct (add_plain_curves cc (Cli.bond_numbers args) [])
    as (curves & HF & E).
  { intros label Hin. by apply Hl. }
  pose proof (Forall2_keys Cli.py_str _ _ _ (λ a kc H, proj1 H) HF) as Hkeys.
  exists curves, (Cli.assign_all curves []). split; [exact HF|].
  split; [done|]. split; [|split; [|split; [|split]]].
  - unfold Cli.run_plot, Cli.fill_plotter. rewrite Hs, Ho. cbn [negb].
    unfold Cli.pbind at 1. unfold Cli.pbind at 1.
    rewrite (check_labels_present py_int cc (Cli.bond_numbers args) [])
      by (intros label Hin; exact (proj1 (Hl label Hin))).
    rewrite E. reflexivity.
  - apply assign_all_NoDup. constructor.
  - intros key. rewrite assign_all_keys, Hkeys. split; [|by left].
    intros [?|H]; [done|]. by apply elem_of_nil in H.
  - intros key c Hin. apply assign_all_elem in Hin as [Hin|Hin].
    + apply list_elem_of_lookup in Hin as [i Hi].
      destruct (Forall2_lookup_r _ _ _ _ _ HF Hi) as (label & _ & Hk & Hc).
      cbn in Hk, Hc. by subst.
    + by apply elem_of_nil in Hin.
  - intros Hnd. rewrite assign_all_fresh; [done| |].
    + rewrite Hkeys. apply (NoDup_fmap_2 _). exact Hnd.
    + intros k _ H. by apply elem_of_nil in H.
Qed.

Lemma run_plot_adds_requested_witness :
  let cc : @Cli.CompleteCohp nat :=
    {| Cli.bonds_keys := ["1"; "2"];
       Cli.orb_res_cohp := None;
       Cli.get_cohp_by_label := λ l, Ok (String.length l);
       Cli.get_orbital_resolved_cohp := λ _ _, Ok 0;
       Cli.get_summed_cohp_by_label_list := λ _, Ok 0 |} in
  let args := {| Cli.bond_numbers := [2; 1; 2]%Z; Cli.summed := false;
                 Cli.orbitalwise := None |} in
  Cli.run_plot (λ _, Ok 0%Z) (λ cp, Ok (length cp)) cc args
  = (Ok 2, [("2", 1); ("1", 1)]).
Proof.
  intros cc args.
  destruct (run_plot_adds_requested (λ _, Ok 0%Z) (λ cp, Ok (length cp)) cc args)
    as (curves & cp & HF & Hcp & E & _).
  - reflexivity.
  - reflexivity.
  - intros label Hin. split; [|simpl; eauto].
    apply list_elem_of_In in Hin. apply list_elem_of_In.
    simpl in Hin. destruct Hin as [<-|[<-|[<-|[]]]]; vm_compute; tauto.
  - rewrite E. clear E.
    assert (curves = [("2", 1); ("1", 1); ("2", 1)]) as ->.
    { cbn in HF.
      apply Forall2_cons_inv_l in HF as ([k1 c1] & r1 & [H1 H1'] & HF & ->).
      apply Forall2_cons_inv_l in HF as ([k2 c2] & r2 & [H2 H2'] & HF & ->).
      apply Forall2_cons_inv_l in HF as ([k3 c3] & r3 & [H3 H3'] & HF & ->).
      apply Forall2_nil_inv_l in HF as ->.
      cbn in *. injection H1' as <-. injection H2' as <-. injection H3' as <-.
      by subst. }
    subst cp. reflexivity.
Defined.

(** X8: with [--orbitalwise], when every requested bond number is a key of
    the store but the number of orbitals differs from the number of bond
    numbers, the [plot] action raises its [IndexError] before any curve is
    added. *)
Theorem run_plot_orbital_count {Cohp Figure : Type}
    (py_int : string → result Z)
    (get_plot : list (string * Cohp) → result Figure)
    (cc : @Cli.CompleteCohp Cohp) (args : Cli.plot_args)
    (orbs : list string) :
  Cli.summed args = false →
  Cli.orbitalwise args = Some orbs → orbs ≠ [] →
  (∀ label, label ∈ Cli.bond_numbers args →
     Cli.py_str label ∈ Cli.bonds_keys cc) →
  length (Cli.bond_numbers args) ≠ length orbs →
  Cli.run_plot py_int get_plot cc args
  = (Raise (IndexError Cli.length_error_msg), []).
Proof.
  intros Hs Ho Hne Hl Hlen.
  unfold Cli.run_plot, Cli.fill_plotter. rewrite Hs, Ho. cbn [negb].
  unfold Cli.pbind at 1. unfold Cli.pbind at 1.
  rewrite (check_labels_present py_int cc) by done.
  destruct orbs as [|o orbs]; [done|]. cbn [Cli.truthy].
  by rewrite bool_decide_eq_true_2.
Qed.

Lemma run_plot_orbital_count_witness :
  let cc : @Cli.CompleteCohp nat :=
    {| Cli.bonds_keys := ["1"; "2"];
       Cli.orb_res_cohp := None;
       Cli.get_cohp_by_label := λ _, Ok 0;
       Cli.get_orbital_resolved_cohp := λ _ _, Ok 0;
       Cli.get_summed_cohp_by_label_list := λ _, Ok 0 |} in
  let args := {| Cli.bond_numbers := [1; 2]%Z; Cli.summed := false;
                 Cli.orbitalwise := Some ["2s-2s"] |} in
  Cli.run_plot (λ _, Ok 0%Z) (λ cp, Ok (length cp)) cc args
  = (Raise (IndexError Cli.length_error_msg), []).
Proof.
  intros cc args.
  apply (run_plot_orbital_count (λ _, Ok 0%Z) (λ cp, Ok (length cp)) cc args
           ["2s-2s"]).
  - reflexivity.
  - reflexivity.
  - discriminate.
  - intros label Hin. apply list_elem_of_In in Hin. apply list_elem_of_In.
    simpl in Hin. destruct Hin as [<-|[<-|[]]]; vm_compute; tauto.
  - simpl. lia.
Defined.

(** X9: for one bond and its orbital argument, the body of the orbital loop
    raises its [IndexError] and adds nothing when the argument is neither
    an orbital stored for the bond nor [all]; for [all] it assigns one curve
    for each stored orbital, in the stored order, under
    [<label>: <orbital>]; for a stored orbital it assigns that one curve.
    An assignment under a label that the plotter does not hold adds the
    curve at the end: for [all], with stored orbitals that are all different
    and labels that are all new, the curves are added in the stored
    order. *)
Theorem add_orbitalwise_cases {Cohp : Type} (cc : @Cli.CompleteCohp Cohp)
    (label : Z) (orbitals : string) (availableorbitals : list string)
    (cp : list (string * Cohp)) :
  Cli.available_orbitals cc label = Ok availableorbitals →
  (orbitals ∉ availableorbitals → orbitals ≠ "all" →
   Cli.add_orbitalwise cc (label, orbitals) cp
   = (Raise (IndexError
               (Cli.orbital_error_msg label (availableorbitals ++ ["all"]))),
      cp))
  ∧ (orbitals = "all" →
     (∀ o, o ∈ availableorbitals →
        ∃ c, Cli.get_orbital_resolved_cohp cc (Cli.py_str label) o = Ok c) →
     ∃ curves,
       Forall2 (λ o kc,
                  kc.1 = Cli.py_str label +:+ ": " +:+ o
                  ∧ Cli.get_orbital_resolved_cohp cc (Cli.py_str label) o
                    = Ok kc.2)
         availableorbitals curves
       ∧ Cli.add_orbitalwise cc (label, orbitals) cp
         = (Ok (), Cli.assign_all curves cp)
       ∧ (NoDup availableorbitals →
          (∀ key, key ∈ map fst curves → key ∉ map fst cp) →
          Cli.assign_all curves cp = cp ++ curves))
  ∧ (orbitals ∈ availableorbitals → orbitals ≠ "all" →
     ∀ c, Cli.get_orbital_resolved_cohp cc (Cli.py_str label) orbitals = Ok c →
     Cli.add_orbitalwise cc (label, orbitals) cp
     = (Ok (), Cli.assign (Cli.py_str label +:+ ": " +:+ orbitals) c cp)
     ∧ (Cli.py_str label +:+ ": " +:+ orbitals ∉ map fst cp →
        Cli.assign (Cli.py_str label +:+ ": " +:+ orbitals) c cp
        = cp ++ [(Cli.py_str label +:+ ": " +:+ orbitals, c)])).
Proof.
  intros Hav. unfold Cli.add_orbitalwise.
  unfold Cli.pbind at 1. unfold Cli.pbind at 1. unfold Cli.pbind at 1.
  unfold Cli.lift at 1. unfold Cli.lift at 1. unfold Cli.lift at 1.
  rewrite Hav.
  split; [|split].
  - intros Hno Hall. rewrite bool_decide_eq_false_2; [done|].
    rewrite elem_of_app, list_elem_of_singleton. tauto.
  - intros -> Hget. rewrite bool_decide_eq_true_2.
    2:{ rewrite elem_of_app, list_elem_of_singleton. tauto. }
    rewrite bool_decide_eq_false_2 by tauto.
    destruct (add_all_orbitals cc label availableorbitals cp Hget)
      as (curves & HF & E).
    exists curves. split; [exact HF|]. split; [exact E|].
    intros Hnd Hfresh. apply assign_all_fresh; [|exact Hfresh].
    rewrite (Forall2_keys (λ o, Cli.py_str label +:+ ": " +:+ o) _ _ _
               (λ a kc H, proj1 H) HF).
    apply (NoDup_fmap_2 _). exact Hnd.
  - intros Hin Hall c Hc. rewrite bool_decide_eq_true_2.
    2:{ rewrite elem_of_app. tauto. }
    rewrite bool_decide_eq_true_2 by done.
    split; [|apply assign_fresh].
    unfold Cli.add_orbital, Cli.pbind, Cli.lift. rewrite Hc. reflexivity.
Qed.

Lemma add_orbitalwise_cases_witness :
  let cc : @Cli.CompleteCohp nat :=
    {| Cli.bonds_keys := ["1"];
       Cli.orb_res_cohp := Some {[ "1" := ["2s-2s"; "2s-2px"] ]};
       Cli.get_cohp_by_label := λ _, Ok 0;
       Cli.get_orbital_resolved_cohp := λ _ o, Ok (String.length o);
       Cli.get_summed_cohp_by_label_list := λ _, Ok 0 |} in
  Cli.add_orbitalwise cc (1%Z, "3d-3d") []
  = (Raise (IndexError
              (Cli.orbital_error_msg 1 ["2s-2s"; "2s-2px"; "all"])), []).
Proof.
  intros cc.
  apply (proj1 (add_orbitalwise_cases cc 1%Z "3d-3d" ["2s-2s"; "2s-2px"] []
                  eq_refl)).
  - intros Hin. apply list_elem_of_In in Hin. simpl in Hin.
    destruct Hin as [H|[H|[]]]; discriminate H.
  - discriminate.
Defined.

(** ** The kernel of [_broaden] *)

Section MeshFacts.
Import Plotting.
Local Open Scope Q_scope.

Lemma arange_entries (float_ceil_div : Q → Q → Z) (stop step : Q)
    (kernel_x : list Q) :
  arange float_ceil_div 0 stop step = Some kernel_x →
  kernel_x = map (λ i, 0 + inject_Z (Z.of_nat i) * step)
               (seq 0 (length kernel_x)).
Proof.
  unfold arange. destruct (Qeq_bool step 0); [done|].
  intros [= <-]. by rewrite length_map, length_seq.
Qed.

Lemma inject_nat_ge (i k : nat) : (k ≤ i)%nat →
  inject_Z (Z.of_nat k) <= inject_Z (Z.of_nat i).
Proof. intros H. rewrite <- Zle_Qle. lia. Qed.
End MeshFacts.

(** X10: for a positive spacing, the kernel mesh that [_broaden] builds
    from an [arange] of at least two entries holds the spacing itself but
    not its negative: the slice [kernel_x[-1:1:-1]] stops before index 1, so
    the mesh is not symmetric about zero and has [2n - 2] entries for [n]
    entries of the [arange], however the length of the [arange] is
    rounded. *)
Theorem kernel_mesh_not_symmetric (float_ceil_div : Q → Q → Z)
    (stop step : Q) (kernel_x : list Q) :
  (0 < step)%Q →
  Plotting.arange float_ceil_div 0 stop step = Some kernel_x →
  2 ≤ length kernel_x →
  (∃ x, x ∈ Plotting.kernel_mesh kernel_x ∧ (x == step)%Q)
  ∧ (∀ x, x ∈ Plotting.kernel_mesh kernel_x → ¬ (x == - step)%Q)
  ∧ length (Plotting.kernel_mesh kernel_x) = 2 * length kernel_x - 2.
Proof.
  intros Hstep Har Hlen.
  pose proof (arange_entries float_ceil_div stop step kernel_x Har) as Hk.
  set (n := length kernel_x) in *.
  set (f := λ i : nat, (0 + inject_Z (Z.of_nat i) * step)%Q) in *.
  assert (Hdrop : drop 2 kernel_x = map f (seq 2 (n - 2))).
  { rewrite Hk. change (map f (seq 0 n)) with (f <$> seq 0 n).
    rewrite <- fmap_drop, drop_seq. reflexivity. }
  unfold Plotting.kernel_mesh, Plotting.slice_last_to_1_rev.
  split; [|split].
  - exists (f 1%nat). split.
    + apply elem_of_app. right. rewrite Hk.
      apply (list_elem_of_fmap_2 f). apply elem_of_seq. lia.
    + unfold f. simpl. ring.
  - intros x Hx. apply elem_of_app in Hx as [Hx|Hx].
    + apply list_elem_of_fmap in Hx as (y & -> & Hy).
      apply list_elem_of_In, in_rev, list_elem_of_In in Hy. rewrite Hdrop in Hy.
      apply list_elem_of_fmap in Hy as (i & -> & Hi).
      apply elem_of_seq in Hi as [Hi _].
      pose proof (inject_nat_ge i 2 Hi) as Hq. unfold f.
      set (q := inject_Z (Z.of_nat i)) in *.
      change (inject_Z (Z.of_nat 2)) with (2%Q) in Hq.
      intros Heq. nra.
    + rewrite Hk in Hx.
      apply list_elem_of_fmap in Hx as (i & -> & Hi).
      pose proof (inject_nat_ge i 0 (Nat.le_0_l i)) as Hq. unfold f.
      set (q := inject_Z (Z.of_nat i)) in *.
      change (inject_Z (Z.of_nat 0)) with (0%Q) in Hq.
      intros Heq. nra.
  - rewrite length_app, length_map, length_rev, length_drop. fold n. lia.
Qed.

Lemma kernel_mesh_not_symmetric_witness :
  length (Plotting.kernel_mesh [0; 1; 2; 3; 4]%Q) = 8
  ∧ ∀ x, x ∈ Plotting.kernel_mesh [0; 1; 2; 3; 4]%Q → ¬ (x == - (1))%Q.
Proof.
  destruct (kernel_mesh_not_symmetric Plotting.exact_ceil_div (45 # 10) 1
              [0; 1; 2; 3; 4]%Q)
    as (_ & Hneg & Hlen).
  - reflexivity.
  - reflexivity.
  - simpl. lia.
  - split; [exact Hlen|exact Hneg].
Defined.

(** ** [PlainCohpPlotter.get_plot] *)

Section PlainPlotFacts.
Import PlainPlot.
Variable norm_pdf : Q → Q → Q.
Variable float_ceil_div : Q → Q → Z.
Variable colors : list string.
Variable auto_xlim : list line → Q * Q.
Variables are_coops are_cobis zero_at_efermi : bool.

Lemma spin_line_swap pn sigma i key es up pop :
  spin_line norm_pdf float_ceil_div colors pn true sigma i key es up pop
  = pthen (spin_line norm_pdf float_ceil_div colors pn false sigma i key es up pop)
      (λ l, Fine (swap_line l)).
Proof.
  unfold spin_line.
  destruct (Plotting._broaden norm_pdf float_ceil_div es (negate_if pn pop) sigma _)
    as [b|e]; simpl; [|done].
  by destruct (color_of colors i).
Qed.

Lemma key_lines_swap pn integrated sigma i key entry :
  key_lines norm_pdf float_ceil_div colors pn integrated true sigma i key entry
  = pthen (key_lines norm_pdf float_ceil_div colors pn integrated false sigma i key entry)
      (λ ls, Fine (map swap_line ls)).
Proof.
  unfold key_lines.
  destruct (stored_populations integrated entry) as [pops|]; [|done].
  cbn [pthen].
  destruct (spin_up pops) as [pu|], (spin_down pops) as [pd|];
    rewrite ?spin_line_swap; simpl; try done.
  - destruct (spin_line _ _ _ pn false sigma i key _ true pu); simpl; [|done].
    destruct (spin_line _ _ _ pn false sigma i key _ false pd); simpl; done.
  - destruct (spin_line _ _ _ pn false sigma i key _ true pu); simpl; done.
  - destruct (spin_line _ _ _ pn false sigma i key _ false pd); simpl; done.
Qed.

Lemma all_lines_swap pn integrated sigma i cohps :
  all_lines norm_pdf float_ceil_div colors pn integrated true sigma i cohps
  = pthen (all_lines norm_pdf float_ceil_div colors pn integrated false sigma i cohps)
      (λ ls, Fine (map swap_line ls)).
Proof.
  revert i. induction cohps as [|[key entry] rest IH]; intros i; [done|].
  simpl. rewrite key_lines_swap, IH.
  destruct (key_lines _ _ _ pn integrated false sigma i key entry); simpl; [|done].
  destruct (all_lines _ _ _ pn integrated false sigma (S i) rest); simpl; [|done].
  by rewrite map_app.
Qed.
End PlainPlotFacts.

(** X11: [get_plot] with [invert_axes=True] draws the lines of
    [invert_axes=False] with x and y exchanged (same colors, styles and
    labels), exchanges the axis labels and the two grid-like lines, and
    raises exactly when the other orientation raises, with the same
    exception: the broadening acts on the population whichever axis carries
    it. The limits are not part of the exchange. *)
Theorem get_plot_invert_axes (norm_pdf : Q → Q → Q)
    (float_ceil_div : Q → Q → Z) (colors : list string)
    (auto_xlim : list PlainPlot.line → Q * Q)
    (are_coops are_cobis zero_at_efermi : bool)
    (_cohps : list (string * PlainPlot.cohp_entry))
    (xlim ylim xlim' ylim' : option (Q * Q)) (plot_negative : option bool)
    (integrated : bool) (sigma : option Q) :
  match PlainPlot.get_plot norm_pdf float_ceil_div colors auto_xlim are_coops are_cobis
          zero_at_efermi _cohps xlim ylim plot_negative integrated false sigma,
        PlainPlot.get_plot norm_pdf float_ceil_div colors auto_xlim are_coops are_cobis
          zero_at_efermi _cohps xlim' ylim' plot_negative integrated true sigma
  with
  | PlainPlot.Fine p, PlainPlot.Fine q =>
    PlainPlot.lines q = map PlainPlot.swap_line (PlainPlot.lines p)
    ∧ PlainPlot.xlabel q = PlainPlot.ylabel p
    ∧ PlainPlot.ylabel q = PlainPlot.xlabel p
    ∧ PlainPlot.axvline q = PlainPlot.axhline p
    ∧ PlainPlot.axhline q = PlainPlot.axvline p
  | PlainPlot.Throw e, PlainPlot.Throw e' => e = e'
  | _, _ => False
  end.
Proof.
  unfold PlainPlot.get_plot. rewrite all_lines_swap.
  destruct (PlainPlot.all_lines _ _ _ _ integrated false sigma 0 _cohps)
    as [ls|e]; simpl; [|done].
  destruct zero_at_efermi; simpl; [done|].
  destruct (PlainPlot.last_efermi _cohps); simpl; done.
Qed.

Section LimitFacts.
Local Open Scope Q_scope.

Lemma foldl_Qmin_le (l : list Q) (x : Q) :
  foldl Qmin x l <= x ∧ ∀ y, y ∈ l → foldl Qmin x l <= y.
Proof.
  revert x. induction l as [|z l IH]; intros x; simpl.
  - split; [lra|]. intros y Hy. by apply elem_of_nil in Hy.
  - destruct (IH (Qmin x z)) as [H1 H2].
    pose proof (Q.le_min_l x z). pose proof (Q.le_min_r x z).
    split; [lra|].
    intros y Hy. apply elem_of_cons in Hy as [->|Hy]; [lra|by apply H2].
Qed.

Lemma Qmin_cases (x y : Q) : Qmin x y = x ∨ Qmin x y = y.
Proof.
  unfold Qmin, GenericMinMax.gmin. destruct (x ?= y); auto.
Qed.

Lemma foldl_Qmin_in (l : list Q) (x : Q) : foldl Qmin x l ∈ x :: l.
Proof.
  revert x. induction l as [|z l IH]; intros x; simpl.
  - apply elem_of_cons; by left.
  - specialize (IH (Qmin x z)). apply elem_of_cons in IH as [E|IH].
    + rewrite E. destruct (Qmin_cases x z) as [->| ->].
      * apply elem_of_cons; by left.
      * apply elem_of_cons; right. apply elem_of_cons; by left.
    + apply elem_of_cons; right. apply elem_of_cons; by right.
Qed.

Lemma elem_of_relevant_y (xlim : Q * Q) (pts : list (Q * Q)) (y : Q) :
  y ∈ PlainPlot.relevant_y xlim pts
  ↔ ∃ x, (x, y) ∈ pts ∧ xlim.1 < x ∧ x < xlim.2.
Proof.
  unfold PlainPlot.relevant_y. rewrite list_elem_of_fmap. split.
  - intros ([x y'] & -> & H). apply list_elem_of_filter in H as [Hp Hin].
    apply andb_prop_elim in Hp as [H1 H2].
    unfold PlainPlot.Qlt_bool in *. simpl in *.
    exists x. split; [done|]. split; apply Qnot_le_lt; intros Hle;
      apply Qle_bool_iff in Hle; [rewrite Hle in H1|rewrite Hle in H2]; done.
  - intros (x & Hin & H1 & H2). exists (x, y). split; [done|].
    apply list_elem_of_filter. split; [|done].
    apply andb_prop_intro. unfold PlainPlot.Qlt_bool. simpl.
    split; apply negb_prop_intro; intros Hle%Is_true_true%Qle_bool_iff; lra.
Qed.
End LimitFacts.

(** X12: when no [ylim] is passed and [get_plot] returns, it sets the y
    limits to the least and the greatest y among the points whose x lies
    strictly between the x limits, so every such point of every line is
    inside the y range and both limits are reached; when no point lies
    strictly between the x limits it sets no y limits. *)
Theorem get_plot_auto_ylim (norm_pdf : Q → Q → Q)
    (float_ceil_div : Q → Q → Z) (colors : list string)
    (auto_xlim : list PlainPlot.line → Q * Q)
    (are_coops are_cobis zero_at_efermi : bool)
    (_cohps : list (string * PlainPlot.cohp_entry))
    (xlim : option (Q * Q)) (plot_negative : option bool)
    (integrated invert_axes : bool) (sigma : option Q) (p : PlainPlot.plot) :
  PlainPlot.get_plot norm_pdf float_ceil_div colors auto_xlim are_coops are_cobis
    zero_at_efermi _cohps xlim None plot_negative integrated invert_axes sigma
  = PlainPlot.Fine p →
  let inside x := ((PlainPlot.xlim p).1 < x ∧ x < (PlainPlot.xlim p).2)%Q in
  let pts := PlainPlot.all_points (PlainPlot.lines p) in
  (∀ v, xlim = Some v → PlainPlot.xlim p = v)
  ∧ (PlainPlot.ylim p = None ↔ ∀ x y, (x, y) ∈ pts → ¬ inside x)
  ∧ (∀ lo hi, PlainPlot.ylim p = Some (lo, hi) →
       (∀ x y, (x, y) ∈ pts → inside x → (lo <= y ∧ y <= hi)%Q)
       ∧ (∃ x, (x, lo) ∈ pts ∧ inside x)
       ∧ (∃ x, (x, hi) ∈ pts ∧ inside x)).
Proof.
  unfold PlainPlot.get_plot.
  destruct (PlainPlot.all_lines _ _ _ _ _ _ _ _) as [ls|e]; [|done].
  cbn [PlainPlot.pthen].
  set (xl := match xlim with Some l => l | None => auto_xlim ls end).
  destruct (if zero_at_efermi then _ else _) as [fermi|e]; [|done].
  cbn [PlainPlot.pthen]. intros [= <-]. cbn.
  pose proof (elem_of_relevant_y xl (PlainPlot.all_points ls)) as Hrel.
  split; [|split].
  - intros v ->. done.
  - destruct (PlainPlot.relevant_y xl (PlainPlot.all_points ls)) as [|y ys].
    + split; [|done]. intros _ x y Hin Hx.
      assert (y ∈ @nil Q) as Hy by (apply Hrel; eauto).
      by apply elem_of_nil in Hy.
    + split; [done|]. intros Hnone. exfalso.
      destruct (proj1 (Hrel y)) as (x & Hin & Hx); [apply elem_of_cons; by left|].
      by apply (Hnone x y).
  - intros lo hi.
    destruct (PlainPlot.relevant_y xl (PlainPlot.all_points ls)) as [|y ys];
      [done|].
    intros [= <- <-]. unfold PlainPlot.list_min, PlainPlot.list_max.
    destruct (foldl_Qmin_le ys y) as [Hm1 Hm2].
    destruct (foldl_Qmax_ge ys y) as [HM1 HM2].
    split; [|split].
    + intros x y' Hin Hx.
      assert (y' ∈ y :: ys) as Hy by (apply Hrel; eauto).
      apply elem_of_cons in Hy as [->|Hy]; split; auto.
    + apply Hrel. apply foldl_Qmin_in.
    + apply Hrel. apply foldl_Qmax_in.
Qed.

Lemma get_plot_auto_ylim_witness :
  ∃ p, PlainPlotSample.run (Some (- (5 # 2), 0)%Q) = PlainPlot.Fine p
    ∧ PlainPlot.ylim p = Some (0, 1)%Q
    ∧ ∀ x y, (x, y) ∈ PlainPlot.all_points (PlainPlot.lines p) →
        ((PlainPlot.xlim p).1 < x ∧ x < (PlainPlot.xlim p).2)%Q →
        (0 <= y ∧ y <= 1)%Q.
Proof.
  assert (H : ∃ p, PlainPlotSample.run (Some (- (5 # 2), 0)%Q) = PlainPlot.Fine p
                ∧ PlainPlot.ylim p = Some (0, 1)%Q).
  { eexists. split; vm_compute; reflexivity. }
  destruct H as (p & H & Hy). exists p. split; [exact H|]. split; [exact Hy|].
  destruct (get_plot_auto_ylim (λ _ _, 1%Q) Plotting.exact_ceil_div
              ["#e41a1c"] (λ _, (0, 1)%Q)
              false false true [("1", PlainPlotSample.entry)]
              (Some (- (5 # 2), 0)%Q) None false true None p H)
    as (_ & _ & Hb).
  exact (proj1 (Hb _ _ Hy)).
Defined.

Section UnbroadenedFacts.
Import PlainPlot.
Variable norm_pdf : Q → Q → Q.
Variable float_ceil_div : Q → Q → Z.
Variable colors : list string.
Local Abbreviation stored integrated :=
  (λ ke : string * cohp_entry, stored_populations integrated ke.2).





Lemma stored_cases integrated (cohps : list (string * cohp_entry)) :
  Forall (λ ke, is_Some (stored integrated ke)) cohps
  ∨ Exists (λ ke, stored integrated ke = None) cohps.
Proof.
  induction cohps as [|ke cohps [IH|IH]].
  - left. constructor.
  - destruct (stored_populations integrated ke.2) as [p|] eqn:E.
    + left. constructor; [|done]. cbn. rewrite E. eauto.
    + right. by constructor.
  - right. by constructor 2.
Qed.


End UnbroadenedFacts.



(** * [InteractiveCohpPlotter] *)

Section OdictFacts.
Import Interactive.
Context {V : Type}.
Implicit Types (d : list (string * V)) (k : string) (v : V).

Lemma od_get_set_eq d k v : od_get k (od_set k v d) = Some v.
Proof.
  induction d as [|[k' v'] d IH]; simpl.
  - by rewrite decide_True.
  - destruct (decide (k = k')) as [->|Hne]; simpl.
    + by rewrite decide_True.
    + by rewrite decide_False.
Qed.

Lemma od_get_set_ne d k k' v : k ≠ k' → od_get k' (od_set k v d) = od_get k' d.
Proof.
  intros Hne. induction d as [|[k0 v0] d IH]; simpl.
  - by rewrite decide_False.
  - destruct (decide (k = k0)) as [->|Hne0]; simpl.
    + by rewrite !decide_False.
    + destruct (decide (k' = k0)); [done|exact IH].
Qed.

Lemma od_get_Some_keys d k : is_Some (od_get k d) ↔ k ∈ od_keys d.
Proof.
  unfold od_keys. induction d as [|[k' v'] d IH]; simpl.
  - split; [by intros [? ?]|by intros ?%elem_of_nil].
  - rewrite elem_of_cons. destruct (decide (k = k')) as [->|Hne].
    + split; eauto.
    + rewrite IH. split; [auto|]. by intros [?|?].
Qed.

Lemma od_get_None_keys d k : od_get k d = None ↔ k ∉ od_keys d.
Proof.
  split.
  - intros Hn Hin. apply od_get_Some_keys in Hin as [v Hv]. congruence.
  - intros Hn. destruct (od_get k d) eqn:E; [|done].
    exfalso. apply Hn, od_get_Some_keys. eauto.
Qed.

(** Setting a key that is there keeps the keys and their order; a new key
    goes to the end. *)
Lemma od_keys_set_in d k v : k ∈ od_keys d → od_keys (od_set k v d) = od_keys d.
Proof.
  unfold od_keys. induction d as [|[k' v'] d IH]; intros Hin.
  - by apply elem_of_nil in Hin.
  - cbn [od_set]. destruct (decide (k = k')) as [->|Hne]; [done|].
    cbn [map fst] in *. apply elem_of_cons in Hin as [?|Hin]; [done|].
    by rewrite IH.
Qed.

Lemma od_set_fresh d k v : k ∉ od_keys d → od_set k v d = d ++ [(k, v)].
Proof.
  unfold od_keys. induction d as [|[k' v'] d IH]; intros Hk; [done|].
  cbn [map fst] in Hk. rewrite not_elem_of_cons in Hk. destruct Hk as [Hne Hk].
  cbn [od_set]. rewrite decide_False by done. by rewrite IH.
Qed.

Lemma od_keys_set d k v :
  od_keys (od_set k v d)
  = if bool_decide (k ∈ od_keys d) then od_keys d else od_keys d ++ [k].
Proof.
  case_bool_decide as H.
  - by apply od_keys_set_in.
  - rewrite od_set_fresh by done. unfold od_keys. by rewrite map_app.
Qed.

Lemma od_set_set d k v v' : od_set k v (od_set k v' d) = od_set k v d.
Proof.
  induction d as [|[k' v0] d IH]; simpl.
  - by rewrite decide_True.
  - destruct (decide (k = k')) as [->|Hne]; simpl.
    + by rewrite decide_True.
    + rewrite decide_False by done. by rewrite IH.
Qed.

Lemma od_keys_NoDup_set d k v : NoDup (od_keys d) → NoDup (od_keys (od_set k v d)).
Proof.
  intros Hnd. rewrite od_keys_set. case_bool_decide; [done|].
  apply NoDup_app. split; [done|]. split.
  - intros x Hx ->%list_elem_of_singleton. done.
  - apply NoDup_singleton.
Qed.
End OdictFacts.

(** X14: [_update_cohps_data] raises [KeyError] and changes nothing when
    the group is missing; otherwise the group holds the new data under the
    key, its other entries are as before, the other groups are as before,
    and the groups keep their names and order. *)
Theorem update_cohps_data_lookup (label key : string)
    (entry : PlainPlot.cohp_entry)
    (st : list (string * list (string * PlainPlot.cohp_entry))) :
  (Interactive.od_get label st = None →
   Interactive._update_cohps_data label key entry st
   = (Raise (KeyError label), st))
  ∧ (∀ group, Interactive.od_get label st = Some group →
     ∃ st' group',
       Interactive._update_cohps_data label key entry st = (Ok (), st')
       ∧ Interactive.od_keys st' = Interactive.od_keys st
       ∧ Interactive.od_get label st' = Some group'
       ∧ Interactive.od_get key group' = Some entry
       ∧ (∀ key', key' ≠ key →
            Interactive.od_get key' group' = Interactive.od_get key' group)
       ∧ (∀ label', label' ≠ label →
            Interactive.od_get label' st' = Interactive.od_get label' st)).
Proof.
  unfold Interactive._update_cohps_data. split.
  - intros ->. done.
  - intros group Hg. rewrite Hg.
    eexists _, _. split; [reflexivity|].
    split; [|split; [|split; [|split]]].
    + rewrite od_keys_set. rewrite bool_decide_eq_true_2; [done|].
      apply od_get_Some_keys. eauto.
    + apply od_get_set_eq.
    + apply od_get_set_eq.
    + intros key' Hne. apply od_get_set_ne. congruence.
    + intros label' Hne. apply od_get_set_ne. congruence.
Qed.

Lemma update_cohps_data_lookup_witness :
  Interactive._update_cohps_data "All" "1" PlainPlotSample.entry
    [("Please", [])]
  = (Raise (KeyError "All"), [("Please", [])]).
Proof.
  apply (proj1 (update_cohps_data_lookup "All" "1" PlainPlotSample.entry
                  [("Please", [])])).
  reflexivity.
Defined.

Section StringFacts.
Import Interactive.

Lemma strip_prefix_char (c : Ascii.ascii) (s : string) :
  strip_prefix (String c EmptyString) s
  = match s with
    | String b s' => if Ascii.eqb c b then Some s' else None
    | EmptyString => None
    end.
Proof.
  destruct s as [|b s]; [done|]. simpl. by destruct (Ascii.eqb c b).
Qed.

Lemma list_of_app (s t : string) :
  String.list_ascii_of_string (s +:+ t)
  = String.list_ascii_of_string s ++ String.list_ascii_of_string t.
Proof. induction s as [|a s IH]; simpl; [done|]. by rewrite IH. Qed.

Lemma string_of_app (l k : list Ascii.ascii) :
  String.string_of_list_ascii (l ++ k)
  = String.string_of_list_ascii l +:+ String.string_of_list_ascii k.
Proof. induction l as [|a l IH]; simpl; [done|]. by rewrite IH. Qed.

Lemma string_rev_app (s t : string) :
  string_rev (s +:+ t) = string_rev t +:+ string_rev s.
Proof.
  unfold string_rev. by rewrite list_of_app, rev_app_distr, string_of_app.
Qed.

Lemma string_rev_involutive (s : string) : string_rev (string_rev s) = s.
Proof.
  unfold string_rev.
  by rewrite String.list_ascii_of_string_of_list_ascii, rev_involutive,
    String.string_of_list_ascii_of_string.
Qed.

Lemma string_rev_cons (a : Ascii.ascii) (s : string) :
  string_rev (String a s) = string_rev s +:+ String a EmptyString.
Proof. apply (string_rev_app (String a EmptyString) s). Qed.

Lemma all_chars_app (P : Ascii.ascii → bool) (s t : string) :
  all_chars P (s +:+ t) = all_chars P s && all_chars P t.
Proof.
  induction s as [|a s IH]; simpl; [done|]. by rewrite IH, andb_assoc.
Qed.

Lemma all_chars_rev (P : Ascii.ascii → bool) (s : string) :
  all_chars P (string_rev s) = all_chars P s.
Proof.
  induction s as [|a s IH]; [done|].
  rewrite string_rev_cons, all_chars_app, IH. simpl.
  rewrite andb_true_r. apply andb_comm.
Qed.

Lemma lstrip_all (P : Ascii.ascii → bool) (ds t : string) :
  all_chars P ds = true → lstrip P (ds +:+ t) = lstrip P t.
Proof.
  induction ds as [|a ds IH]; simpl; [done|].
  intros [Ha Hds]%andb_true_iff. rewrite Ha. by apply IH.
Qed.

(** Stripping removes the characters of the set around a core that begins
    and ends outside the set. *)
Lemma strip_core (P : Ascii.ascii → bool) (ds1 ds2 core : string)
    (a z : Ascii.ascii) (t u : string) :
  all_chars P ds1 = true → all_chars P ds2 = true →
  core = String a t → string_rev core = String z u →
  P a = false → P z = false →
  strip P (ds1 +:+ core +:+ ds2) = core.
Proof.
  intros H1 H2 Hc Hr Ha Hz. unfold strip.
  rewrite lstrip_all by done.
  assert (lstrip P (core +:+ ds2) = core +:+ ds2) as ->.
  { rewrite Hc. simpl. by rewrite Ha. }
  rewrite string_rev_app, lstrip_all by (by rewrite all_chars_rev).
  rewrite Hr. simpl. rewrite Hz. rewrite <- Hr. apply string_rev_involutive.
Qed.
Lemma strip_core_tail (P : Ascii.ascii → bool) (ds core : string)
    (a z : Ascii.ascii) (t u : string) :
  all_chars P ds = true →
  core = String a t → string_rev core = String z u →
  P a = false → P z = false →
  strip P (core +:+ ds) = core.
Proof.
  intros Hd Hc Hr Ha Hz.
  exact (strip_core P EmptyString ds core a z t u eq_refl Hd Hc Hr Ha Hz).
Qed.

Lemma app_empty_r (s : string) : s +:+ "" = s.
Proof.
  induction s as [|x s IH]; [done|].
  change (String x (s +:+ "") = String x s). by rewrite IH.
Qed.
End StringFacts.

(** X15: [_insert_number_of_bonds_in_label] with a separator of one
    character leaves a label without the separator as it is, and otherwise
    puts a space and the number right after the first separator and
    nowhere else. *)
Theorem insert_number_after_first (c : Ascii.ascii)
    (label number_of_bonds : string) :
  let character := String c EmptyString in
  let out := Interactive._insert_number_of_bonds_in_label label character
               number_of_bonds in
  (CliTools.has_char c label = false → out = label)
  ∧ (CliTools.has_char c label = true →
     ∃ pre post,
       label = pre +:+ String c post
       ∧ CliTools.has_char c pre = false
       ∧ out = pre +:+ String c (" " +:+ number_of_bonds +:+ post)).
Proof.
  intros character out. subst out character.
  unfold Interactive._insert_number_of_bonds_in_label.
  induction label as [|b s IH].
  - split; [done|done].
  - cbn [Interactive.replace_first]. rewrite strip_prefix_char.
    cbn [CliTools.has_char]. rewrite (Ascii.eqb_sym c b).
    destruct (Ascii.eqb_spec b c) as [->|Hne].
    + split; [done|]. intros _. exists EmptyString, s. done.
    + cbn [orb]. destruct IH as [IH1 IH2]. split.
      * intros Hs. by rewrite IH1.
      * intros Hs. destruct (IH2 Hs) as (pre & post & -> & Hpre & ->).
        exists (String b pre), post. split; [done|]. split; [|done].
        cbn [CliTools.has_char]. rewrite Hpre.
        by destruct (Ascii.eqb_spec b c).
Qed.

Lemma insert_number_after_first_witness :
  Interactive._insert_number_of_bonds_in_label "Na1: Na-Cl" ":" "6 x"
  = "Na1: 6 x Na-Cl"
  ∧ Interactive._insert_number_of_bonds_in_label "Na1 Na-Cl" ":" "6 x"
    = "Na1 Na-Cl".
Proof.
  split.
  - destruct (proj2 (insert_number_after_first Interactive.colon
                       "Na1: Na-Cl" "6 x") eq_refl)
      as (pre & post & _ & _ & E).
    vm_compute. reflexivity.
  - exact (proj1 (insert_number_after_first Interactive.colon
                    "Na1 Na-Cl" "6 x") eq_refl).
Defined.

(** X16: [strip("123456789")], which [add_all_relevant_cohps] uses to turn
    an atom name into its element, removes a run of the digits 1 to 9 at
    the end of a name that begins outside the set, but stops at any other
    character: a name whose site number ends in 0 (Cl10, Na20) keeps the
    whole number, and a 0 inside the number (Na101) keeps the digits up to
    it. *)
Theorem strip_digits_stops_at_zero (a : Ascii.ascii) (body digits : string) :
  Interactive.digit_1_9 a = false →
  Interactive.all_chars Interactive.digit_1_9 digits = true →
  Interactive.strip Interactive.digit_1_9 (String a EmptyString +:+ digits)
  = String a EmptyString
  ∧ (∀ z, Interactive.digit_1_9 z = false →
       Interactive.strip Interactive.digit_1_9
         (String a (body +:+ String z EmptyString) +:+ digits)
       = String a (body +:+ String z EmptyString))
  ∧ Interactive.strip Interactive.digit_1_9 (String a (body +:+ "0"))
    = String a (body +:+ "0")
  ∧ Interactive.strip Interactive.digit_1_9 (String a (body +:+ "0") +:+ digits)
    = String a (body +:+ "0").
Proof.
  intros Ha Hd.
  assert (Hcore : ∀ z, Interactive.digit_1_9 z = false →
            Interactive.strip Interactive.digit_1_9
              (String a (body +:+ String z EmptyString) +:+ digits)
            = String a (body +:+ String z EmptyString)).
  { intros z Hz.
    apply (strip_core_tail Interactive.digit_1_9 digits
             (String a (body +:+ String z EmptyString)) a z
             (body +:+ String z EmptyString)
             (Interactive.string_rev body +:+ String a EmptyString));
      try done.
    rewrite string_rev_cons, string_rev_app. reflexivity. }
  split; [|split; [|split]].
  - apply (strip_core_tail Interactive.digit_1_9 digits
             (String a EmptyString) a a EmptyString EmptyString); done.
  - exact Hcore.
  - rewrite <- (app_empty_r (String a (body +:+ "0"))) at 1.
    apply (strip_core_tail Interactive.digit_1_9 EmptyString
             (String a (body +:+ "0")) a (Ascii.ascii_of_nat 48)
             (body +:+ "0")
             (Interactive.string_rev body +:+ String a EmptyString));
      try done.
    rewrite string_rev_cons, string_rev_app. reflexivity.
  - apply (Hcore (Ascii.ascii_of_nat 48)). reflexivity.
Qed.

Lemma strip_digits_stops_at_zero_witness :
  Interactive.strip Interactive.digit_1_9 "Cl10" = "Cl10"
  ∧ Interactive.strip Interactive.digit_1_9 "Na7" = "Na"
  ∧ Interactive.strip Interactive.digit_1_9 "Na101" = "Na10".
Proof.
  destruct (strip_digits_stops_at_zero (Ascii.ascii_of_nat 67) "l1" "1")
    as (_ & _ & H0 & H1); [reflexivity|reflexivity|].
  split; [exact H0|]. split; [reflexivity|].
  destruct (strip_digits_stops_at_zero (Ascii.ascii_of_nat 78) "a1" "1")
    as (_ & _ & _ & H2); [reflexivity|reflexivity|]. exact H2.
Defined.

Section StatementFacts.
Import Interactive.
Context {A : Type}.
Implicit Types (st : list (string * list (string * PlainPlot.cohp_entry))).

Lemma sfor_app (body : A → S unit) (l1 l2 : list A) st :
  sfor body (l1 ++ l2) st
  = match sfor body l1 st with
    | (Ok _, st') => sfor body l2 st'
    | (Raise e, st') => (Raise e, st')
    end.
Proof.
  revert st. induction l1 as [|x l1 IH]; intros st; [done|].
  simpl. unfold sbind. destruct (body x st) as [[u|e] st1]; [|done].
  apply IH.
Qed.

(** A loop whose steps all succeed threads the state through them. *)
Lemma sfor_ok (body : A → S unit) (f : A → _ → _) (l : list A) st :
  (∀ x st, x ∈ l → body x st = (Ok (), f x st)) →
  sfor body l st = (Ok (), foldl (λ s x, f x s) st l).
Proof.
  revert st. induction l as [|x l IH]; intros st Hb; [done|].
  simpl. unfold sbind. rewrite Hb by (apply elem_of_cons; by left).
  apply IH. intros y st' Hy. apply Hb. apply elem_of_cons. by right.
Qed.
End StatementFacts.

Section LobsterLabelFacts.
Import Interactive.
Variable zero_at_efermi : bool.
Variable cc : CompleteCohp.
Variable label_addition : string.
Implicit Types (st : list (string * list (string * PlainPlot.cohp_entry))).

Lemma lobster_key_colon atoms label :
  CliTools.has_char colon (lobster_key atoms label label_addition) = true.
Proof.
  unfold lobster_key. rewrite !has_char_app.
  replace (CliTools.has_char colon ": ") with true by reflexivity.
  by rewrite !orb_true_r.
Qed.

Lemma lobster_key_not_please atoms label :
  lobster_key atoms label label_addition ≠ please.
Proof.
  intros H. pose proof (lobster_key_colon atoms label) as Hc.
  rewrite H in Hc. discriminate Hc.
Qed.

Lemma add_one_label_ok label atoms cohp st :
  bond_species cc !! label = Some atoms →
  get_cohp_by_label cc label = Ok cohp →
  add_one_label zero_at_efermi cc label_addition label st
  = (Ok (), od_set (lobster_key atoms label label_addition)
              [(label, entry_of zero_at_efermi cohp)] st).
Proof.
  intros Hb Hc. unfold add_one_label. rewrite Hb.
  unfold sbind, new_group, slift, _update_cohps_data. rewrite Hc.
  rewrite od_get_set_eq. simpl. by rewrite od_set_set.
Qed.

Local Abbreviation after_labels :=
  (Interactive.after_labels zero_at_efermi cc label_addition).
Local Abbreviation known := (Interactive.known cc).

Lemma add_labels_ok (l : list string) st :
  (∀ label, label ∈ l → known label) →
  sfor (add_one_label zero_at_efermi cc label_addition) l st
  = (Ok (), after_labels l st).
Proof.
  intros Hk. unfold Interactive.after_labels.
  revert st. induction l as [|x l IH]; intros st; [done|].
  simpl. unfold sbind.
  destruct (Hk x) as (atoms & cohp & Hb & Hc); [apply elem_of_cons; by left|].
  rewrite (add_one_label_ok x atoms cohp st Hb Hc). rewrite Hb, Hc.
  apply IH. intros y Hy. apply Hk. apply elem_of_cons. by right.
Qed.

Lemma after_labels_please (l : list string) st :
  od_get please (after_labels l st) = od_get please st.
Proof.
  unfold Interactive.after_labels.
  revert st. induction l as [|x l IH]; intros st; [done|].
  simpl. rewrite IH.
  destruct (bond_species cc !! x) as [atoms|]; [|done].
  destruct (get_cohp_by_label cc x) as [cohp|]; [|done].
  apply od_get_set_ne. apply lobster_key_not_please.
Qed.

Lemma after_labels_snoc (l : list string) (x : string) st :
  after_labels (l ++ [x]) st
  = match bond_species cc !! x, get_cohp_by_label cc x with
    | Some atoms, Ok cohp =>
      od_set (lobster_key atoms x label_addition)
        [(x, entry_of zero_at_efermi cohp)] (after_labels l st)
    | _, _ => after_labels l st
    end.
Proof. unfold Interactive.after_labels. by rewrite foldl_app. Qed.

Lemma after_labels_group (l : list string) st label atoms :
  (∀ x, x ∈ l → known x) →
  label ∈ l → bond_species cc !! label = Some atoms →
  ∃ label' atoms' cohp',
    label' ∈ l
    ∧ bond_species cc !! label' = Some atoms'
    ∧ get_cohp_by_label cc label' = Ok cohp'
    ∧ lobster_key atoms' label' label_addition
      = lobster_key atoms label label_addition
    ∧ od_get (lobster_key atoms label label_addition) (after_labels l st)
      = Some [(label', entry_of zero_at_efermi cohp')].
Proof.
  induction l as [|x l IH] using rev_ind; intros Hk Hin Hb.
  - by apply elem_of_nil in Hin.
  - rewrite after_labels_snoc.
    destruct (Hk x) as (ax & cx & Hbx & Hcx); [apply elem_of_app; right;
      apply elem_of_cons; by left|].
    rewrite Hbx, Hcx.
    destruct (decide (lobster_key ax x label_addition
                      = lobster_key atoms label label_addition)) as [E|Hne].
    + exists x, ax, cx. split; [apply elem_of_app; right; apply elem_of_cons; by left|].
      split; [done|]. split; [done|]. split; [done|].
      rewrite <- E. apply od_get_set_eq.
    + apply elem_of_app in Hin as [Hin|Hin].
      * destruct IH as (l' & a' & c' & Hl' & Hb' & Hc' & Hkey & Hget);
          [intros y Hy; apply Hk, elem_of_app; by left|done|done|].
        exists l', a', c'. split; [apply elem_of_app; by left|].
        split; [done|]. split; [done|]. split; [done|].
        rewrite od_get_set_ne by done. exact Hget.
      * apply list_elem_of_singleton in Hin as ->.
        rewrite Hbx in Hb. injection Hb as ->. done.
Qed.
End LobsterLabelFacts.

(** X17: [add_cohps_by_lobster_label] with labels that are all bonds of
    the store makes the empty group [Please select COHP label here] and,
    for every label, a group named [<species>-<species>: <label>] plus the
    label addition that holds exactly one curve: that of the last label
    with this group name, under the plain label. When a label is no bond of
    the store the call raises [KeyError] for it after the labels before it
    have been added. *)
Theorem add_cohps_by_lobster_label_groups (zero_at_efermi : bool)
    (cc : Interactive.CompleteCohp) (label_list : list string)
    (label_addition : string)
    (st : list (string * list (string * PlainPlot.cohp_entry))) :
  ((∀ label, label ∈ label_list → Interactive.known cc label) →
   ∃ st',
     Interactive.add_cohps_by_lobster_label zero_at_efermi cc label_list
       label_addition st = (Ok (), st')
     ∧ Interactive.od_get Interactive.please st' = Some []
     ∧ ∀ label atoms,
         label ∈ label_list →
         Interactive.bond_species cc !! label = Some atoms →
         ∃ label' atoms' cohp',
           label' ∈ label_list
           ∧ Interactive.bond_species cc !! label' = Some atoms'
           ∧ Interactive.get_cohp_by_label cc label' = Ok cohp'
           ∧ Interactive.lobster_key atoms' label' label_addition
             = Interactive.lobster_key atoms label label_addition
           ∧ Interactive.od_get
               (Interactive.lobster_key atoms label label_addition) st'
             = Some [(label', Interactive.entry_of zero_at_efermi cohp')])
  ∧ (∀ before label rest,
       label_list = before ++ label :: rest →
       (∀ x, x ∈ before → Interactive.known cc x) →
       Interactive.bond_species cc !! label = None →
       Interactive.add_cohps_by_lobster_label zero_at_efermi cc label_list
         label_addition st
       = (Raise (KeyError label),
          Interactive.after_labels zero_at_efermi cc label_addition before
            (Interactive.od_set Interactive.please [] st))).
Proof.
  unfold Interactive.add_cohps_by_lobster_label.
  unfold Interactive.sbind at 1. unfold Interactive.new_group at 1.
  split.
  - intros Hk. rewrite (add_labels_ok zero_at_efermi cc label_addition) by done.
    eexists. split; [reflexivity|]. split.
    + rewrite after_labels_please. apply od_get_set_eq.
    + intros label atoms Hin Hb. by apply after_labels_group.
  - intros before label rest -> Hk Hnone.
    unfold Interactive.sbind at 1. unfold Interactive.new_group at 1.
    rewrite sfor_app.
    rewrite (add_labels_ok zero_at_efermi cc label_addition) by done.
    simpl. unfold Interactive.sbind at 1. unfold Interactive.add_one_label at 1.
    rewrite Hnone. reflexivity.
Qed.

Lemma add_cohps_by_lobster_label_groups_witness :
  let cohp : Interactive.Cohp :=
    {| Interactive.cohp_energies := [0; 1]%Q; Interactive.cohp_efermi := 1%Q;
       Interactive.cohp_populations :=
         {| PlainPlot.spin_up := Some [1; 2]%Q; PlainPlot.spin_down := None |};
       Interactive.cohp_int_populations :=
         Some {| PlainPlot.spin_up := Some [1; 3]%Q;
                 PlainPlot.spin_down := None |} |} in
  let cc : Interactive.CompleteCohp :=
    {| Interactive.bond_species := {[ "1" := ("Na", "Cl") ]};
       Interactive.get_cohp_by_label := λ _, Ok cohp;
       Interactive.get_summed_cohp_by_label_list := λ _, Ok cohp |} in
  Interactive.add_cohps_by_lobster_label true cc ["1"; "7"] "" []
  = (Raise (KeyError "7"),
     [(Interactive.please, []);
      ("Na-Cl: 1", [("1", Interactive.entry_of true cohp)])]).
Proof.
  intros cohp cc.
  rewrite (proj2 (add_cohps_by_lobster_label_groups true cc ["1"; "7"] "" [])
             ["1"] "7" [] eq_refl).
  - reflexivity.
  - intros x Hx. apply list_elem_of_singleton in Hx as ->.
    exists ("Na", "Cl"), cohp. split; reflexivity.
  - reflexivity.
Defined.

Section CancelFacts.
Import Interactive.

Lemma string_rev_inj (s t : string) : string_rev s = string_rev t → s = t.
Proof.
  intros H. rewrite <- (string_rev_involutive s), <- (string_rev_involutive t).
  by rewrite H.
Qed.

Lemma app_cancel_l (p s t : string) : p +:+ s = p +:+ t → s = t.
Proof.
  induction p as [|a p IH]; [done|].
  intros H. apply IH. by injection H.
Qed.

Lemma app_cancel_r (s t suffix : string) :
  s +:+ suffix = t +:+ suffix → s = t.
Proof.
  intros H. apply string_rev_inj.
  apply (app_cancel_l (string_rev suffix)).
  by rewrite <- !string_rev_app, H.
Qed.

Lemma all_not_please (label_addition : string) :
  "All" +:+ label_addition ≠ please.
Proof. intros H. discriminate H. Qed.
End CancelFacts.

Section PlotDataFacts.
Import Interactive.
Variable zero_at_efermi : bool.
Variable label_addition : string.
Implicit Types (st : list (string * list (string * PlainPlot.cohp_entry))).
Local Abbreviation allk := ("All" +:+ label_addition).
Local Abbreviation own k := (k +:+ label_addition).

(** The loop over the dropdown labels for one bond: its own group and the
    group [All] get the curve under the bond key, when the labels passed
    include the own group, and a label other than the own group and [All];
    nothing else changes. *)
Lemma plot_data_loop (k : string) (e : PlainPlot.cohp_entry)
    (dls : list string) st gown gall :
  od_get (own k) st = Some gown → od_get allk st = Some gall →
  own k ≠ allk →
  ∃ st',
    sfor (plot_data_step label_addition k e) dls st = (Ok (), st')
    ∧ od_keys st' = od_keys st
    ∧ (∀ l, l ≠ own k → l ≠ allk → od_get l st' = od_get l st)
    ∧ od_get (own k) st'
      = Some (if bool_decide (own k ∈ dls) then od_set k e gown else gown)
    ∧ od_get allk st'
      = Some (if bool_decide (Exists (λ dl, dl ≠ own k ∧ dl ≠ allk) dls)
              then od_set k e gall else gall).
Proof.
  intros Hown Hall Hne. revert st gown gall Hown Hall.
  induction dls as [|dl dls IH]; intros st gown gall Hown Hall.
  - exists st. split; [done|]. split; [done|]. split; [done|].
    rewrite bool_decide_eq_false_2 by (by intros ?%elem_of_nil).
    rewrite bool_decide_eq_false_2 by (by intros ?%Exists_nil).
    done.
  - cbn [sfor]. unfold sbind at 1. unfold plot_data_step at 1.
    destruct (decide (dl = own k)) as [->|Hdl].
    + (* the own group *)
      unfold _update_cohps_data at 1. rewrite Hown.
      set (st1 := od_set (own k) (od_set k e gown) st).
      destruct (IH st1 (od_set k e gown) gall) as (st' & E & Hk & Ho & Hg & Ha).
      { subst st1. apply od_get_set_eq. }
      { subst st1. by rewrite od_get_set_ne. }
      exists st'. split; [exact E|]. split; [|split; [|split]].
      * rewrite Hk. subst st1. apply od_keys_set_in.
        apply od_get_Some_keys. eauto.
      * intros l H1 H2. rewrite Ho by done. subst st1.
        apply od_get_set_ne. congruence.
      * rewrite Hg. f_equal.
        rewrite (bool_decide_eq_true_2 (own k ∈ own k :: dls))
          by (apply elem_of_cons; by left).
        destruct (bool_decide (own k ∈ dls)); [apply od_set_set|done].
      * rewrite Ha. f_equal.
        assert (Exists (λ dl, dl ≠ own k ∧ dl ≠ allk) (own k :: dls)
                ↔ Exists (λ dl, dl ≠ own k ∧ dl ≠ allk) dls) as Hiff.
        { rewrite Exists_cons. split; [|auto]. by intros [[? _]|?]. }
        by rewrite (bool_decide_ext _ _ Hiff).
    + destruct (decide (dl ≠ allk)) as [Hda|Hda].
      * (* another group: the curve goes to All *)
        unfold _update_cohps_data at 1. rewrite Hall.
        set (st1 := od_set allk (od_set k e gall) st).
        destruct (IH st1 gown (od_set k e gall)) as (st' & E & Hk & Ho & Hg & Ha).
        { subst st1. by rewrite od_get_set_ne. }
        { subst st1. apply od_get_set_eq. }
        exists st'. split; [exact E|]. split; [|split; [|split]].
        -- rewrite Hk. subst st1. apply od_keys_set_in.
           apply od_get_Some_keys. eauto.
        -- intros l H1 H2. rewrite Ho by done. subst st1.
           apply od_get_set_ne. congruence.
        -- rewrite Hg. f_equal.
           assert (own k ∈ dl :: dls ↔ own k ∈ dls) as Hiff.
           { rewrite elem_of_cons. split; [|auto]. by intros [?|?]. }
           by rewrite (bool_decide_ext _ _ Hiff).
        -- rewrite Ha. f_equal.
           rewrite (bool_decide_eq_true_2
                      (Exists (λ dl, dl ≠ own k ∧ dl ≠ allk) (dl :: dls)))
             by (apply Exists_cons; by left).
           destruct (bool_decide (Exists (λ dl, dl ≠ own k ∧ dl ≠ allk) dls));
             [apply od_set_set|done].
      * (* the group All itself: nothing *)
        assert (dl = allk) as -> by (by destruct (decide (dl = allk)); [|exfalso; auto]).
        unfold sret at 1.
        destruct (IH st gown gall Hown Hall) as (st' & E & Hk & Ho & Hg & Ha).
        exists st'. split; [exact E|]. split; [done|]. split; [done|]. split.
        -- rewrite Hg. f_equal.
           assert (own k ∈ allk :: dls ↔ own k ∈ dls) as Hiff.
           { rewrite elem_of_cons. split; [|auto]. by intros [?|?]. }
           by rewrite (bool_decide_ext _ _ Hiff).
        -- rewrite Ha. f_equal.
           assert (Exists (λ dl, dl ≠ own k ∧ dl ≠ allk) (allk :: dls)
                   ↔ Exists (λ dl, dl ≠ own k ∧ dl ≠ allk) dls) as Hiff.
           { rewrite Exists_cons. split; [|auto]. by intros [[_ ?]|?]. }
           by rewrite (bool_decide_ext _ _ Hiff).
Qed.
End PlotDataFacts.

Section PlotDataOuter.
Import Interactive.
Variable zero_at_efermi : bool.
Variable label_addition : string.
Implicit Types (st : list (string * list (string * PlainPlot.cohp_entry)))
  (pd : list (string * Cohp)).
Local Abbreviation allk := ("All" +:+ label_addition).
Local Abbreviation own k := (k +:+ label_addition).
Local Abbreviation entry := (entry_of zero_at_efermi).

(** The loop that makes the empty groups of the bonds. *)
Lemma new_groups_run pd st :
  sfor (λ kc : string * Cohp, new_group (own kc.1)) pd st
  = (Ok (), foldl (λ s kc, od_set (own kc.1) [] s) st pd).
Proof. apply (sfor_ok _ (λ kc s, od_set (own kc.1) [] s)). done. Qed.

Lemma new_groups_get pd st l :
  od_get l (foldl (λ s (kc : string * Cohp), od_set (own kc.1) [] s) st pd)
  = if bool_decide (l ∈ map (λ kc, own kc.1) pd) then Some [] else od_get l st.
Proof.
  revert st. induction pd as [|[k c] pd IH]; intros st.
  - cbn [foldl map]. rewrite bool_decide_eq_false_2; [done|]. by intros ?%elem_of_nil.
  - cbn [foldl map fst]. rewrite IH.
    destruct (decide (l ∈ map (λ kc : string * Cohp, own kc.1) pd)) as [Hin|Hin].
    + rewrite (bool_decide_eq_true_2 _ Hin).
      rewrite bool_decide_eq_true_2; [done|]. apply elem_of_cons. by right.
    + rewrite (bool_decide_eq_false_2 _ Hin).
      destruct (decide (l = own k)) as [->|Hne].
      * rewrite od_get_set_eq. rewrite bool_decide_eq_true_2; [done|].
        apply elem_of_cons. by left.
      * rewrite od_get_set_ne by done. rewrite bool_decide_eq_false_2; [done|].
        intros [?|?]%elem_of_cons; done.
Qed.

Local Abbreviation between :=
  (plot_data_between zero_at_efermi label_addition).

Lemma bonds_run (done_ todo : list (string * Cohp)) st :
  NoDup (map fst (done_ ++ todo)) →
  (∀ k, k ∈ map fst (done_ ++ todo) → k ≠ "All" ∧ own k ≠ please) →
  between done_ todo st →
  ∃ st', sfor (plot_data_bond zero_at_efermi label_addition) todo st = (Ok (), st')
    ∧ between (done_ ++ todo) [] st'.
Proof.
  revert done_ st. induction todo as [|[k c] todo IH]; intros done_ st Hnd Hkeys Hb.
  - exists st. split; [done|]. by rewrite app_nil_r.
  - destruct Hb as (Hp & Ha & Hd & Ht).
    assert (Hk : k ≠ "All" ∧ own k ≠ please).
    { apply Hkeys. rewrite map_app. apply elem_of_app. right.
      apply elem_of_cons. by left. }
    destruct Hk as [Hk1 Hk2].
    assert (Hne : own k ≠ allk) by (intros H; by apply app_cancel_r in H).
    assert (Hown : od_get (own k) st = Some []).
    { apply (Ht k c). apply elem_of_cons. by left. }
    cbn [sfor]. unfold sbind at 1. unfold plot_data_bond at 1. cbn [fst snd].
    destruct (plot_data_loop label_addition k (entry c) (od_keys st) st
                [] (entries_of zero_at_efermi done_) Hown Ha Hne)
      as (st1 & E & Hkeys1 & Hother & Hg & Hall).
    rewrite E.
    rewrite bool_decide_eq_true_2 in Hg
      by (apply od_get_Some_keys; eauto).
    rewrite bool_decide_eq_true_2 in Hall.
    2:{ apply Exists_exists. exists please. split; [|split].
        - apply od_get_Some_keys. eauto.
        - congruence.
        - intros H. symmetry in H. by apply all_not_please in H. }
    assert (Hfresh : k ∉ map fst done_).
    { rewrite map_app in Hnd. apply NoDup_app in Hnd as (_ & Hdis & _).
      intros Hin. apply (Hdis k Hin). apply elem_of_cons. by left. }
    assert (Hnd' : NoDup (map fst ((done_ ++ [(k, c)]) ++ todo)))
      by (by rewrite <- app_assoc).
    assert (Hkeys' : ∀ k0, k0 ∈ map fst ((done_ ++ [(k, c)]) ++ todo) →
                     k0 ≠ "All" ∧ own k0 ≠ please)
      by (by rewrite <- app_assoc).
    destruct (IH (done_ ++ [(k, c)]) st1 Hnd' Hkeys') as (st' & E' & Hb').
    { split; [|split; [|split]].
      - rewrite Hother; [done|congruence|].
        intros H. symmetry in H. by apply all_not_please in H.
      - rewrite Hall. f_equal. unfold entries_of. rewrite map_app. cbn [map fst snd].
        apply od_set_fresh. unfold od_keys. rewrite map_map. cbn [fst]. exact Hfresh.
      - intros k0 c0 Hin. apply elem_of_app in Hin as [Hin|Hin].
        + assert (k0 ≠ k).
          { intros ->. apply Hfresh. apply (list_elem_of_fmap_2 fst) in Hin. exact Hin. }
          rewrite Hother.
          * by apply (Hd k0 c0).
          * intros H'. by apply app_cancel_r in H'.
          * intros H'. apply app_cancel_r in H'.
            destruct (Hkeys k0) as [Hk0 _]; [|done].
            rewrite map_app. apply elem_of_app. left.
            apply (list_elem_of_fmap_2 fst) in Hin. exact Hin.
        + apply list_elem_of_singleton in Hin as [= -> ->]. exact Hg.
      - intros k0 c0 Hin.
        assert (k0 ≠ k).
        { intros ->. rewrite map_app in Hnd. apply NoDup_app in Hnd as (_ & _ & Hnd).
          cbn [map fst] in Hnd. apply NoDup_cons in Hnd as [Hnk _].
          apply Hnk. apply (list_elem_of_fmap_2 fst) in Hin. exact Hin. }
        rewrite Hother.
        + apply (Ht k0 c0). apply elem_of_cons. by right.
        + intros H'. by apply app_cancel_r in H'.
        + intros H'. apply app_cancel_r in H'.
          destruct (Hkeys k0) as [Hk0 _]; [|done].
          rewrite map_app. apply elem_of_app. right. apply elem_of_cons. right.
          apply (list_elem_of_fmap_2 fst) in Hin. exact Hin. }
    exists st'. split; [exact E'|]. by rewrite <- app_assoc in Hb'.
Qed.
End PlotDataOuter.

Section PlotDataConvert.
Import Interactive.
Context {D : Type}.
Variable from_dict : D → result Cohp.
Local Abbreviation convert :=
  (Cli.result_map
     (λ kx : string * plot_datum D,
        result_bind (to_cohp from_dict kx.2) (λ c, Ok (kx.1, c)))).

(** The conversion keeps the keys and their order. *)
Lemma convert_keys (l : list (string * plot_datum D)) pd :
  convert l = Ok pd → map fst pd = map fst l.
Proof.
  revert pd. induction l as [|[k x] l IH]; intros pd H.
  - by injection H as <-.
  - cbn [Cli.result_map fst snd] in H.
    destruct (to_cohp from_dict x) as [c|e]; [|discriminate H].
    cbn [result_bind] in H.
    destruct (Cli.result_map _ l) as [ys|e]; [|discriminate H].
    cbn [result_bind] in H. injection H as <-.
    cbn [map fst]. f_equal. by apply IH.
Qed.

Lemma to_cohp_not_TypeError (x : plot_datum D) :
  to_cohp from_dict x ≠ Raise TypeError.
Proof.
  destruct x as [c|d]; cbn [to_cohp]; [done|].
  destruct (from_dict d) as [c|[]]; done.
Qed.

Lemma convert_not_TypeError (l : list (string * plot_datum D)) :
  convert l ≠ Raise TypeError.
Proof.
  induction l as [|[k x] l IH]; [done|].
  cbn [Cli.result_map fst snd].
  pose proof (to_cohp_not_TypeError x) as Hx.
  destruct (to_cohp from_dict x) as [c|e]; cbn [result_bind].
  - destruct (Cli.result_map _ l) as [ys|e]; cbn [result_bind]; [done|].
    intros [= ->]. by apply IH.
  - intros [= ->]. by apply Hx.
Qed.

(** The conversion stops at the first value that does not convert. *)
Lemma convert_first_failure (before rest : list (string * plot_datum D))
    (k : string) (x : plot_datum D) (e : py_exn) :
  (∀ y, y ∈ before → ∃ c, to_cohp from_dict y.2 = Ok c) →
  to_cohp from_dict x = Raise e →
  convert (before ++ (k, x) :: rest) = Raise e.
Proof.
  intros Hb Hx. induction before as [|[k' y] before IH].
  - cbn [app Cli.result_map fst snd]. by rewrite Hx.
  - cbn [app Cli.result_map fst snd].
    destruct (Hb (k', y)) as [c Hc]; [apply elem_of_cons; by left|].
    cbn [snd] in Hc. rewrite Hc. cbn [result_bind].
    rewrite IH; [done|]. intros z Hz. apply Hb. apply elem_of_cons. by right.
Qed.
End PlotDataConvert.

(** X18 ([InteractiveCohpPlotter.add_cohps_from_plot_data]). When the values
    of the plot data convert to curves [pd], no key is ["All"] and no key
    with the label addition is the placeholder entry, the call succeeds
    whatever groups the plotter held before: the placeholder group is empty,
    each bond's own group (its key followed by the label addition) holds
    exactly that bond's curve under the bond key, and the group ["All"]
    with the label addition holds the curves of all bonds in the order of
    the plot data. *)
Theorem add_cohps_from_plot_data_groups {D : Type} (zero_at_efermi : bool)
    (from_dict : D → result Interactive.Cohp)
    (plot_data_dict : list (string * Interactive.plot_datum D))
    (label_addition : string) (pd : list (string * Interactive.Cohp))
    (st : list (string * list (string * PlainPlot.cohp_entry))) :
  Cli.result_map
    (λ kx : string * Interactive.plot_datum D,
       result_bind (Interactive.to_cohp from_dict kx.2) (λ c, Ok (kx.1, c)))
    plot_data_dict = Ok pd →
  NoDup (map fst plot_data_dict) →
  (∀ k, k ∈ map fst plot_data_dict →
        k ≠ "All" ∧ k +:+ label_addition ≠ Interactive.please) →
  ∃ st',
    Interactive.add_cohps_from_plot_data zero_at_efermi from_dict
      plot_data_dict label_addition st = (Ok (), st')
    ∧ Interactive.od_get Interactive.please st' = Some []
    ∧ Interactive.od_get ("All" +:+ label_addition) st'
      = Some (Interactive.entries_of zero_at_efermi pd)
    ∧ ∀ k c, (k, c) ∈ pd →
        Interactive.od_get (k +:+ label_addition) st'
        = Some [(k, Interactive.entry_of zero_at_efermi c)].
Proof.
  intros Hconv Hnd Hkeys.
  pose proof (convert_keys from_dict _ _ Hconv) as Hk.
  rewrite <- Hk in Hnd, Hkeys.
  unfold Interactive.add_cohps_from_plot_data.
  unfold Interactive.sbind at 1. unfold Interactive.slift at 1. rewrite Hconv.
  unfold Interactive.sbind at 1. unfold Interactive.new_group at 1.
  unfold Interactive.sbind at 1. unfold Interactive.new_group at 1.
  unfold Interactive.sbind at 1. rewrite new_groups_run.
  destruct (bonds_run zero_at_efermi label_addition [] pd
              (foldl (λ s (kc : string * Interactive.Cohp),
                        Interactive.od_set (kc.1 +:+ label_addition) [] s)
                 (Interactive.od_set ("All" +:+ label_addition) []
                    (Interactive.od_set Interactive.please [] st)) pd))
    as (st' & E & Hp & Ha & Hd & _).
  - exact Hnd.
  - exact Hkeys.
  - split; [|split; [|split]].
    + rewrite new_groups_get. case_bool_decide; [done|].
      rewrite od_get_set_ne by (intros H'; by apply all_not_please in H').
      apply od_get_set_eq.
    + rewrite new_groups_get. case_bool_decide; [done|]. apply od_get_set_eq.
    + intros k c Hin. by apply elem_of_nil in Hin.
    + intros k c Hin. rewrite new_groups_get. rewrite bool_decide_eq_true_2; [done|].
      apply list_elem_of_In, in_map_iff. exists (k, c). split; [done|].
      by apply list_elem_of_In.
  - exists st'. split; [exact E|]. split; [exact Hp|]. split; [exact Ha|].
    intros k c Hin. by apply (Hd k c).
Qed.

Lemma add_cohps_from_plot_data_groups_witness :
  let cohp : Interactive.Cohp :=
    {| Interactive.cohp_energies := [0; 1]%Q; Interactive.cohp_efermi := 1%Q;
       Interactive.cohp_populations :=
         {| PlainPlot.spin_up := Some [1; 2]%Q; PlainPlot.spin_down := None |};
       Interactive.cohp_int_populations :=
         Some {| PlainPlot.spin_up := Some [1; 3]%Q;
                 PlainPlot.spin_down := None |} |} in
  ∃ st',
    Interactive.add_cohps_from_plot_data (D := unit) false (λ _, Ok cohp)
      [("Na1: Na-Cl", Interactive.IsCohp cohp);
       ("Cl2: Na-Cl", Interactive.IsDict ())] "" [("old", [])]
    = (Ok (), st')
    ∧ Interactive.od_get Interactive.please st' = Some []
    ∧ Interactive.od_get "All" st'
      = Some [("Na1: Na-Cl", Interactive.entry_of false cohp);
              ("Cl2: Na-Cl", Interactive.entry_of false cohp)]
    ∧ ∀ k c, (k, c) ∈ [("Na1: Na-Cl", cohp); ("Cl2: Na-Cl", cohp)] →
        Interactive.od_get (k +:+ "") st'
        = Some [(k, Interactive.entry_of false c)].
Proof.
  intros cohp.
  apply (add_cohps_from_plot_data_groups (D := unit) false (λ _, Ok cohp)
           [("Na1: Na-Cl", Interactive.IsCohp cohp);
            ("Cl2: Na-Cl", Interactive.IsDict ())] ""
           [("Na1: Na-Cl", cohp); ("Cl2: Na-Cl", cohp)] [("old", [])]).
  - reflexivity.
  - cbn [map fst]. apply NoDup_cons. split.
    + intros H%list_elem_of_singleton. discriminate H.
    + apply NoDup_singleton.
  - intros k Hk. cbn [map fst] in Hk.
    apply elem_of_cons in Hk as [->|Hk];
      [|apply list_elem_of_singleton in Hk as ->]; split; discriminate.
Defined.

Section NeverRaises.
Import Interactive.

Lemma sfor_never {A : Type} (body : A → S unit) (e : py_exn) (l : list A) st :
  (∀ x st, (body x st).1 ≠ Raise e) → (sfor body l st).1 ≠ Raise e.
Proof.
  intros Hb. revert st. induction l as [|x l IH]; intros st; [done|].
  cbn [sfor]. unfold sbind at 1. pose proof (Hb x st) as Hx.
  destruct (body x st) as [[[]|e'] st1]; [apply IH|exact Hx].
Qed.

Lemma update_never_TypeError label key entry st :
  (_update_cohps_data label key entry st).1 ≠ Raise TypeError.
Proof. unfold _update_cohps_data. by destruct (od_get label st). Qed.

Lemma plot_data_bond_never_TypeError zero label_addition kc st :
  (plot_data_bond zero label_addition kc st).1 ≠ Raise TypeError.
Proof.
  unfold plot_data_bond. apply sfor_never. intros dl st1.
  unfold plot_data_step. repeat case_decide;
    [apply update_never_TypeError|apply update_never_TypeError|done].
Qed.
End NeverRaises.

(** X19 ([InteractiveCohpPlotter.add_cohps_from_plot_data], the conversion
    loop). The call never ends in a [TypeError]. When the values before a
    dict value convert and [Cohp.from_dict] raises on that value, the call
    raises [ValueError] with the conversion message for a [TypeError] and the
    error itself otherwise, and every group of the plotter is as it was: the
    conversion runs before any group is made. *)
Theorem add_cohps_from_plot_data_conversion {D : Type} (zero_at_efermi : bool)
    (from_dict : D → result Interactive.Cohp)
    (plot_data_dict : list (string * Interactive.plot_datum D))
    (label_addition : string)
    (st : list (string * list (string * PlainPlot.cohp_entry))) :
  (Interactive.add_cohps_from_plot_data zero_at_efermi from_dict
     plot_data_dict label_addition st).1 ≠ Raise TypeError
  ∧ ∀ before k d e rest,
      plot_data_dict = before ++ (k, Interactive.IsDict d) :: rest →
      (∀ x, x ∈ before → ∃ c, Interactive.to_cohp from_dict x.2 = Ok c) →
      from_dict d = Raise e →
      Interactive.add_cohps_from_plot_data zero_at_efermi from_dict
        plot_data_dict label_addition st
      = (Raise match e with
               | TypeError => ValueError Interactive.convert_msg
               | _ => e
               end, st).
Proof.
  unfold Interactive.add_cohps_from_plot_data.
  unfold Interactive.sbind at 1. unfold Interactive.slift at 1.
  split.
  - pose proof (convert_not_TypeError from_dict plot_data_dict) as Hc.
    destruct (Cli.result_map _ plot_data_dict) as [pd|e].
    + unfold Interactive.sbind at 1. unfold Interactive.new_group at 1.
      unfold Interactive.sbind at 1. unfold Interactive.new_group at 1.
      unfold Interactive.sbind at 1. rewrite new_groups_run.
      apply sfor_never. intros kc st1. apply plot_data_bond_never_TypeError.
    + cbn [fst]. intros [= ->]. by apply Hc.
  - intros before k d e rest -> Hb Hd.
    rewrite (convert_first_failure from_dict before rest k (Interactive.IsDict d)
               (match e with
                | TypeError => ValueError Interactive.convert_msg
                | _ => e
                end)); [done|exact Hb|].
    cbn [Interactive.to_cohp]. rewrite Hd. by destruct e.
Qed.

Lemma add_cohps_from_plot_data_conversion_witness :
  let cohp : Interactive.Cohp :=
    {| Interactive.cohp_energies := [0; 1]%Q; Interactive.cohp_efermi := 1%Q;
       Interactive.cohp_populations :=
         {| PlainPlot.spin_up := Some [1; 2]%Q; PlainPlot.spin_down := None |};
       Interactive.cohp_int_populations :=
         Some {| PlainPlot.spin_up := Some [1; 3]%Q;
                 PlainPlot.spin_down := None |} |} in
  Interactive.add_cohps_from_plot_data (D := unit) true (λ _, Raise TypeError)
    [("Na1: Na-Cl", Interactive.IsCohp cohp);
     ("Cl2: Na-Cl", Interactive.IsDict ())] "" [("old", [])]
  = (Raise (ValueError Interactive.convert_msg), [("old", [])]).
Proof.
  intros cohp.
  apply (proj2 (add_cohps_from_plot_data_conversion (D := unit) true
                  (λ _, Raise TypeError)
                  [("Na1: Na-Cl", Interactive.IsCohp cohp);
                   ("Cl2: Na-Cl", Interactive.IsDict ())] "" [("old", [])])
           [("Na1: Na-Cl", Interactive.IsCohp cohp)] "Cl2: Na-Cl" () TypeError []).
  - reflexivity.
  - intros x Hx. apply list_elem_of_singleton in Hx as ->. by exists cohp.
  - reflexivity.
Defined.

Section GroupLoop.
Import Interactive.
Local Abbreviation group := (list (string * PlainPlot.cohp_entry)).
Variables (g allk : string) (body : string → S unit).
Variables (fown fall : string → group → group) (cond : string → bool).
Hypothesis Hne : g ≠ allk.
Hypothesis Hbody : ∀ dl st gown gall,
  od_get g st = Some gown → od_get allk st = Some gall →
  body dl st
  = (Ok (), if decide (dl = g) then od_set g (fown dl gown) st
            else if cond dl then od_set allk (fall dl gall) st else st).

(** A loop over the dropdown labels whose body changes the bond's own
    group at its own label and the group [All] at the labels of [cond]. *)
Lemma group_loop (dls : list string) (st : cohps) (gown gall : group) :
  od_get g st = Some gown → od_get allk st = Some gall →
  ∃ st',
    sfor body dls st = (Ok (), st')
    ∧ od_keys st' = od_keys st
    ∧ (∀ l, l ≠ g → l ≠ allk → od_get l st' = od_get l st)
    ∧ od_get g st'
      = Some (foldl (λ go dl, if decide (dl = g) then fown dl go else go)
                gown dls)
    ∧ od_get allk st'
      = Some (foldl (λ ga dl, if decide (dl = g) then ga
                              else if cond dl then fall dl ga else ga)
                gall dls).
Proof.
  revert st gown gall. induction dls as [|dl dls IH]; intros st gown gall Hg Ha.
  - exists st. by repeat split.
  - cbn [sfor foldl]. unfold sbind at 1. rewrite (Hbody dl st gown gall Hg Ha).
    destruct (decide (dl = g)) as [->|Hdl].
    + destruct (IH (od_set g (fown g gown) st) (fown g gown) gall)
        as (st' & E & Hk & Ho & Hg' & Ha').
      { apply od_get_set_eq. }
      { by rewrite od_get_set_ne. }
      exists st'. split; [exact E|]. split; [|split; [|split]].
      * rewrite Hk. apply od_keys_set_in. apply od_get_Some_keys. eauto.
      * intros l Hl1 Hl2. rewrite Ho by done. by rewrite od_get_set_ne.
      * exact Hg'.
      * exact Ha'.
    + destruct (cond dl).
      * destruct (IH (od_set allk (fall dl gall) st) gown (fall dl gall))
          as (st' & E & Hk & Ho & Hg' & Ha').
        { by rewrite od_get_set_ne. }
        { apply od_get_set_eq. }
        exists st'. split; [exact E|]. split; [|split; [|split]].
        -- rewrite Hk. apply od_keys_set_in. apply od_get_Some_keys. eauto.
        -- intros l Hl1 Hl2. rewrite Ho by done. by rewrite od_get_set_ne.
        -- exact Hg'.
        -- exact Ha'.
      * destruct (IH st gown gall Hg Ha) as (st' & E & Hk & Ho & Hg' & Ha').
        exists st'. by repeat split.
Qed.
End GroupLoop.

Section WriteFacts.
Import Interactive.
Context {V : Type}.
Implicit Types (d : list (string * V)) (k : string) (v : V)
  (ws : list (string * V)).

Lemma od_set_get_id d k v : od_get k d = Some v → od_set k v d = d.
Proof.
  induction d as [|[k' v'] d IH]; [done|]. cbn [od_get od_set].
  destruct (decide (k = k')) as [->|Hne].
  - by intros [= ->].
  - intros H. by rewrite IH.
Qed.

Lemma last_write_nil k : last_write (V := V) k [] = None.
Proof. done. Qed.

Lemma last_write_cons k (w : string * V) ws :
  last_write k (w :: ws)
  = match last_write k ws with
    | Some v => Some v
    | None => if decide (w.1 = k) then Some w.2 else None
    end.
Proof.
  unfold last_write. rewrite filter_cons.
  destruct (decide (w.1 = k)) as [E|E]; [|by destruct (last _)].
  rewrite last_cons. by destruct (last _).
Qed.

Lemma last_write_app k ws1 ws2 :
  last_write k (ws1 ++ ws2)
  = match last_write k ws2 with
    | Some v => Some v
    | None => last_write k ws1
    end.
Proof.
  induction ws1 as [|w ws1 IH].
  { cbn [app]. rewrite last_write_nil. by destruct (last_write k ws2). }
  rewrite <- app_comm_cons, !last_write_cons, IH.
  by destruct (last_write k ws2).
Qed.

Lemma od_get_write k ws d :
  od_get k (od_write ws d)
  = match last_write k ws with
    | Some v => Some v
    | None => od_get k d
    end.
Proof.
  revert d. induction ws as [|w ws IH]; intros d; [done|].
  unfold od_write. cbn [foldl]. fold (od_write ws (od_set w.1 w.2 d)).
  rewrite IH, last_write_cons. destruct (last_write k ws); [done|].
  destruct (decide (w.1 = k)) as [<-|Hne].
  - apply od_get_set_eq.
  - by apply od_get_set_ne.
Qed.

(** A change [f] made at the one place of [g] in the labels. *)
Lemma foldl_at_own {G : Type} (g : string) (f : string → G → G) (go : G)
    (dls : list string) :
  NoDup dls →
  foldl (λ go dl, if decide (dl = g) then f dl go else go) go dls
  = if bool_decide (g ∈ dls) then f g go else go.
Proof.
  revert go. induction dls as [|dl dls IH]; intros go Hnd.
  - cbn [foldl]. by rewrite bool_decide_eq_false_2 by (by intros ?%elem_of_nil).
  - apply NoDup_cons in Hnd as [Hdl Hnd]. cbn [foldl]. rewrite IH by done.
    destruct (decide (dl = g)) as [->|Hne].
    + rewrite (bool_decide_eq_false_2 _ Hdl).
      rewrite bool_decide_eq_true_2; [done|]. apply elem_of_cons. by left.
    + destruct (decide (g ∈ dls)) as [Hin|Hin].
      * rewrite (bool_decide_eq_true_2 _ Hin).
        rewrite bool_decide_eq_true_2; [done|]. apply elem_of_cons. by right.
      * rewrite (bool_decide_eq_false_2 _ Hin).
        rewrite bool_decide_eq_false_2; [done|].
        intros [?|?]%elem_of_cons; [congruence|done].
Qed.

(** The group [All] after the writes [ws] made once for every label of
    [cond] other than [g]. *)
Lemma od_get_repeated k (g : string) (cond : string → bool) ws d
    (dls : list string) :
  od_get k
    (foldl (λ ga dl, if decide (dl = g) then ga
                     else if cond dl then od_write ws ga else ga) d dls)
  = if existsb (λ dl, bool_decide (dl ≠ g) && cond dl) dls
    then match last_write k ws with
         | Some v => Some v
         | None => od_get k d
         end
    else od_get k d.
Proof.
  revert d. induction dls as [|dl dls IH]; intros d; [done|].
  cbn [foldl existsb]. rewrite IH.
  destruct (decide (dl = g)) as [->|Hne].
  - rewrite bool_decide_eq_false_2 by (by intros ?). done.
  - rewrite (bool_decide_eq_true_2 _ Hne). cbn [andb orb].
    destruct (cond dl); cbn [orb]; [|done].
    rewrite od_get_write. destruct (existsb _ dls); [|done].
    by destruct (last_write k ws).
Qed.

(** The group [All] after one write under every label of [cond] other
    than [g]. *)
Lemma od_get_labelled k (g : string) (cond : string → bool) v d
    (dls : list string) :
  od_get k
    (foldl (λ ga dl, if decide (dl = g) then ga
                     else if cond dl then od_set dl v ga else ga) d dls)
  = if bool_decide (k ∈ dls) && bool_decide (k ≠ g) && cond k
    then Some v else od_get k d.
Proof.
  revert d. induction dls as [|dl dls IH]; intros d.
  - cbn [foldl]. by rewrite bool_decide_eq_false_2 by (by intros ?%elem_of_nil).
  - cbn [foldl]. rewrite IH.
    destruct (decide (k = dl)) as [->|Hk].
    + rewrite (bool_decide_eq_true_2 (dl ∈ dl :: dls))
        by (apply elem_of_cons; by left).
      destruct (decide (dl = g)) as [->|Hne].
      * rewrite (bool_decide_eq_false_2 (g ≠ g)) by (intros H; by apply H).
        by rewrite !andb_false_r.
      * rewrite (bool_decide_eq_true_2 _ Hne).
        destruct (cond dl); [|by rewrite !andb_false_r].
        rewrite !andb_true_r. rewrite od_get_set_eq.
        by destruct (bool_decide (dl ∈ dls)).
    + assert (bool_decide (k ∈ dl :: dls) = bool_decide (k ∈ dls)) as ->.
      { apply bool_decide_ext. rewrite elem_of_cons.
        split; [by intros [?|?]|by right]. }
      destruct (bool_decide (k ∈ dls) && bool_decide (k ≠ g) && cond k); [done|].
      destruct (decide (dl = g)); [done|].
      destruct (cond dl); [|done]. rewrite od_get_set_ne; [done|]. congruence.
Qed.
End WriteFacts.

Section GroupFacts.
Import Interactive.
Context {A : Type}.
Variable f : A → string.

(** The loop that makes the empty groups. *)
Lemma groups_run (l : list A) (st : cohps) :
  sfor (λ a, new_group (f a)) l st
  = (Ok (), foldl (λ s a, od_set (f a) [] s) st l).
Proof. apply (sfor_ok _ (λ a s, od_set (f a) [] s)). done. Qed.

Lemma groups_get (l : list A) (st : cohps) (x : string) :
  od_get x (foldl (λ s a, od_set (f a) [] s) st l)
  = if bool_decide (x ∈ map f l) then Some [] else od_get x st.
Proof.
  revert st. induction l as [|a l IH]; intros st.
  - cbn [foldl map]. rewrite bool_decide_eq_false_2; [done|]. by intros ?%elem_of_nil.
  - cbn [foldl map]. rewrite IH.
    destruct (decide (x ∈ map f l)) as [Hin|Hin].
    + rewrite (bool_decide_eq_true_2 _ Hin).
      rewrite bool_decide_eq_true_2; [done|]. apply elem_of_cons. by right.
    + rewrite (bool_decide_eq_false_2 _ Hin).
      destruct (decide (x = f a)) as [->|Hne].
      * rewrite od_get_set_eq. rewrite bool_decide_eq_true_2; [done|].
        apply elem_of_cons. by left.
      * rewrite od_get_set_ne by done. rewrite bool_decide_eq_false_2; [done|].
        intros [?|?]%elem_of_cons; done.
Qed.

Lemma groups_keys (l : list A) (st : cohps) (x : string) :
  x ∈ od_keys (foldl (λ s a, od_set (f a) [] s) st l)
  ↔ x ∈ map f l ∨ x ∈ od_keys st.
Proof.
  rewrite <- !od_get_Some_keys, groups_get.
  destruct (decide (x ∈ map f l)) as [Hin|Hin].
  - rewrite (bool_decide_eq_true_2 _ Hin). split; [by left|eauto].
  - rewrite (bool_decide_eq_false_2 _ Hin). split; [by right|by intros [?|?]].
Qed.

Lemma od_keys_set_elem (st : cohps) (k x : string) v :
  x ∈ od_keys (od_set k v st) ↔ x = k ∨ x ∈ od_keys st.
Proof.
  rewrite <- !od_get_Some_keys.
  destruct (decide (x = k)) as [->|Hne].
  - rewrite od_get_set_eq. split; [by left|eauto].
  - rewrite od_get_set_ne by done. split; [by right|by intros [?|?]].
Qed.

Lemma groups_NoDup (l : list A) (st : cohps) :
  NoDup (od_keys st) → NoDup (od_keys (foldl (λ s a, od_set (f a) [] s) st l)).
Proof.
  revert st. induction l as [|a l IH]; intros st Hnd; [done|].
  cbn [foldl]. apply IH. by apply od_keys_NoDup_set.
Qed.
End GroupFacts.

Section SummedFacts.
Import Interactive.
Variable zero_at_efermi : bool.
Variable cc : CompleteCohp.
Variable label_addition : string.
Variable summed : list string → Cohp.
Local Abbreviation allk := ("All" +:+ label_addition).
Local Abbreviation glabel := (group_label label_addition).
Local Abbreviation curve :=
  (λ bl : string * list string, entry_of zero_at_efermi (summed bl.2)).

Lemma summed_step_body (bl : string * list string) dl st gown gall :
  get_summed_cohp_by_label_list cc bl.2 = Ok (summed bl.2) →
  od_get (glabel bl) st = Some gown → od_get allk st = Some gall →
  summed_step zero_at_efermi cc label_addition bl dl st
  = (Ok (), if decide (dl = glabel bl)
            then od_set (glabel bl) (od_set dl (curve bl) gown) st
            else if shown label_addition dl
                 then od_set allk (od_set dl (curve bl) gall) st
                 else st).
Proof.
  intros Hs Hg Ha. unfold summed_step, shown.
  destruct (decide (dl = glabel bl)) as [->|Hne].
  - unfold sbind, slift. rewrite Hs. unfold _update_cohps_data. by rewrite Hg.
  - destruct (bool_decide (dl ≠ allk) && negb (contains "Please" dl)); [|done].
    unfold sbind, slift. rewrite Hs. unfold _update_cohps_data. by rewrite Ha.
Qed.

Lemma summed_run (keys : list string) (done_ todo : list (string * list string))
    (st : cohps) :
  NoDup keys →
  NoDup (map glabel (done_ ++ todo)) →
  (∀ bl, bl ∈ done_ ++ todo → glabel bl ≠ allk) →
  (∀ bl, bl ∈ done_ ++ todo →
         get_summed_cohp_by_label_list cc bl.2 = Ok (summed bl.2)) →
  summed_between zero_at_efermi label_addition summed keys done_ todo st →
  ∃ st',
    sfor (λ bl st, sfor (summed_step zero_at_efermi cc label_addition bl)
                     (od_keys st) st) todo st = (Ok (), st')
    ∧ summed_between zero_at_efermi label_addition summed keys
        (done_ ++ todo) [] st'.
Proof.
  intros Hkeys. revert done_ st.
  induction todo as [|bl0 todo IH]; intros done_ st Hnd Hall Hsum Hb.
  - exists st. split; [done|]. by rewrite app_nil_r.
  - destruct Hb as (Hk & (gall & Ha & Hlook) & Hd & Ht).
    assert (Hin0 : bl0 ∈ done_ ++ bl0 :: todo).
    { apply elem_of_app. right. apply elem_of_cons. by left. }
    assert (Hown : od_get (glabel bl0) st = Some []).
    { apply Ht. apply elem_of_cons. by left. }
    destruct (group_loop (glabel bl0) allk
                (summed_step zero_at_efermi cc label_addition bl0)
                (λ dl go, od_set dl (curve bl0) go)
                (λ dl ga, od_set dl (curve bl0) ga)
                (shown label_addition) (Hall bl0 Hin0)
                (λ dl st gown gall,
                   summed_step_body bl0 dl st gown gall (Hsum bl0 Hin0))
                (od_keys st) st [] gall Hown Ha)
      as (st1 & E & Hk1 & Hother & Hg & Hall1).
    rewrite Hk in Hg, Hall1, E.
    rewrite (foldl_at_own (glabel bl0)) in Hg by done.
    rewrite bool_decide_eq_true_2 in Hg
      by (rewrite <- Hk; apply od_get_Some_keys; eauto).
    cbn [od_set] in Hg.
    assert (Hnd' : NoDup (map glabel ((done_ ++ [bl0]) ++ todo)))
      by (by rewrite <- app_assoc).
    assert (Hall' : ∀ bl, bl ∈ (done_ ++ [bl0]) ++ todo → glabel bl ≠ allk)
      by (by rewrite <- app_assoc).
    assert (Hsum' : ∀ bl, bl ∈ (done_ ++ [bl0]) ++ todo →
              get_summed_cohp_by_label_list cc bl.2 = Ok (summed bl.2))
      by (by rewrite <- app_assoc).
    rewrite map_app in Hnd. apply NoDup_app in Hnd as (Hnd1 & Hdis & Hnd2).
    cbn [map] in Hnd2, Hdis. apply NoDup_cons in Hnd2 as [Hnot2 _].
    assert (Hdiff : ∀ bl, bl ∈ done_ ++ todo → glabel bl ≠ glabel bl0).
    { intros bl [Hin|Hin]%elem_of_app Heq.
      - apply (Hdis (glabel bl)).
        + by apply (list_elem_of_fmap_2 glabel).
        + rewrite Heq. apply elem_of_cons. by left.
      - apply Hnot2. rewrite <- Heq. by apply (list_elem_of_fmap_2 glabel). }
    destruct (IH (done_ ++ [bl0]) st1 Hnd' Hall' Hsum') as (st' & E' & Hb').
    { split; [by rewrite Hk1|]. split; [|split].
      - eexists. split; [exact Hall1|]. intros x.
        rewrite od_get_labelled, Hlook, filter_app, filter_cons, filter_nil.
        destruct (bool_decide (x ∈ keys)); [|done]. cbn [andb].
        destruct (decide (x = glabel bl0)) as [->|Hx].
        + rewrite (bool_decide_eq_false_2 (glabel bl0 ≠ glabel bl0))
            by (intros H; by apply H).
          cbn [andb]. rewrite decide_False by (intros H; by apply H).
          by rewrite app_nil_r.
        + rewrite (bool_decide_eq_true_2 _ Hx). cbn [andb].
          destruct (shown label_addition x); [|done].
          rewrite decide_True by congruence. by rewrite last_snoc.
      - intros bl Hin. apply elem_of_app in Hin as [Hin|Hin].
        + rewrite Hother.
          * by apply Hd.
          * apply Hdiff. apply elem_of_app. by left.
          * apply Hall. apply elem_of_app. by left.
        + apply list_elem_of_singleton in Hin as ->. exact Hg.
      - intros bl Hin. rewrite Hother.
        + apply Ht. apply elem_of_cons. by right.
        + apply Hdiff. apply elem_of_app. by right.
        + apply Hall. apply elem_of_app. right. apply elem_of_cons. by right. }
    exists st'. split.
    + cbn [sfor]. unfold sbind at 1. rewrite Hk, E. exact E'.
    + by rewrite <- app_assoc in Hb'.
Qed.
End SummedFacts.

Lemma shown_keys (label_addition x : string) (l : list string)
    (st : Interactive.cohps) :
  bool_decide
    (x ∈ Interactive.od_keys
           (foldl (λ s a, Interactive.od_set a [] s)
              (Interactive.od_set ("All" +:+ label_addition) []
                 (Interactive.od_set Interactive.please [] st)) l))
  && Interactive.shown label_addition x
  = bool_decide (x ∈ l ++ Interactive.od_keys st)
    && Interactive.shown label_addition x.
Proof.
  destruct (Interactive.shown label_addition x) eqn:Hs;
    [|by rewrite !andb_false_r].
  rewrite !andb_true_r. apply bool_decide_ext.
  unfold Interactive.shown in Hs. apply andb_true_iff in Hs as [H1 H2].
  apply bool_decide_eq_true in H1.
  assert (x ≠ Interactive.please) by (intros ->; discriminate H2).
  rewrite (groups_keys (λ a, a)), map_id, !od_keys_set_elem, elem_of_app.
  split; [intros [?|[?|[?|?]]]; auto; done|intros [?|?]; auto].
Qed.

(** X20 ([InteractiveCohpPlotter.add_all_relevant_cohps] with
    [label_resolved=False]). When the bond entries give the plot data [pd],
    the group labels of its bonds are distinct and none of them is the label
    of [All], and the summed curve of every bond exists, the call succeeds
    and each bond's own group holds its summed curve under the group label.
    The group [All] then has an entry exactly under the dropdown labels (of
    the bonds and of the groups the plotter held before) that are not its
    own and do not contain [Please], and the entry under a label is the
    summed curve of the last bond of the plot data whose group label is
    another one: under the label of a bond stands the curve of another bond,
    and nothing when it is the only bond. *)
Theorem add_all_relevant_cohps_summed (zero_at_efermi : bool)
    (set_order : list string → list string) (cc : Interactive.CompleteCohp)
    (label_addition : string) (sites : list string)
    (set_infos_bonds : list Interactive.bond_info)
    (named : list (list (string * string)))
    (summed : list string → Interactive.Cohp)
    (st : list (string * list (string * PlainPlot.cohp_entry))) :
  Cli.result_map (Interactive.named_bonds sites) set_infos_bonds = Ok named →
  NoDup (Interactive.od_keys st) →
  NoDup (map (Interactive.group_label label_addition)
           (Interactive.plot_data_of set_order named)) →
  (∀ bl, bl ∈ Interactive.plot_data_of set_order named →
         Interactive.group_label label_addition bl ≠ "All" +:+ label_addition
         ∧ Interactive.get_summed_cohp_by_label_list cc bl.2
           = Ok (summed bl.2)) →
  ∃ st' gall,
    Interactive.add_all_relevant_cohps zero_at_efermi set_order cc
      label_addition sites set_infos_bonds false st = (Ok (), st')
    ∧ (∀ bl, bl ∈ Interactive.plot_data_of set_order named →
         Interactive.od_get (Interactive.group_label label_addition bl) st'
         = Some [(Interactive.group_label label_addition bl,
                  Interactive.entry_of zero_at_efermi (summed bl.2))])
    ∧ Interactive.od_get ("All" +:+ label_addition) st' = Some gall
    ∧ ∀ x, Interactive.od_get x gall
           = if bool_decide
                  (x ∈ map (Interactive.group_label label_addition)
                         (Interactive.plot_data_of set_order named)
                       ++ Interactive.od_keys st)
                && Interactive.shown label_addition x
             then (λ bl : string * list string,
                     Interactive.entry_of zero_at_efermi (summed bl.2))
                    <$> last (filter
                                (λ bl, Interactive.group_label label_addition bl ≠ x)
                                (Interactive.plot_data_of set_order named))
             else None.
Proof.
  intros Hnamed Hst Hnd Hpd.
  unfold Interactive.add_all_relevant_cohps.
  unfold Interactive.sbind at 1. unfold Interactive.slift at 1. rewrite Hnamed.
  set (pd := Interactive.plot_data_of set_order named) in *.
  unfold Interactive.add_plot_data.
  unfold Interactive.sbind at 1. unfold Interactive.new_group at 1.
  unfold Interactive.sbind at 1. unfold Interactive.new_group at 1.
  unfold Interactive.sbind at 1. rewrite groups_run.
  set (s0 := foldl _ _ pd).
  destruct (summed_run zero_at_efermi cc label_addition summed
              (Interactive.od_keys s0) [] pd s0)
    as (st' & E & Hk & (gall & Ha & Hlook) & Hd & _).
  - apply groups_NoDup. by do 2 apply od_keys_NoDup_set.
  - exact Hnd.
  - intros bl Hin. by apply Hpd.
  - intros bl Hin. by apply Hpd.
  - split; [done|]. split; [|split].
    + exists []. split.
      * unfold s0. rewrite groups_get. case_bool_decide; [done|].
        apply od_get_set_eq.
      * intros x. by destruct (_ && _).
    + intros bl Hin. by apply elem_of_nil in Hin.
    + intros bl Hin. unfold s0. rewrite groups_get.
      rewrite bool_decide_eq_true_2; [done|].
      by apply (list_elem_of_fmap_2 (Interactive.group_label label_addition)).
  - exists st', gall. split; [exact E|]. split; [|split].
    + intros bl Hin. by apply Hd.
    + exact Ha.
    + intros x. rewrite Hlook. unfold s0.
      rewrite <- (shown_keys label_addition x
                    (map (Interactive.group_label label_addition) pd) st).
      by rewrite foldl_fmap.
Qed.

Lemma add_all_relevant_cohps_summed_witness :
  let summed : list string → Interactive.Cohp := λ labels,
    {| Interactive.cohp_energies := [0; 1]%Q;
       Interactive.cohp_efermi := inject_Z (Z.of_nat (length labels));
       Interactive.cohp_populations :=
         {| PlainPlot.spin_up := Some [1; 2]%Q; PlainPlot.spin_down := None |};
       Interactive.cohp_int_populations :=
         Some {| PlainPlot.spin_up := Some [1; 3]%Q;
                 PlainPlot.spin_down := None |} |} in
  let cc : Interactive.CompleteCohp :=
    {| Interactive.bond_species := ∅;
       Interactive.get_cohp_by_label := λ _, Raise (KeyError "");
       Interactive.get_summed_cohp_by_label_list := λ l, Ok (summed l) |} in
  let infos : list Interactive.bond_info :=
    [ {| Interactive.info_labels := ["1"; "2"; "3"];
         Interactive.info_atoms := [("Na1", "Cl2"); ("Na1", "Na3"); ("Na1", "Cl4")];
         Interactive.info_site := 0 |} ] in
  ∃ st' gall,
    Interactive.add_all_relevant_cohps false remove_dups cc "" ["Na"; "Cl"]
      infos false [] = (Ok (), st')
    ∧ Interactive.od_get "Na1: 2 x Na-Cl" st'
      = Some [("Na1: 2 x Na-Cl", Interactive.entry_of false (summed ["1"; "3"]))]
    ∧ Interactive.od_get "All" st' = Some gall
    ∧ Interactive.od_get "Na1: 2 x Na-Cl" gall
      = Some (Interactive.entry_of false (summed ["2"])).
Proof.
  intros summed cc infos.
  destruct (add_all_relevant_cohps_summed false remove_dups cc "" ["Na"; "Cl"]
              infos
              [[("Na1: Na-Cl", "1"); ("Na1: Na-Na", "2"); ("Na1: Na-Cl", "3")]]
              summed [])
    as (st' & gall & E & Hown & Ha & Hlook).
  - reflexivity.
  - apply NoDup_nil_2.
  - by apply (bool_decide_unpack _).
  - intros bl Hin.
    change (bl ∈ [("Na1: Na-Na", ["2"]); ("Na1: Na-Cl", ["1"; "3"])]) in Hin.
    apply elem_of_cons in Hin as [->|Hin];
      [|apply list_elem_of_singleton in Hin as ->]; split; done.
  - exists st', gall. split; [exact E|]. split; [|split; [exact Ha|]].
    + apply (Hown ("Na1: Na-Cl", ["1"; "3"])).
      apply elem_of_cons. right. apply elem_of_cons. by left.
    + rewrite Hlook. reflexivity.
Defined.

Section ResolvedFacts.
Import Interactive.
Variable zero_at_efermi : bool.
Variable cc : CompleteCohp.
Variable label_addition : string.
Local Abbreviation allk := ("All" +:+ label_addition).
Local Abbreviation glabel := (group_label label_addition).
Local Abbreviation writes := (label_writes zero_at_efermi cc).

Lemma add_labels_run (outer : string) (key_of : string → result string)
    (labels : list string) (st : cohps) grp :
  od_get outer st = Some grp →
  (∀ label, label ∈ labels →
     ¬ is_raise (get_cohp_by_label cc label) ∧ ¬ is_raise (key_of label)) →
  add_labels zero_at_efermi cc outer key_of labels st
  = (Ok (), od_set outer (od_write (writes key_of labels) grp) st).
Proof.
  revert st grp. induction labels as [|label labels IH]; intros st grp Hg Hok.
  - cbn. by rewrite od_set_get_id.
  - destruct (Hok label) as [Hc Hk]; [apply elem_of_cons; by left|].
    destruct (get_cohp_by_label cc label) as [c|e] eqn:Ec; [|by destruct Hc].
    destruct (key_of label) as [k|e] eqn:Ek; [|by destruct Hk].
    assert (writes key_of (label :: labels)
            = (k, entry_of zero_at_efermi c) :: writes key_of labels) as ->.
    { unfold label_writes. cbn [omap list_omap]. by rewrite Ek, Ec. }
    unfold add_labels. cbn [sfor].
    fold (add_labels zero_at_efermi cc outer key_of labels).
    unfold sbind at 1. unfold sbind at 1. unfold slift at 1. rewrite Ec.
    unfold sbind at 1. unfold slift at 1. rewrite Ek.
    unfold _update_cohps_data at 1. rewrite Hg.
    rewrite (IH _ (od_set k (entry_of zero_at_efermi c) grp)).
    + by rewrite od_set_set.
    + apply od_get_set_eq.
    + intros l Hl. apply Hok. apply elem_of_cons. by right.
Qed.

Lemma resolved_step_body (bl : string * list string) dl st gown gall :
  (∀ label, label ∈ bl.2 →
     ¬ is_raise (get_cohp_by_label cc label)
     ∧ ¬ is_raise (new_label bl.1 label)) →
  od_get (glabel bl) st = Some gown → od_get allk st = Some gall →
  resolved_step zero_at_efermi cc label_addition bl dl st
  = (Ok (), if decide (dl = glabel bl)
            then od_set (glabel bl) (od_write (writes Ok bl.2) gown) st
            else if bool_decide (dl ≠ allk)
                 then od_set allk
                        (od_write (writes (new_label bl.1) bl.2) gall) st
                 else st).
Proof.
  intros Hok Hg Ha. unfold resolved_step.
  destruct (decide (dl = glabel bl)) as [->|Hne].
  - apply add_labels_run; [done|]. intros l Hl. split; [by apply Hok|by intros ?].
  - destruct (decide (dl ≠ allk)) as [Hd|Hd].
    + rewrite (bool_decide_eq_true_2 _ Hd). by apply add_labels_run.
    + by rewrite (bool_decide_eq_false_2 _ Hd).
Qed.

Lemma resolved_run (keys : list string)
    (done_ todo : list (string * list string)) (st : cohps) :
  NoDup keys → please ∈ keys →
  NoDup (map glabel (done_ ++ todo)) →
  (∀ bl, bl ∈ done_ ++ todo → glabel bl ≠ allk ∧ glabel bl ≠ please) →
  (∀ bl label, bl ∈ done_ ++ todo → label ∈ bl.2 →
     ¬ is_raise (get_cohp_by_label cc label)
     ∧ ¬ is_raise (new_label bl.1 label)) →
  resolved_between zero_at_efermi label_addition cc keys done_ todo st →
  ∃ st',
    sfor (λ bl st, sfor (resolved_step zero_at_efermi cc label_addition bl)
                     (od_keys st) st) todo st = (Ok (), st')
    ∧ resolved_between zero_at_efermi label_addition cc keys
        (done_ ++ todo) [] st'.
Proof.
  intros Hkeys Hplease. revert done_ st.
  induction todo as [|bl0 todo IH]; intros done_ st Hnd Hall Hok Hb.
  - exists st. split; [done|]. by rewrite app_nil_r.
  - destruct Hb as (Hk & (gall & Ha & Hlook) & Hd & Ht).
    assert (Hin0 : bl0 ∈ done_ ++ bl0 :: todo).
    { apply elem_of_app. right. apply elem_of_cons. by left. }
    assert (Hown : od_get (glabel bl0) st = Some []).
    { apply Ht. apply elem_of_cons. by left. }
    destruct (Hall bl0 Hin0) as [Hall0 Hpl0].
    destruct (group_loop (glabel bl0) allk
                (resolved_step zero_at_efermi cc label_addition bl0)
                (λ _ go, od_write (writes Ok bl0.2) go)
                (λ _ ga, od_write (writes (new_label bl0.1) bl0.2) ga)
                (λ dl, bool_decide (dl ≠ allk)) Hall0
                (λ dl st gown gall,
                   resolved_step_body bl0 dl st gown gall
                     (λ label, Hok bl0 label Hin0))
                (od_keys st) st [] gall Hown Ha)
      as (st1 & E & Hk1 & Hother & Hg & Hall1).
    rewrite Hk in Hg, Hall1, E.
    rewrite (foldl_at_own (glabel bl0)) in Hg by done.
    rewrite bool_decide_eq_true_2 in Hg
      by (rewrite <- Hk; apply od_get_Some_keys; eauto).
    assert (Hnd' : NoDup (map glabel ((done_ ++ [bl0]) ++ todo)))
      by (by rewrite <- app_assoc).
    assert (Hall' : ∀ bl, bl ∈ (done_ ++ [bl0]) ++ todo →
              glabel bl ≠ allk ∧ glabel bl ≠ please)
      by (by rewrite <- app_assoc).
    assert (Hok' : ∀ bl label, bl ∈ (done_ ++ [bl0]) ++ todo → label ∈ bl.2 →
              ¬ is_raise (get_cohp_by_label cc label)
              ∧ ¬ is_raise (new_label bl.1 label))
      by (by rewrite <- app_assoc).
    rewrite map_app in Hnd. apply NoDup_app in Hnd as (Hnd1 & Hdis & Hnd2).
    cbn [map] in Hnd2, Hdis. apply NoDup_cons in Hnd2 as [Hnot2 _].
    assert (Hdiff : ∀ bl, bl ∈ done_ ++ todo → glabel bl ≠ glabel bl0).
    { intros bl [Hin|Hin]%elem_of_app Heq.
      - apply (Hdis (glabel bl)).
        + by apply (list_elem_of_fmap_2 glabel).
        + rewrite Heq. apply elem_of_cons. by left.
      - apply Hnot2. rewrite <- Heq. by apply (list_elem_of_fmap_2 glabel). }
    destruct (IH (done_ ++ [bl0]) st1 Hnd' Hall' Hok') as (st' & E' & Hb').
    { split; [by rewrite Hk1|]. split; [|split].
      - eexists. split; [exact Hall1|]. intros x.
        rewrite od_get_repeated, Hlook.
        assert (existsb (λ dl, bool_decide (dl ≠ glabel bl0)
                               && bool_decide (dl ≠ allk)) keys = true) as ->.
        { apply existsb_exists. exists please. split.
          - by apply list_elem_of_In.
          - rewrite !bool_decide_eq_true_2; [done| |congruence].
            intros H. symmetry in H. by apply all_not_please in H. }
        unfold resolved_writes. rewrite flat_map_app. cbn [flat_map].
        rewrite app_nil_r.
        fold (resolved_writes zero_at_efermi cc done_).
        by rewrite last_write_app.
      - intros bl Hin. apply elem_of_app in Hin as [Hin|Hin].
        + rewrite Hother.
          * by apply Hd.
          * apply Hdiff. apply elem_of_app. by left.
          * apply Hall. apply elem_of_app. by left.
        + apply list_elem_of_singleton in Hin as ->. exact Hg.
      - intros bl Hin. rewrite Hother.
        + apply Ht. apply elem_of_cons. by right.
        + apply Hdiff. apply elem_of_app. by right.
        + apply Hall. apply elem_of_app. right. apply elem_of_cons. by right. }
    exists st'. split.
    + cbn [sfor]. unfold sbind at 1. rewrite Hk, E. exact E'.
    + by rewrite <- app_assoc in Hb'.
Qed.
End ResolvedFacts.

Section ResultMapFacts.
Context {A B : Type}.
Variable f : A → result B.

Lemma result_map_elem (l : list A) (ys : list B) :
  Cli.result_map f l = Ok ys → ∀ y, y ∈ ys → ∃ x, x ∈ l ∧ f x = Ok y.
Proof.
  revert ys. induction l as [|x l IH]; intros ys H y Hy.
  - injection H as <-. by apply elem_of_nil in Hy.
  - cbn [Cli.result_map] in H. destruct (f x) as [y0|e] eqn:Ex; [|discriminate H].
    cbn [result_bind] in H.
    destruct (Cli.result_map f l) as [ys0|e]; [|discriminate H].
    cbn [result_bind] in H. injection H as <-.
    apply elem_of_cons in Hy as [->|Hy].
    + exists x. split; [apply elem_of_cons; by left|done].
    + destruct (IH ys0 eq_refl y Hy) as (x' & Hx' & E).
      exists x'. split; [apply elem_of_cons; by right|done].
Qed.
End ResultMapFacts.

Section BondNameFacts.
Import Interactive.

Lemma has_char_split (c : Ascii.ascii) (s : string) :
  CliTools.has_char c s = true →
  ∃ a b rest, CliTools.split_char c s = a :: b :: rest.
Proof.
  induction s as [|x s IH]; [done|]. cbn [CliTools.has_char CliTools.split_char].
  destruct (Ascii.eqb x c).
  - intros _. pose proof (split_char_nonempty c s) as Hn.
    destruct (CliTools.split_char c s) as [|h t]; [done|]. by eexists _, _, _.
  - cbn [orb]. intros H. destruct (IH H) as (a & b & rest & ->).
    by eexists _, _, _.
Qed.

Lemma bond_name_colon (species : string) (site : nat) (val : string * string) :
  CliTools.has_char colon (bond_name species site val) = true.
Proof.
  unfold bond_name. rewrite !has_char_app.
  change (CliTools.has_char colon ": ") with true.
  by rewrite !orb_true_r.
Qed.

Lemma new_label_ok (bond_key label : string) :
  CliTools.has_char colon bond_key = true →
  ¬ is_raise (new_label bond_key label).
Proof.
  intros H. unfold new_label.
  destruct (has_char_split colon bond_key H) as (a & b & rest & ->).
  by intros ?.
Qed.

Lemma named_bonds_colon (sites : list string) (infos : list bond_info)
    (named : list (list (string * string))) :
  Cli.result_map (named_bonds sites) infos = Ok named →
  ∀ pairs p, pairs ∈ named → p ∈ pairs →
    CliTools.has_char colon p.1 = true.
Proof.
  intros H pairs p Hpairs Hp.
  destruct (result_map_elem _ _ _ H pairs Hpairs) as (i & _ & Hi).
  unfold named_bonds in Hi.
  destruct (result_map_elem _ _ _ Hi p Hp) as (iv & _ & Hiv).
  destruct (sites !! info_site i) as [species|]; [|discriminate Hiv].
  destruct (info_labels i !! iv.1) as [label|]; [|discriminate Hiv].
  injection Hiv as <-. apply bond_name_colon.
Qed.
End BondNameFacts.

Section PlotDataOfFacts.
Import Interactive.
Variable set_order : list string → list string.
Local Abbreviation labels_of pairs item :=
  (map snd (filter (λ p : string * string, p.1 = item) pairs)).
Local Abbreviation item_writes :=
  (λ pairs : list (string * string),
     map (λ item, (item, labels_of pairs item)) (set_order (map fst pairs))).

Lemma od_write_app {V : Type} (ws1 ws2 : list (string * V)) d :
  od_write (ws1 ++ ws2) d = od_write ws2 (od_write ws1 d).
Proof. apply foldl_app. Qed.

Lemma plot_data_of_writes (named : list (list (string * string))) :
  plot_data_of set_order named = od_write (flat_map item_writes named) [].
Proof.
  unfold plot_data_of. generalize (@nil (string * list string)).
  induction named as [|pairs named IH]; intros d; [done|].
  cbn [foldl flat_map]. rewrite IH, od_write_app. f_equal.
  unfold od_write. by rewrite foldl_fmap.
Qed.

Lemma last_write_Some {V : Type} (k : string) (ws : list (string * V)) v :
  last_write k ws = Some v → (k, v) ∈ ws.
Proof.
  unfold last_write. destruct (last _) as [[k' v']|] eqn:E; [|done].
  intros [= <-]. apply last_Some in E as [l' E].
  assert (Hin : (k', v') ∈ filter (λ w : string * V, w.1 = k) ws).
  { rewrite E. apply elem_of_app. right. by apply list_elem_of_singleton. }
  apply list_elem_of_filter in Hin as [Hk Hin]. cbn [fst] in Hk. by subst.
Qed.

Lemma last_write_items {V : Type} (k : string) (h : string → V)
    (items : list string) :
  last_write k (map (λ item, (item, h item)) items)
  = if bool_decide (k ∈ items) then Some (h k) else None.
Proof.
  induction items as [|x items IH].
  - cbn [map]. rewrite last_write_nil.
    by rewrite bool_decide_eq_false_2 by (by intros ?%elem_of_nil).
  - cbn [map]. rewrite last_write_cons, IH. cbn [fst snd].
    destruct (decide (k ∈ items)) as [Hin|Hin].
    + rewrite (bool_decide_eq_true_2 _ Hin).
      rewrite bool_decide_eq_true_2; [done|]. apply elem_of_cons. by right.
    + rewrite (bool_decide_eq_false_2 _ Hin).
      destruct (decide (x = k)) as [->|Hne].
      * rewrite bool_decide_eq_true_2; [done|]. apply elem_of_cons. by left.
      * rewrite bool_decide_eq_false_2; [done|].
        intros [?|?]%elem_of_cons; [congruence|done].
Qed.

(** Every bond key of the plot data is an item of the set of some entry. *)
Lemma plot_data_of_keys (named : list (list (string * string)))
    (bl : string * list string) :
  bl ∈ plot_data_of set_order named →
  ∃ pairs, pairs ∈ named ∧ bl.1 ∈ set_order (map fst pairs).
Proof.
  intros Hin.
  assert (Hk : bl.1 ∈ od_keys (plot_data_of set_order named))
    by (by apply (list_elem_of_fmap_2 fst)).
  apply od_get_Some_keys in Hk as [v Hv].
  rewrite plot_data_of_writes, od_get_write in Hv.
  destruct (last_write _ _) as [v'|] eqn:E; [|done].
  apply last_write_Some in E. apply list_elem_of_In, in_flat_map in E.
  destruct E as (pairs & Hpairs & Hw). exists pairs.
  split; [by apply list_elem_of_In|].
  apply in_map_iff in Hw as (item & [= <- _] & Hitem).
  by apply list_elem_of_In.
Qed.
End PlotDataOfFacts.

(** X21 ([InteractiveCohpPlotter.add_all_relevant_cohps] with
    [label_resolved=True]). When the bond entries give the plot data, the
    set of the bond names of an entry holds only names of the entry, the
    group labels of the bonds are distinct and none is the label of [All] or
    the placeholder, and every label has its curve, the call succeeds: the
    key of a curve in [All] can always be built, since every bond name has a
    colon. Each bond's own group holds the curves of its labels under the
    labels, and the group [All] holds, under each key that a label of a bond
    gives, the curve of the last such label in the order of the plot data,
    and nothing else. *)
Theorem add_all_relevant_cohps_resolved (zero_at_efermi : bool)
    (set_order : list string → list string) (cc : Interactive.CompleteCohp)
    (label_addition : string) (sites : list string)
    (set_infos_bonds : list Interactive.bond_info)
    (named : list (list (string * string)))
    (st : list (string * list (string * PlainPlot.cohp_entry))) :
  Cli.result_map (Interactive.named_bonds sites) set_infos_bonds = Ok named →
  (∀ l x, x ∈ set_order l → x ∈ l) →
  NoDup (Interactive.od_keys st) →
  NoDup (map (Interactive.group_label label_addition)
           (Interactive.plot_data_of set_order named)) →
  (∀ bl, bl ∈ Interactive.plot_data_of set_order named →
         Interactive.group_label label_addition bl ≠ "All" +:+ label_addition
         ∧ Interactive.group_label label_addition bl ≠ Interactive.please
         ∧ ∀ label, label ∈ bl.2 →
             ¬ is_raise (Interactive.get_cohp_by_label cc label)) →
  ∃ st' gall,
    Interactive.add_all_relevant_cohps zero_at_efermi set_order cc
      label_addition sites set_infos_bonds true st = (Ok (), st')
    ∧ (∀ bl, bl ∈ Interactive.plot_data_of set_order named →
         Interactive.od_get (Interactive.group_label label_addition bl) st'
         = Some (Interactive.od_write
                   (Interactive.label_writes zero_at_efermi cc Ok bl.2) []))
    ∧ Interactive.od_get ("All" +:+ label_addition) st' = Some gall
    ∧ ∀ x, Interactive.od_get x gall
           = Interactive.last_write x
               (Interactive.resolved_writes zero_at_efermi cc
                  (Interactive.plot_data_of set_order named)).
Proof.
  intros Hnamed Hset Hst Hnd Hpd.
  unfold Interactive.add_all_relevant_cohps.
  unfold Interactive.sbind at 1. unfold Interactive.slift at 1. rewrite Hnamed.
  pose proof (plot_data_of_keys set_order named) as Hkeys.
  set (pd := Interactive.plot_data_of set_order named) in *.
  unfold Interactive.add_plot_data.
  unfold Interactive.sbind at 1. unfold Interactive.new_group at 1.
  unfold Interactive.sbind at 1. unfold Interactive.new_group at 1.
  unfold Interactive.sbind at 1. rewrite groups_run.
  set (s0 := foldl _ _ pd).
  destruct (resolved_run zero_at_efermi cc label_addition
              (Interactive.od_keys s0) [] pd s0)
    as (st' & E & Hk & (gall & Ha & Hlook) & Hd & _).
  - apply groups_NoDup. by do 2 apply od_keys_NoDup_set.
  - unfold s0. apply groups_keys. right. apply od_keys_set_elem. right.
    apply od_keys_set_elem. by left.
  - exact Hnd.
  - intros bl Hin. destruct (Hpd bl Hin) as (? & ? & _). done.
  - intros bl label Hin Hl. split.
    + destruct (Hpd bl Hin) as (_ & _ & Hc). by apply Hc.
    + apply new_label_ok.
      destruct (Hkeys bl Hin) as (pairs & Hpairs & Hitem).
      apply Hset in Hitem.
      apply list_elem_of_fmap in Hitem as (p & -> & Hp).
      by apply (named_bonds_colon sites set_infos_bonds named Hnamed pairs p).
  - split; [done|]. split; [|split].
    + exists []. split.
      * unfold s0. rewrite groups_get. case_bool_decide; [done|].
        apply od_get_set_eq.
      * intros x. done.
    + intros bl Hin. by apply elem_of_nil in Hin.
    + intros bl Hin. unfold s0. rewrite groups_get.
      rewrite bool_decide_eq_true_2; [done|].
      by apply (list_elem_of_fmap_2 (Interactive.group_label label_addition)).
  - exists st', gall. split; [exact E|]. split; [|split].
    + intros bl Hin. by apply Hd.
    + exact Ha.
    + exact Hlook.
Qed.

Lemma add_all_relevant_cohps_resolved_witness :
  let curve : string → Interactive.Cohp := λ label,
    {| Interactive.cohp_energies := [0; 1]%Q;
       Interactive.cohp_efermi := inject_Z (Z.of_nat (String.length label));
       Interactive.cohp_populations :=
         {| PlainPlot.spin_up := Some [1; 2]%Q; PlainPlot.spin_down := None |};
       Interactive.cohp_int_populations :=
         Some {| PlainPlot.spin_up := Some [1; 3]%Q;
                 PlainPlot.spin_down := None |} |} in
  let cc : Interactive.CompleteCohp :=
    {| Interactive.bond_species := ∅;
       Interactive.get_cohp_by_label := λ l, Ok (curve l);
       Interactive.get_summed_cohp_by_label_list := λ _, Raise (KeyError "") |} in
  let infos : list Interactive.bond_info :=
    [ {| Interactive.info_labels := ["1"; "2"; "13"];
         Interactive.info_atoms := [("Na1", "Cl2"); ("Na1", "Na3"); ("Na1", "Cl4")];
         Interactive.info_site := 0 |} ] in
  ∃ st' gall,
    Interactive.add_all_relevant_cohps false remove_dups cc "" ["Na"; "Cl"]
      infos true [] = (Ok (), st')
    ∧ Interactive.od_get "Na1: 2 x Na-Cl" st'
      = Some [("1", Interactive.entry_of false (curve "1"));
              ("13", Interactive.entry_of false (curve "13"))]
    ∧ Interactive.od_get "All" st' = Some gall
    ∧ Interactive.od_get "1_Na-Cl: 13" gall
      = Some (Interactive.entry_of false (curve "13"))
    ∧ Interactive.od_get "Na1: Na-Cl" gall = None.
Proof.
  intros curve cc infos.
  destruct (add_all_relevant_cohps_resolved false remove_dups cc "" ["Na"; "Cl"]
              infos
              [[("Na1: Na-Cl", "1"); ("Na1: Na-Na", "2"); ("Na1: Na-Cl", "13")]]
              [])
    as (st' & gall & E & Hown & Ha & Hlook).
  - reflexivity.
  - intros l x. apply elem_of_remove_dups.
  - apply NoDup_nil_2.
  - by apply (bool_decide_unpack _).
  - intros bl Hin.
    change (bl ∈ [("Na1: Na-Na", ["2"]); ("Na1: Na-Cl", ["1"; "13"])]) in Hin.
    apply elem_of_cons in Hin as [->|Hin];
      [|apply list_elem_of_singleton in Hin as ->];
      (split; [done|split; [done|by intros label _ ?]]).
  - exists st', gall. split; [exact E|]. split; [|split; [exact Ha|split]].
    + apply (Hown ("Na1: Na-Cl", ["1"; "13"])).
      apply elem_of_cons. right. apply elem_of_cons. by left.
    + rewrite Hlook. reflexivity.
    + rewrite Hlook. reflexivity.
Defined.

(** X22 ([InteractiveCohpPlotter.add_all_relevant_cohps], the dict
    [plot_data]). When the set of the bond names of an entry holds exactly
    the names of the entry, the plot data maps a bond name to the labels
    that carry this name in the last entry of [set_infos_bonds] that has the
    name, in the order of that entry; the bonds with this name in earlier
    entries are not in the plot data, and a name of no entry is no key. *)
Theorem plot_data_of_last_entry (set_order : list string → list string)
    (named : list (list (string * string))) (name : string) :
  (∀ l x, x ∈ set_order l ↔ x ∈ l) →
  Interactive.od_get name (Interactive.plot_data_of set_order named)
  = (λ pairs, map snd (filter (λ p : string * string, p.1 = name) pairs))
      <$> last (filter (λ pairs : list (string * string), name ∈ map fst pairs)
                  named).
Proof.
  intros Hset. rewrite plot_data_of_writes, od_get_write.
  induction named as [|pairs named IH] using rev_ind; [done|].
  rewrite flat_map_app, last_write_app. cbn [flat_map]. rewrite app_nil_r.
  rewrite last_write_items, filter_app, filter_cons, filter_nil.
  destruct (decide (name ∈ map fst pairs)) as [Hin|Hin].
  - rewrite bool_decide_eq_true_2 by (by apply Hset).
    by rewrite last_snoc.
  - rewrite bool_decide_eq_false_2 by (by rewrite Hset).
    rewrite app_nil_r. exact IH.
Qed.

Lemma plot_data_of_last_entry_witness :
  Interactive.od_get "Na1: Na-Cl"
    (Interactive.plot_data_of remove_dups
       [[("Na1: Na-Cl", "1"); ("Na1: Na-Na", "2"); ("Na1: Na-Cl", "3")];
        [("Na1: Na-Cl", "4")]])
  = Some ["4"].
Proof.
  rewrite (plot_data_of_last_entry remove_dups _ "Na1: Na-Cl").
  - reflexivity.
  - intros l x. apply elem_of_remove_dups.
Defined.

(** * [InteractiveCohpPlotter.get_plot] *)

Section TraceFacts.
Import Interactive.
Variable norm_pdf : Q → Q → Q.
Variable float_ceil_div : Q → Q → Z.
Variables plot_negative integrated invert_axes : bool.
Variable sigma : option Q.
Local Abbreviation spin_trace' :=
  (spin_trace norm_pdf float_ceil_div plot_negative invert_axes sigma).
Local Abbreviation curve_traces' :=
  (curve_traces norm_pdf float_ceil_div plot_negative integrated invert_axes sigma).
Local Abbreviation group_traces' :=
  (group_traces norm_pdf float_ceil_div plot_negative integrated invert_axes sigma).
Local Abbreviation all_traces' :=
  (all_traces norm_pdf float_ceil_div plot_negative integrated invert_axes sigma).
Local Abbreviation colors_from n curves :=
  (flat_map (λ jc : nat * (string * PlainPlot.cohp_entry),
               replicate (channels integrated jc.2.2) (next_color jc.1))
     (zip (seq n (length curves)) curves)).

Lemma spin_trace_color label color energies up pop ts :
  spin_trace' label color energies up pop = Ok ts →
  map trace_color ts
  = replicate (match pop with Some _ => 1 | None => 0 end) color.
Proof.
  unfold spin_trace. destruct pop as [p|]; [|by intros [= <-]].
  destruct (Plotting._broaden _ _ _ _ _ _) as [b|e]; [|done].
  by intros [= <-].
Qed.

Lemma curve_traces_color n lv ts :
  curve_traces' n lv = Ok ts →
  map trace_color ts = replicate (channels integrated lv.2) (next_color n).
Proof.
  unfold curve_traces, channels.
  destruct (PlainPlot.stored_populations integrated lv.2) as [pk|]; [|done].
  destruct (spin_trace' _ _ _ true _) as [up|e] eqn:Eu; [|done].
  cbn [result_bind].
  destruct (spin_trace' _ _ _ false _) as [down|e] eqn:Ed; [|done].
  cbn [result_bind]. intros [= <-].
  rewrite map_app, (spin_trace_color _ _ _ _ _ _ Eu),
    (spin_trace_color _ _ _ _ _ _ Ed).
  by rewrite replicate_add.
Qed.

Lemma group_traces_color n v ts n' :
  group_traces' n v = Ok (ts, n') →
  n' = n + length v ∧ map trace_color ts = colors_from n v.
Proof.
  revert n ts n'. induction v as [|lv v IH]; intros n ts n' H.
  - injection H as <- <-. split; [cbn; lia|done].
  - cbn [group_traces] in H.
    destruct (curve_traces' n lv) as [ts0|e] eqn:E0; [|done].
    cbn [result_bind] in H.
    destruct (group_traces' (n + 1) v) as [[ts1 n1]|e] eqn:E1; [|done].
    cbn [result_bind fst snd] in H. injection H as <- <-.
    destruct (IH _ _ _ E1) as [-> Hc]. split; [cbn [length]; lia|].
    rewrite map_app, (curve_traces_color _ _ _ E0), Hc.
    cbn [length seq zip zip_with flat_map fst snd].
    by rewrite Nat.add_1_r.
Qed.

Lemma colors_from_app n (a b : list (string * PlainPlot.cohp_entry)) :
  colors_from n (a ++ b) = colors_from n a ++ colors_from (n + length a) b.
Proof.
  revert n. induction a as [|x a IH]; intros n.
  - cbn [app length seq zip zip_with flat_map]. by rewrite Nat.add_0_r.
  - cbn [app length seq zip zip_with flat_map]. rewrite IH, <- app_assoc.
    by rewrite Nat.add_succ_comm.
Qed.

Lemma all_traces_color n (cs : cohps) traces :
  all_traces' n cs = Ok traces →
  map trace_color (flat_map snd traces) = colors_from n (flat_map snd cs).
Proof.
  revert n traces. induction cs as [|[k v] cs IH]; intros n traces H.
  - by injection H as <-.
  - cbn [all_traces fst snd] in H.
    destruct (group_traces' n v) as [[ts n1]|e] eqn:E0; [|done].
    cbn [result_bind fst snd] in H.
    destruct (all_traces' n1 cs) as [rest|e] eqn:E1; [|done].
    cbn [result_bind] in H. injection H as <-.
    destruct (group_traces_color _ _ _ _ E0) as [-> Hc].
    cbn [flat_map fst snd]. rewrite map_app, Hc, (IH _ _ E1).
    by rewrite colors_from_app.
Qed.

(** The dict [traces] has the keys of [_cohps], and a group without curves
    has no traces. *)
Lemma all_traces_groups n (cs : cohps) traces :
  all_traces' n cs = Ok traces →
  map fst traces = od_keys cs
  ∧ ∀ k ts, (k, ts) ∈ traces → ts ≠ [] → ∃ v, (k, v) ∈ cs ∧ v ≠ [].
Proof.
  revert n traces. induction cs as [|[k v] cs IH]; intros n traces H.
  - injection H as <-. split; [done|]. by intros k ts ?%elem_of_nil.
  - cbn [all_traces fst snd] in H.
    destruct (group_traces' n v) as [[ts n1]|e] eqn:E0; [|done].
    cbn [result_bind fst snd] in H.
    destruct (all_traces' n1 cs) as [rest|e] eqn:E1; [|done].
    cbn [result_bind] in H. injection H as <-.
    destruct (IH _ _ E1) as [Hk Hne]. split.
    + unfold od_keys in *. cbn [map fst]. by rewrite Hk.
    + intros k' ts' [[= -> ->]|Hin]%elem_of_cons Hts.
      * exists v. split; [apply elem_of_cons; by left|].
        intros ->. by injection E0 as <- _.
      * destruct (Hne k' ts' Hin Hts) as (v' & Hv' & Hn).
        exists v'. split; [apply elem_of_cons; by right|done].
Qed.
End TraceFacts.

Section ButtonFacts.
Import Interactive.

Lemma visible_length (traces : list (string * list trace)) (k : string) :
  length (visible traces k) = length (flat_map snd traces).
Proof.
  unfold visible. induction traces as [|[k0 ts] traces IH]; [done|].
  cbn [flat_map fst snd]. by rewrite !length_app, length_map, IH.
Qed.

(** Every trace belongs to one group, and the buttons show it by this
    group. *)
Lemma visible_group (traces : list (string * list trace)) (i : nat) :
  i < length (flat_map snd traces) →
  ∃ k, k ∈ map fst traces
       ∧ ∀ k', visible traces k' !! i = Some (bool_decide (k' = k)).
Proof.
  revert i. induction traces as [|[k0 ts] traces IH]; intros i Hi.
  - cbn in Hi. lia.
  - cbn [flat_map fst snd] in Hi. rewrite length_app in Hi.
    destruct (decide (i < length ts)) as [Hlt|Hge].
    + exists k0. split; [apply elem_of_cons; by left|]. intros k'.
      unfold visible. cbn [flat_map fst snd].
      rewrite lookup_app_l by (by rewrite length_map).
      rewrite list_lookup_fmap.
      destruct (lookup_lt_is_Some_2 ts i Hlt) as [t ->]. done.
    + destruct (IH (i - length ts)) as (k & Hk & Hv); [lia|].
      exists k. split; [apply elem_of_cons; by right|]. intros k'.
      unfold visible. cbn [flat_map fst snd].
      rewrite lookup_app_r by (rewrite length_map; lia).
      rewrite length_map. apply Hv.
Qed.

Lemma visible_none (traces : list (string * list trace)) (k : string) :
  (∀ ts, (k, ts) ∈ traces → ts = []) →
  Forall (λ b, b = false) (visible traces k).
Proof.
  unfold visible. induction traces as [|[k0 ts] traces IH]; intros H.
  - constructor.
  - cbn [flat_map fst snd]. apply Forall_app. split.
    + destruct (decide (k = k0)) as [->|Hne].
      * rewrite (H ts); [constructor|]. apply elem_of_cons. by left.
      * apply Forall_fmap, Forall_true. intros t. cbn.
        by apply bool_decide_eq_false_2.
    + apply IH. intros ts' Hin. apply H. apply elem_of_cons. by right.
Qed.
End ButtonFacts.

Lemma od_get_elem {V : Type} (d : list (string * V)) (k : string) (v : V) :
  NoDup (Interactive.od_keys d) → (k, v) ∈ d →
  Interactive.od_get k d = Some v.
Proof.
  unfold Interactive.od_keys. induction d as [|[k' v'] d IH]; intros Hnd Hin.
  - by apply elem_of_nil in Hin.
  - cbn [map fst] in Hnd. apply NoDup_cons in Hnd as [Hk' Hnd].
    cbn [Interactive.od_get]. apply elem_of_cons in Hin as [[= -> ->]|Hin].
    + by rewrite decide_True.
    + rewrite decide_False; [by apply IH|].
      intros ->. apply Hk'. by apply (list_elem_of_fmap_2 fst) in Hin.
Qed.

(** X23 ([InteractiveCohpPlotter.get_plot], the dropdown menu). When the
    figure is built it has one button for each group of the plotter, in the
    order of the groups and labelled by them; the list [visible] of every
    button has one flag for each trace of the figure; every trace belongs to
    one group and a button shows it exactly when the button is that group's;
    and the button of a group without curves, such as the placeholder entry,
    shows no trace. *)
Theorem get_plot_buttons (norm_pdf : Q → Q → Q)
    (float_ceil_div : Q → Q → Z)
    (are_coops are_cobis zero_at_efermi : bool)
    (_cohps : list (string * list (string * PlainPlot.cohp_entry)))
    (xlim : option (Q * Q)) (rangeslider : bool) (ylim : option (Q * Q))
    (plot_negative : option bool) (integrated invert_axes : bool)
    (sigma : option Q) (fig : Interactive.figure) :
  Interactive.get_plot norm_pdf float_ceil_div are_coops are_cobis zero_at_efermi _cohps
    xlim rangeslider ylim plot_negative integrated invert_axes sigma
  = Ok fig →
  map fst (Interactive.fig_buttons fig) = Interactive.od_keys _cohps
  ∧ (∀ k vis, (k, vis) ∈ Interactive.fig_buttons fig →
       length vis = length (Interactive.fig_data fig))
  ∧ (∀ i, i < length (Interactive.fig_data fig) →
       ∃ k, k ∈ Interactive.od_keys _cohps
            ∧ ∀ k' vis, (k', vis) ∈ Interactive.fig_buttons fig →
                vis !! i = Some (bool_decide (k' = k)))
  ∧ (∀ k vis, NoDup (Interactive.od_keys _cohps) →
       Interactive.od_get k _cohps = Some [] →
       (k, vis) ∈ Interactive.fig_buttons fig →
       Forall (λ b, b = false) vis).
Proof.
  unfold Interactive.get_plot.
  destruct (Interactive.all_traces _ _ _ _ _ _ _ _) as [traces|e] eqn:E; [|done].
  cbn [result_bind]. intros [= <-].
  cbn [Interactive.fig_buttons Interactive.fig_data].
  destruct (all_traces_groups _ _ _ _ _ _ _ _ _ E) as [Hk Hgroups].
  assert (Hb : ∀ k vis, (k, vis) ∈ Interactive.buttons traces →
               vis = Interactive.visible traces k).
  { intros k vis Hin. unfold Interactive.buttons in Hin.
    apply list_elem_of_fmap in Hin as (k0 & [= -> ->] & _). done. }
  split; [|split; [|split]].
  - unfold Interactive.buttons. rewrite map_map. cbn [fst]. by rewrite map_id.
  - intros k vis Hin. rewrite (Hb k vis Hin). apply visible_length.
  - intros i Hi. destruct (visible_group traces i Hi) as (k & Hin & Hv).
    exists k. split; [by rewrite <- Hk|].
    intros k' vis Hin'. rewrite (Hb k' vis Hin'). apply Hv.
  - intros k vis Hnd Hempty Hin. rewrite (Hb k vis Hin).
    apply visible_none. intros ts Hts.
    destruct ts as [|t ts]; [done|].
    destruct (Hgroups k (t :: ts) Hts) as (v & Hv & Hne); [done|].
    rewrite (od_get_elem _ _ _ Hnd Hv) in Hempty. by injection Hempty as ->.
Qed.

(** X24 ([InteractiveCohpPlotter.get_plot], the colors). The palette is
    advanced once for every curve of every group, across the groups: in the
    figure the traces of the curve with [j] curves before it, counted over
    all groups in their order, have the color [palette[j mod 9]], one trace
    for each spin that the curve has. So the figure has as many traces as
    there are spin channels, and a curve that stands in two groups is
    colored by each of its two places. *)
Theorem get_plot_colors (norm_pdf : Q → Q → Q)
    (float_ceil_div : Q → Q → Z)
    (are_coops are_cobis zero_at_efermi : bool)
    (_cohps : list (string * list (string * PlainPlot.cohp_entry)))
    (xlim : option (Q * Q)) (rangeslider : bool) (ylim : option (Q * Q))
    (plot_negative : option bool) (integrated invert_axes : bool)
    (sigma : option Q) (fig : Interactive.figure) :
  Interactive.get_plot norm_pdf float_ceil_div are_coops are_cobis zero_at_efermi _cohps
    xlim rangeslider ylim plot_negative integrated invert_axes sigma
  = Ok fig →
  map Interactive.trace_color (Interactive.fig_data fig)
  = flat_map (λ jc : nat * (string * PlainPlot.cohp_entry),
                replicate (Interactive.channels integrated jc.2.2)
                  (nth (jc.1 mod 9) Interactive.palette ""))
      (Interactive.numbered_curves _cohps).
Proof.
  unfold Interactive.get_plot.
  destruct (Interactive.all_traces _ _ _ _ _ _ _ _) as [traces|e] eqn:E; [|done].
  cbn [result_bind]. intros [= <-]. cbn [Interactive.fig_data].
  exact (all_traces_color _ _ _ _ _ _ _ _ _ E).
Qed.

Lemma get_plot_buttons_witness :
  ∃ fig,
    InteractiveSample.run None = Ok fig
    ∧ map fst (Interactive.fig_buttons fig)
      = [Interactive.please; "All"; "Na1: 1 x Na-Cl"]
    ∧ length (Interactive.fig_data fig) = 5
    ∧ ∀ vis, (Interactive.please, vis) ∈ Interactive.fig_buttons fig →
        Forall (λ b, b = false) vis.
Proof.
  destruct (InteractiveSample.run None) as [fig|e] eqn:E;
    [|vm_compute in E; discriminate E].
  exists fig. split; [done|].
  pose proof (get_plot_buttons _ _ _ _ _ _ _ _ _ _ _ _ _ fig E)
    as (Hk & _ & _ & Hnone).
  split; [exact Hk|]. split.
  - vm_compute in E. by injection E as <-.
  - intros vis Hin. apply (Hnone Interactive.please vis); [|done|done].
    by apply (bool_decide_unpack _).
Defined.

Lemma get_plot_colors_witness :
  ∃ fig,
    InteractiveSample.run None = Ok fig
    ∧ map Interactive.trace_color (Interactive.fig_data fig)
      = ["#e41a1c"; "#e41a1c"; "#377eb8"; "#4daf4a"; "#4daf4a"].
Proof.
  destruct (InteractiveSample.run None) as [fig|e] eqn:E;
    [|vm_compute in E; discriminate E].
  exists fig. split; [done|].
  by rewrite (get_plot_colors _ _ _ _ _ _ _ _ _ _ _ _ _ fig E).
Defined.

Section RawTraceFacts.
Import Interactive.
Variable norm_pdf : Q → Q → Q.
Variable float_ceil_div : Q → Q → Z.
Variables plot_negative integrated invert_axes : bool.
Local Abbreviation shows := (shows_channel plot_negative integrated invert_axes).
Local Abbreviation curve_traces' :=
  (curve_traces norm_pdf float_ceil_div plot_negative integrated invert_axes
     None).
Local Abbreviation group_traces' :=
  (group_traces norm_pdf float_ceil_div plot_negative integrated invert_axes
     None).
Local Abbreviation all_traces' :=
  (all_traces norm_pdf float_ceil_div plot_negative integrated invert_axes
     None).
Local Abbreviation stored :=
  (λ lv : string * PlainPlot.cohp_entry,
     PlainPlot.stored_populations integrated lv.2).

Lemma curve_traces_raw n (lv : string * PlainPlot.cohp_entry) :
  is_Some (stored lv) →
  ∃ ts, curve_traces' n lv = Ok ts ∧ Forall (shows lv) ts.
Proof.
  intros [pk Hpk]. unfold curve_traces, spin_trace, shows_channel.
  cbn in Hpk. rewrite Hpk.
  destruct (PlainPlot.spin_up pk) as [pu|] eqn:Eu;
    destruct (PlainPlot.spin_down pk) as [pd|] eqn:Ed;
    cbn [Plotting._broaden result_bind app]; eexists; (split; [reflexivity|]);
    repeat constructor.
  - exists pk, pu, true. split; [done|]. rewrite Eu. cbn. by destruct invert_axes.
  - exists pk, pd, false. split; [done|]. rewrite Ed. cbn. by destruct invert_axes.
  - exists pk, pu, true. split; [done|]. rewrite Eu. cbn. by destruct invert_axes.
  - exists pk, pd, false. split; [done|]. rewrite Ed. cbn. by destruct invert_axes.
Qed.

Lemma curve_traces_missing sigma n (lv : string * PlainPlot.cohp_entry) :
  stored lv = None →
  curve_traces norm_pdf float_ceil_div plot_negative integrated invert_axes
    sigma n lv = Raise TypeError.
Proof. intros H. unfold curve_traces. cbn in H. by rewrite H. Qed.

Lemma group_traces_raw n (v : list (string * PlainPlot.cohp_entry)) :
  Forall (λ lv, is_Some (stored lv)) v →
  ∃ ts n', group_traces' n v = Ok (ts, n')
           ∧ Forall (λ t, ∃ lv, lv ∈ v ∧ shows lv t) ts.
Proof.
  revert n. induction v as [|lv v IH]; intros n Hall.
  - exists [], n. split; [done|constructor].
  - apply Forall_cons in Hall as [Hlv Hall]. cbn [group_traces].
    destruct (curve_traces_raw n lv Hlv) as (ts0 & -> & H0).
    destruct (IH (n + 1) Hall) as (ts1 & n1 & -> & H1).
    cbn [result_bind fst snd]. eexists _, _. split; [reflexivity|].
    apply Forall_app. split.
    + eapply Forall_impl; [exact H0|]. intros t Ht. exists lv.
      split; [apply elem_of_cons; by left|done].
    + eapply Forall_impl; [exact H1|]. intros t (lv' & Hin & Ht). exists lv'.
      split; [apply elem_of_cons; by right|done].
Qed.

Lemma group_traces_missing n (v : list (string * PlainPlot.cohp_entry)) :
  Exists (λ lv, stored lv = None) v →
  group_traces' n v = Raise TypeError.
Proof.
  revert n. induction v as [|lv v IH]; intros n Hex.
  - by apply Exists_nil in Hex.
  - cbn [group_traces].
    destruct (PlainPlot.stored_populations integrated lv.2) as [pk|] eqn:E.
    + apply Exists_cons in Hex as [Hex|Hex]; [cbn in Hex; congruence|].
      destruct (curve_traces_raw n lv) as (ts0 & -> & _);
        [cbn; rewrite E; eauto|].
      cbn [result_bind]. by rewrite (IH (n + 1) Hex).
    + by rewrite curve_traces_missing.
Qed.

Lemma all_traces_raw n (cs : cohps) :
  Forall (λ lv, is_Some (stored lv)) (flat_map snd cs) →
  ∃ traces, all_traces' n cs = Ok traces
            ∧ Forall (λ t, ∃ k v lv, (k, v) ∈ cs ∧ lv ∈ v ∧ shows lv t)
                (flat_map snd traces).
Proof.
  revert n. induction cs as [|[k v] cs IH]; intros n Hall.
  - exists []. split; [done|constructor].
  - cbn [flat_map snd] in Hall. apply Forall_app in Hall as [Hv Hall].
    cbn [all_traces fst snd].
    destruct (group_traces_raw n v Hv) as (ts & n1 & -> & H0).
    cbn [result_bind fst snd].
    destruct (IH n1 Hall) as (rest & -> & H1).
    cbn [result_bind fst snd]. eexists. split; [reflexivity|].
    cbn [flat_map snd]. apply Forall_app. split.
    + eapply Forall_impl; [exact H0|]. intros t (lv & Hin & Ht).
      exists k, v, lv. split; [apply elem_of_cons; by left|done].
    + eapply Forall_impl; [exact H1|]. intros t (k' & v' & lv & Hin & Hl & Ht).
      exists k', v', lv. split; [apply elem_of_cons; by right|done].
Qed.

Lemma all_traces_missing n (cs : cohps) :
  Exists (λ lv, stored lv = None) (flat_map snd cs) →
  all_traces' n cs = Raise TypeError.
Proof.
  revert n. induction cs as [|[k v] cs IH]; intros n Hex.
  - by apply Exists_nil in Hex.
  - cbn [flat_map snd] in Hex. cbn [all_traces fst snd].
    destruct (stored_cases integrated v) as [Hv|Hv].
    + apply Exists_app in Hex as [Hex|Hex].
      * exfalso. apply Exists_exists in Hex as (lv & Hin & Hn).
        rewrite Forall_forall in Hv. destruct (Hv lv Hin) as [? ?].
        cbn in *. congruence.
      * destruct (group_traces_raw n v Hv) as (ts & n1 & -> & _).
        cbn [result_bind fst snd]. by rewrite (IH n1 Hex).
    + by rewrite (group_traces_missing n v Hv).
Qed.
End RawTraceFacts.

(** X25 ([InteractiveCohpPlotter.get_plot] without broadening). With
    [sigma=None] the call raises exactly when the stored populations it is
    to plot are [None] for some curve of some group (the integrated
    populations of a curve that has none, with [integrated=True]): the test
    [spin in population_key] then raises [TypeError]. Otherwise the figure
    is built, for the empty plotter too; each trace is one spin of one
    stored curve, negated when the negative is plotted and otherwise
    unchanged, against the energies of that curve, on the y axis when the
    axes are inverted; the trace of spin up has the label of the curve as
    its name and the trace of spin down the empty name. *)
Theorem interactive_plot_raw_traces (norm_pdf : Q → Q → Q)
    (float_ceil_div : Q → Q → Z)
    (are_coops are_cobis zero_at_efermi : bool)
    (_cohps : list (string * list (string * PlainPlot.cohp_entry)))
    (xlim : option (Q * Q)) (rangeslider : bool) (ylim : option (Q * Q))
    (plot_negative : option bool) (integrated invert_axes : bool) :
  let run :=
    Interactive.get_plot norm_pdf float_ceil_div are_coops are_cobis
      zero_at_efermi _cohps xlim rangeslider ylim plot_negative integrated
      invert_axes None in
  let missing :=
    Exists (λ lv : string * PlainPlot.cohp_entry,
              PlainPlot.stored_populations integrated lv.2 = None)
      (flat_map snd _cohps) in
  (is_raise run ↔ missing)
  ∧ (missing → run = Raise TypeError)
  ∧ (¬ missing →
     ∃ fig,
       run = Ok fig
       ∧ Forall (λ t, ∃ k v lv,
                   (k, v) ∈ _cohps ∧ lv ∈ v
                   ∧ Interactive.shows_channel
                       (Interactive.effective_negative are_coops are_cobis
                          plot_negative)
                       integrated invert_axes lv t)
           (Interactive.fig_data fig)).
Proof.
  intros run missing. subst run missing. unfold Interactive.get_plot.
  destruct (stored_cases integrated (flat_map snd _cohps)) as [Hall|Hex].
  - assert (Hno : ¬ Exists (λ lv : string * PlainPlot.cohp_entry,
                     PlainPlot.stored_populations integrated lv.2 = None)
                    (flat_map snd _cohps)).
    { intros Hex. apply Exists_exists in Hex as (lv & Hin & Hn).
      rewrite Forall_forall in Hall. destruct (Hall lv Hin) as [? ?].
      cbn in *. congruence. }
    destruct (all_traces_raw norm_pdf float_ceil_div
                (Interactive.effective_negative are_coops are_cobis plot_negative)
                integrated invert_axes 0 _cohps Hall) as (traces & -> & H).
    cbn [result_bind]. split; [|split].
    + split; [by intros ?|done].
    + done.
    + intros _. eexists. split; [reflexivity|]. exact H.
  - rewrite (all_traces_missing norm_pdf float_ceil_div _ integrated
               invert_axes 0 _cohps Hex).
    cbn [result_bind]. split; [|split].
    + split; [done|]. intros _. exact I.
    + done.
    + done.
Qed.

Lemma interactive_plot_raw_traces_witness :
  (∃ fig, InteractiveSample.run None = Ok fig
     ∧ length (Interactive.fig_data fig) = 5)
  ∧ Interactive.get_plot (λ _ _, 1%Q) Plotting.exact_ceil_div false false true
      [("All", [("1", {| PlainPlot.energies := [0; 1]%Q;
                         PlainPlot.COHP :=
                           {| PlainPlot.spin_up := Some [1; 2]%Q;
                              PlainPlot.spin_down := None |};
                         PlainPlot.ICOHP := None;
                         PlainPlot.efermi := 0%Q |})])]
      None false None None true true None
    = Raise TypeError.
Proof.
  split.
  - destruct (interactive_plot_raw_traces (λ _ _, 1%Q) Plotting.exact_ceil_div
                false false true InteractiveSample.groups None false None
                None false true) as (_ & _ & Hok).
    destruct Hok as (fig & E & _).
    + intros Hex. apply Exists_exists in Hex as (lv & Hin & Hn).
      cbn in Hin. repeat (apply elem_of_cons in Hin as [->|Hin];
                          [discriminate Hn|]).
      by apply elem_of_nil in Hin.
    + exists fig. split; [exact E|].
      unfold InteractiveSample.run in *.
      assert (Ok fig = InteractiveSample.run None) as E' by (symmetry; exact E).
      vm_compute in E'. by injection E' as ->.
  - apply interactive_plot_raw_traces. apply Exists_cons. by left.
Defined.
